(** * Deployment-lifecycle core of the multi-cloud orchestrator

    A shallow embedding of the Python domain model
    ([orchestrator/domain/models]), the rule-based planner
    ([infrastructure/ai/planning_engine.py]), the in-memory repositories and
    the two domain services, followed by the properties of the
    specification stated over it.

    Python objects are mutable and exceptions leave earlier assignments in
    place, so every method is a state transformer that returns the state
    also when it raises. *)

From Stdlib Require Import Floats.
From Stdlib Require Uint63.
From Stdlib Require Import ZArith Lia.
From stdpp Require Import base option list strings pretty gmap.

Local Open Scope Z_scope.
Local Open Scope string_scope.
Local Open Scope list_scope.

(** ** Exceptions and the state-and-error monad *)

(** The exception classes of the code base (messages are not modelled) and
    [ValueError], raised by [list.remove]. *)
Inductive Exn : Type :=
  | InvalidStateTransitionError
  | InvalidTaskTransitionError
  | MaxRetriesExceededError
  | DeploymentNotFoundError
  | DeploymentPlanMissingError
  | DeploymentLockError
  | DriftScanError
  | ValueError.

Inductive Res (A : Type) : Type :=
  | Ok (a : A)
  | Raise (e : Exn).
Arguments Ok {A} a.
Arguments Raise {A} e.

(** A computation over a mutable state [S]: the state is returned in both
    outcomes, as a Python [raise] does not undo assignments. *)
Definition M (S A : Type) : Type := S -> Res A * S.

Definition ret {S A : Type} (a : A) : M S A := fun s => (Ok a, s).

Definition bind {S A B : Type} (m : M S A) (k : A -> M S B) : M S B :=
  fun s => match m s with
           | (Ok a, s') => k a s'
           | (Raise e, s') => (Raise e, s')
           end.

Definition raise {S A : Type} (e : Exn) : M S A := fun s => (Raise e, s).

Definition get {S : Type} : M S S := fun s => (Ok s, s).

Definition modify {S : Type} (f : S -> S) : M S unit := fun s => (Ok tt, f s).

Declare Scope py_scope.
Delimit Scope py_scope with py.
Notation "'let*' x ':=' m 'in' k" := (bind m (fun x => k))
  (at level 10, x name, m at level 100, k at level 200) : py_scope.
Notation "m ';;;' k" := (bind m (fun _ => k))
  (at level 100, k at level 200, right associativity) : py_scope.
Local Open Scope py_scope.

Definition succeeded {A S : Type} (r : Res A * S) : bool :=
  match fst r with Ok _ => true | Raise _ => false end.

Definition raised {A S : Type} (r : Res A * S) : option Exn :=
  match fst r with Ok _ => None | Raise e => Some e end.

(** ** The environment: clock and identifier source ([base.py]) *)

(** [utc_now] and [uuid4] are not functions of the program state.  They
    are modelled by two oracles, read at successive positions. *)
Record World : Type := mkWorld {
  clock : nat -> Z;
  uuid : nat -> string;
  ticks : nat;
  fresh : nat
}.

Definition utc_now_w (w : World) : Z * World :=
  (clock w (ticks w), mkWorld (clock w) (uuid w) (S (ticks w)) (fresh w)).

Definition generate_id_w (w : World) : string * World :=
  (uuid w (fresh w), mkWorld (clock w) (uuid w) (ticks w) (S (fresh w))).

(** A Python [dict] with string keys, where the order of insertion is
    observable ([values()], [sorted] being stable). *)
Definition dict (V : Type) : Type := list (string * V).

Fixpoint dict_get {V : Type} (k : string) (d : dict V) : option V :=
  match d with
  | [] => None
  | (k', v) :: d' => if decide (k' = k) then Some v else dict_get k d'
  end.

Fixpoint dict_set {V : Type} (k : string) (v : V) (d : dict V) : dict V :=
  match d with
  | [] => [(k, v)]
  | (k', v') :: d' =>
      if decide (k' = k) then (k, v) :: d' else (k', v') :: dict_set k v d'
  end.

Definition dict_values {V : Type} (d : dict V) : list V := map snd d.

(** ** [cloud_provider.py] *)

Module CloudProviderType.
Inductive t : Type := AWS | AZURE | GCP.
Definition value (p : t) : string :=
  match p with AWS => "aws" | AZURE => "azure" | GCP => "gcp" end.
#[global] Instance eq_dec : EqDecision t.
Proof. solve_decision. Defined.
End CloudProviderType.

Module ResourceType.
Inductive t : Type :=
  | COMPUTE | STORAGE | DATABASE | NETWORK | CONTAINER | SERVERLESS
  | LOAD_BALANCER | DNS | CDN | QUEUE | CACHE.
Definition value (r : t) : string :=
  match r with
  | COMPUTE => "compute" | STORAGE => "storage" | DATABASE => "database"
  | NETWORK => "network" | CONTAINER => "container"
  | SERVERLESS => "serverless" | LOAD_BALANCER => "load_balancer"
  | DNS => "dns" | CDN => "cdn" | QUEUE => "queue" | CACHE => "cache"
  end.
#[global] Instance eq_dec : EqDecision t.
Proof. solve_decision. Defined.
End ResourceType.

Module ResourceSpec.
Record t : Type := mk {
  resource_type : ResourceType.t;
  provider : CloudProviderType.t;
  region : string;
  name : string;
  properties : dict string;
  tags : dict string;
  dependencies : list string
}.
#[global] Instance eq_dec : EqDecision t.
Proof. solve_decision. Defined.

(** [f"{provider.value}/{region}/{resource_type.value}/{name}"] *)
Definition resource_identifier (r : t) : string :=
  CloudProviderType.value (provider r) ++ "/" ++ region r ++ "/"
    ++ ResourceType.value (resource_type r) ++ "/" ++ name r.
End ResourceSpec.

(** ** [base.py]: domain events *)

Module DomainEvent.
(** The subclasses of [deployment_events.py], by their own fields. *)
Inductive payload : Type :=
  | DeploymentCreated (deployment_id : string)
  | DeploymentPlanGenerated (deployment_id plan_id : string) (step_count : Z)
  | DeploymentApproved (deployment_id approved_by : string)
  | DeploymentStarted (deployment_id : string)
  | DeploymentCompleted (deployment_id : string)
  | DeploymentFailed (deployment_id error_message : string)
  | DeploymentRollbackStarted (deployment_id : string)
  | DeploymentRollbackCompleted (deployment_id : string).

Definition event_type_of (p : payload) : string :=
  match p with
  | DeploymentCreated _ => "deployment.created"
  | DeploymentPlanGenerated _ _ _ => "deployment.plan_generated"
  | DeploymentApproved _ _ => "deployment.approved"
  | DeploymentStarted _ => "deployment.started"
  | DeploymentCompleted _ => "deployment.completed"
  | DeploymentFailed _ _ => "deployment.failed"
  | DeploymentRollbackStarted _ => "deployment.rollback_started"
  | DeploymentRollbackCompleted _ => "deployment.rollback_completed"
  end.

Record t : Type := mk {
  event_id : string;
  event_type : string;
  occurred_at : Z;
  correlation_id : string;
  body : payload
}.

(** Constructing an event with an explicit [correlation_id]: the
    default factories of [event_id] and [occurred_at] run, in field
    order. *)
Definition new (p : payload) (corr : string) (w : World) : t * World :=
  let '(eid, w1) := generate_id_w w in
  let '(now, w2) := utc_now_w w1 in
  (mk eid (event_type_of p) now corr p, w2).
End DomainEvent.

(** ** [deployment.py] *)

Module DeploymentStatus.
Inductive t : Type :=
  | PENDING | PLANNING | PLANNED | AWAITING_APPROVAL | APPROVED
  | EXECUTING | VERIFYING | COMPLETED | FAILED | ROLLING_BACK
  | ROLLED_BACK | CANCELLED.
Definition value (s : t) : string :=
  match s with
  | PENDING => "pending" | PLANNING => "planning" | PLANNED => "planned"
  | AWAITING_APPROVAL => "awaiting_approval" | APPROVED => "approved"
  | EXECUTING => "executing" | VERIFYING => "verifying"
  | COMPLETED => "completed" | FAILED => "failed"
  | ROLLING_BACK => "rolling_back" | ROLLED_BACK => "rolled_back"
  | CANCELLED => "cancelled"
  end.
#[global] Instance eq_dec : EqDecision t.
Proof. solve_decision. Defined.
Definition all : list t :=
  [PENDING; PLANNING; PLANNED; AWAITING_APPROVAL; APPROVED; EXECUTING;
   VERIFYING; COMPLETED; FAILED; ROLLING_BACK; ROLLED_BACK; CANCELLED].
End DeploymentStatus.

Module DeploymentStrategy.
Inductive t : Type := ROLLING | BLUE_GREEN | CANARY | RECREATE.
Definition value (s : t) : string :=
  match s with
  | ROLLING => "rolling" | BLUE_GREEN => "blue_green"
  | CANARY => "canary" | RECREATE => "recreate"
  end.
End DeploymentStrategy.

(** The transition table; every status is a key of the Python dict, so
    the default of [.get] is never used. *)
Definition VALID_TRANSITIONS (s : DeploymentStatus.t)
  : list DeploymentStatus.t :=
  match s with
  | DeploymentStatus.PENDING =>
      [DeploymentStatus.PLANNING; DeploymentStatus.CANCELLED]
  | DeploymentStatus.PLANNING =>
      [DeploymentStatus.PLANNED; DeploymentStatus.FAILED]
  | DeploymentStatus.PLANNED =>
      [DeploymentStatus.AWAITING_APPROVAL; DeploymentStatus.APPROVED;
       DeploymentStatus.EXECUTING; DeploymentStatus.CANCELLED]
  | DeploymentStatus.AWAITING_APPROVAL =>
      [DeploymentStatus.APPROVED; DeploymentStatus.CANCELLED]
  | DeploymentStatus.APPROVED =>
      [DeploymentStatus.EXECUTING; DeploymentStatus.CANCELLED]
  | DeploymentStatus.EXECUTING =>
      [DeploymentStatus.VERIFYING; DeploymentStatus.FAILED;
       DeploymentStatus.ROLLING_BACK]
  | DeploymentStatus.VERIFYING =>
      [DeploymentStatus.COMPLETED; DeploymentStatus.FAILED;
       DeploymentStatus.ROLLING_BACK]
  | DeploymentStatus.COMPLETED => []
  | DeploymentStatus.FAILED =>
      [DeploymentStatus.ROLLING_BACK; DeploymentStatus.PENDING]
  | DeploymentStatus.ROLLING_BACK =>
      [DeploymentStatus.ROLLED_BACK; DeploymentStatus.FAILED]
  | DeploymentStatus.ROLLED_BACK => [DeploymentStatus.PENDING]
  | DeploymentStatus.CANCELLED => []
  end.

Module DeploymentIntent.
Record t : Type := mk {
  description : string;
  target_providers : list CloudProviderType.t;
  target_regions : list string;
  resources : list ResourceSpec.t;
  strategy : DeploymentStrategy.t;
  auto_approve : bool;
  rollback_on_failure : bool;
  environment : string;
  parameters : dict string
}.
End DeploymentIntent.

Module ExecutionStep.
Record t : Type := mk {
  step_id : string;
  name : string;
  description : string;
  provider : CloudProviderType.t;
  resource_spec : ResourceSpec.t;
  terraform_action : string;
  dependencies : list string;
  estimated_duration_seconds : Z;
  idempotency_key : string;
  retry_count : Z;
  max_retries : Z
}.
(** Pydantic models compare field by field. *)
#[global] Instance eq_dec : EqDecision t.
Proof. solve_decision. Defined.

(** [model_dump], replace ["dependencies"], [model_validate]. *)
Definition with_dependencies (deps : list string) (s : t) : t :=
  mk (step_id s) (name s) (description s) (provider s) (resource_spec s)
     (terraform_action s) deps (estimated_duration_seconds s)
     (idempotency_key s) (retry_count s) (max_retries s).
End ExecutionStep.

(** [list.remove(x)]: drops the first element equal to [x]; [None] stands
    for the [ValueError] raised when there is none. *)
Fixpoint list_remove {A : Type} `{EqDecision A} (x : A) (l : list A)
  : option (list A) :=
  match l with
  | [] => None
  | y :: l' =>
      if decide (y = x) then Some l'
      else match list_remove x l' with
           | Some r => Some (y :: r)
           | None => None
           end
  end.

Module ExecutionPlan.
Record t : Type := mk {
  plan_id : string;
  steps : list ExecutionStep.t;
  estimated_total_duration_seconds : Z;
  risk_assessment : string;
  reasoning : string;
  terraform_plan_output : string
}.

Definition step_count (p : t) : Z := Z.of_nat (length (steps p)).

Definition get_step (p : t) (sid : string) : option ExecutionStep.t :=
  List.find (fun s => bool_decide (ExecutionStep.step_id s = sid))
            (steps p).

(** [all(dep in completed for dep in step.dependencies)] *)
Definition ready (completed : gset string) (s : ExecutionStep.t) : bool :=
  forallb (fun dep => bool_decide (dep ∈ completed))
          (ExecutionStep.dependencies s).

(** The body of [for step in wave]: add the id, remove the step. *)
Fixpoint retire (wave : list ExecutionStep.t) (completed : gset string)
    (remaining : list ExecutionStep.t)
  : option (gset string * list ExecutionStep.t) :=
  match wave with
  | [] => Some (completed, remaining)
  | s :: wave' =>
      match list_remove s remaining with
      | Some remaining' =>
          retire wave' ({[ ExecutionStep.step_id s ]} ∪ completed)
                 remaining'
      | None => None
      end
  end.

(** The [while remaining] loop.  [fuel] bounds the number of
    iterations; [None] is returned when it is used up or when
    [list.remove] raises. *)
Fixpoint waves_loop (fuel : nat) (completed : gset string)
    (remaining : list ExecutionStep.t)
  : option (list (list ExecutionStep.t)) :=
  match remaining with
  | [] => Some []
  | first :: _ =>
      match fuel with
      | O => None
      | S fuel' =>
          let wave := filter (fun s => ready completed s = true) remaining in
          let wave := match wave with [] => [first] | _ => wave end in
          match retire wave completed remaining with
          | Some (completed', remaining') =>
              match waves_loop fuel' completed' remaining' with
              | Some waves => Some (wave :: waves)
              | None => None
              end
          | None => None
          end
      end
  end.

(** Every iteration retires at least one step, so [len(steps)]
    iterations are enough (see [get_execution_order_total]). *)
Definition get_execution_order (p : t)
  : option (list (list ExecutionStep.t)) :=
  waves_loop (length (steps p)) ∅ (steps p).
End ExecutionPlan.

Module StepResult.
Record t : Type := mk {
  step_id : string;
  success : bool;
  output : string;
  error_message : string;
  resource_ids : dict string;
  duration_seconds : float;
  idempotency_key : string;
  attempt_number : Z
}.
End StepResult.


Module Deployment.
(** The aggregate root: the fields of [DomainEntity], those of
    [Deployment] and the event buffer of [AggregateRoot]. *)
Record t : Type := mk {
  id : string;
  created_at : Z;
  updated_at : Z;
  version : Z;
  name : string;
  intent : DeploymentIntent.t;
  status : DeploymentStatus.t;
  plan : option ExecutionPlan.t;
  step_results : list StepResult.t;
  initiated_by : string;
  tenant_id : string;
  error_message : string;
  rollback_deployment_id : option string;
  _domain_events : list DomainEvent.t
}.

(** Field assignments. *)
Definition with_updated_at (x : Z) (d : t) : t :=
  mk (id d) (created_at d) x (version d) (name d) (intent d) (status d)
     (plan d) (step_results d) (initiated_by d) (tenant_id d)
     (error_message d) (rollback_deployment_id d) (_domain_events d).
Definition with_version (x : Z) (d : t) : t :=
  mk (id d) (created_at d) (updated_at d) x (name d) (intent d) (status d)
     (plan d) (step_results d) (initiated_by d) (tenant_id d)
     (error_message d) (rollback_deployment_id d) (_domain_events d).
Definition with_status (x : DeploymentStatus.t) (d : t) : t :=
  mk (id d) (created_at d) (updated_at d) (version d) (name d) (intent d) x
     (plan d) (step_results d) (initiated_by d) (tenant_id d)
     (error_message d) (rollback_deployment_id d) (_domain_events d).
Definition with_plan (x : option ExecutionPlan.t) (d : t) : t :=
  mk (id d) (created_at d) (updated_at d) (version d) (name d) (intent d)
     (status d) x (step_results d) (initiated_by d) (tenant_id d)
     (error_message d) (rollback_deployment_id d) (_domain_events d).
Definition with_step_results (x : list StepResult.t) (d : t) : t :=
  mk (id d) (created_at d) (updated_at d) (version d) (name d) (intent d)
     (status d) (plan d) x (initiated_by d) (tenant_id d)
     (error_message d) (rollback_deployment_id d) (_domain_events d).
Definition with_error_message (x : string) (d : t) : t :=
  mk (id d) (created_at d) (updated_at d) (version d) (name d) (intent d)
     (status d) (plan d) (step_results d) (initiated_by d) (tenant_id d)
     x (rollback_deployment_id d) (_domain_events d).
Definition with_domain_events (x : list DomainEvent.t) (d : t) : t :=
  mk (id d) (created_at d) (updated_at d) (version d) (name d) (intent d)
     (status d) (plan d) (step_results d) (initiated_by d) (tenant_id d)
     (error_message d) (rollback_deployment_id d) x.

(** A method runs on the object and the environment. *)
Definition self_ : Type := (World * t)%type.

Definition self : M self_ t := fun s => (Ok (snd s), s).
Definition assign (f : t -> t) : M self_ unit :=
  fun s => (Ok tt, (fst s, f (snd s))).

(** [DomainEntity.touch] *)
Definition touch : M self_ unit :=
  fun s =>
    let '(now, w') := utc_now_w (fst s) in
    let d := snd s in
    (Ok tt, (w', with_version (version d + 1) (with_updated_at now d))).

(** [AggregateRoot.add_event], the event being built by the caller with
    [correlation_id=self.id]. *)
Definition add_event (p : DomainEvent.payload) : M self_ unit :=
  fun s =>
    let d := snd s in
    let '(e, w') := DomainEvent.new p (id d) (fst s) in
    (Ok tt, (w', with_domain_events (_domain_events d ++ [e]) d)).

(** [AggregateRoot.collect_events] *)
Definition collect_events : M self_ (list DomainEvent.t) :=
  fun s => (Ok (_domain_events (snd s)),
            (fst s, with_domain_events [] (snd s))).

Definition pending_events (d : t) : list DomainEvent.t := _domain_events d.

Definition _transition_to (new_status : DeploymentStatus.t) : M self_ unit :=
  let* d := self in
  let valid := VALID_TRANSITIONS (status d) in
  if bool_decide (new_status ∈ valid)
  then assign (with_status new_status) ;;; touch
  else raise InvalidStateTransitionError.

Definition start_planning : M self_ unit :=
  _transition_to DeploymentStatus.PLANNING.

Definition approve (approved_by : string) : M self_ unit :=
  _transition_to DeploymentStatus.APPROVED ;;;
  let* d := self in
  add_event (DomainEvent.DeploymentApproved (id d) approved_by).

Definition set_plan (p : ExecutionPlan.t) : M self_ unit :=
  assign (with_plan (Some p)) ;;;
  _transition_to DeploymentStatus.PLANNED ;;;
  let* d := self in
  add_event (DomainEvent.DeploymentPlanGenerated
               (id d) (ExecutionPlan.plan_id p) (ExecutionPlan.step_count p)) ;;;
  let* d := self in
  if DeploymentIntent.auto_approve (intent d)
  then approve "auto"
  else _transition_to DeploymentStatus.AWAITING_APPROVAL.

Definition start_execution : M self_ unit :=
  _transition_to DeploymentStatus.EXECUTING ;;;
  let* d := self in
  add_event (DomainEvent.DeploymentStarted (id d)).

Definition fail (message : string) : M self_ unit :=
  assign (with_error_message message) ;;;
  _transition_to DeploymentStatus.FAILED ;;;
  let* d := self in
  add_event (DomainEvent.DeploymentFailed (id d) message).

Definition record_step_result (result : StepResult.t) : M self_ unit :=
  let* d := self in
  assign (with_step_results (step_results d ++ [result])) ;;;
  touch ;;;
  let* d := self in
  if negb (StepResult.success result)
     && DeploymentIntent.rollback_on_failure (intent d)
  then fail ("Step " ++ StepResult.step_id result ++ " failed: "
               ++ StepResult.error_message result)
  else ret tt.

Definition start_verification : M self_ unit :=
  _transition_to DeploymentStatus.VERIFYING.

Definition complete : M self_ unit :=
  _transition_to DeploymentStatus.COMPLETED ;;;
  let* d := self in
  add_event (DomainEvent.DeploymentCompleted (id d)).

Definition start_rollback : M self_ unit :=
  _transition_to DeploymentStatus.ROLLING_BACK ;;;
  let* d := self in
  add_event (DomainEvent.DeploymentRollbackStarted (id d)).

Definition complete_rollback : M self_ unit :=
  _transition_to DeploymentStatus.ROLLED_BACK ;;;
  let* d := self in
  add_event (DomainEvent.DeploymentRollbackCompleted (id d)).

Definition cancel : M self_ unit :=
  _transition_to DeploymentStatus.CANCELLED.

Definition is_terminal (d : t) : bool :=
  bool_decide (status d ∈ [DeploymentStatus.COMPLETED;
                           DeploymentStatus.CANCELLED;
                           DeploymentStatus.ROLLED_BACK]).

(** [len(l)] as an operand of [/] or [*]: the conversion of an [int] to
    binary64, exact below [2^53].  For two [int]s below [2^53] Python's
    true division is the binary64 division of their conversions. *)
Definition py_float (n : nat) : float :=
  PrimFloat.of_uint63 (Uint63.of_Z (Z.of_nat n)).

(** [progress_percentage], in binary64 as Python computes it.  The
    guard keeps the divisor away from zero, where Python raises. *)
Definition progress_percentage (d : t) : float :=
  match plan d with
  | None => 0%float
  | Some p =>
      match ExecutionPlan.steps p with
      | [] => 0%float
      | _ :: _ =>
          (py_float (length (step_results d))
           / py_float (length (ExecutionPlan.steps p))
           * 100)%float
      end
  end.

(** The lifecycle calls of the aggregate that attempt a status
    transition, with the status each one asks [_transition_to] for. *)
Inductive call : Type :=
  | StartPlanning
  | SetPlan (p : ExecutionPlan.t)
  | Approve (approved_by : string)
  | StartExecution
  | StartVerification
  | Complete
  | Fail (message : string)
  | StartRollback
  | CompleteRollback
  | Cancel.

Definition run (c : call) : M self_ unit :=
  match c with
  | StartPlanning => start_planning
  | SetPlan p => set_plan p
  | Approve by_ => approve by_
  | StartExecution => start_execution
  | StartVerification => start_verification
  | Complete => complete
  | Fail msg => fail msg
  | StartRollback => start_rollback
  | CompleteRollback => complete_rollback
  | Cancel => cancel
  end.

Definition target (c : call) : DeploymentStatus.t :=
  match c with
  | StartPlanning => DeploymentStatus.PLANNING
  | SetPlan _ => DeploymentStatus.PLANNED
  | Approve _ => DeploymentStatus.APPROVED
  | StartExecution => DeploymentStatus.EXECUTING
  | StartVerification => DeploymentStatus.VERIFYING
  | Complete => DeploymentStatus.COMPLETED
  | Fail _ => DeploymentStatus.FAILED
  | StartRollback => DeploymentStatus.ROLLING_BACK
  | CompleteRollback => DeploymentStatus.ROLLED_BACK
  | Cancel => DeploymentStatus.CANCELLED
  end.
End Deployment.

(** ** [task.py] *)

Module TaskStatus.
Inductive t : Type :=
  | PENDING | QUEUED | ACQUIRED | RUNNING | SUCCEEDED | FAILED | RETRYING
  | CANCELLED | TIMED_OUT.
Definition value (s : t) : string :=
  match s with
  | PENDING => "pending" | QUEUED => "queued" | ACQUIRED => "acquired"
  | RUNNING => "running" | SUCCEEDED => "succeeded" | FAILED => "failed"
  | RETRYING => "retrying" | CANCELLED => "cancelled"
  | TIMED_OUT => "timed_out"
  end.
#[global] Instance eq_dec : EqDecision t.
Proof. solve_decision. Defined.
End TaskStatus.

Definition TASK_VALID_TRANSITIONS (s : TaskStatus.t) : list TaskStatus.t :=
  match s with
  | TaskStatus.PENDING => [TaskStatus.QUEUED; TaskStatus.CANCELLED]
  | TaskStatus.QUEUED =>
      [TaskStatus.ACQUIRED; TaskStatus.CANCELLED; TaskStatus.TIMED_OUT]
  | TaskStatus.ACQUIRED => [TaskStatus.RUNNING; TaskStatus.CANCELLED]
  | TaskStatus.RUNNING =>
      [TaskStatus.SUCCEEDED; TaskStatus.FAILED; TaskStatus.TIMED_OUT]
  | TaskStatus.SUCCEEDED => []
  | TaskStatus.FAILED => [TaskStatus.RETRYING; TaskStatus.CANCELLED]
  | TaskStatus.RETRYING => [TaskStatus.QUEUED]
  | TaskStatus.CANCELLED => []
  | TaskStatus.TIMED_OUT =>
      [TaskStatus.RETRYING; TaskStatus.CANCELLED; TaskStatus.FAILED]
  end.

(** The values stored in [input_data] and [output_data]. *)
Inductive TaskValue : Type :=
  | Text (s : string)
  | Strings (l : list string)
  | ResourceDump (r : ResourceSpec.t).

Module Task.
Record t : Type := mk {
  id : string;
  created_at : Z;
  updated_at : Z;
  version : Z;
  deployment_id : string;
  step_id : string;
  name : string;
  description : string;
  status : TaskStatus.t;
  provider : CloudProviderType.t;
  terraform_action : string;
  worker_id : option string;
  idempotency_key : string;
  attempt_number : Z;
  max_attempts : Z;
  timeout_seconds : Z;
  input_data : dict TaskValue;
  output_data : dict TaskValue;
  error_message : string;
  started_at : option Z;
  completed_at : option Z
}.

Definition with_touch (now : Z) (x : t) : t :=
  mk (id x) (created_at x) now (version x + 1) (deployment_id x) (step_id x)
     (name x) (description x) (status x) (provider x) (terraform_action x)
     (worker_id x) (idempotency_key x) (attempt_number x) (max_attempts x)
     (timeout_seconds x) (input_data x) (output_data x) (error_message x)
     (started_at x) (completed_at x).
Definition with_status (s : TaskStatus.t) (x : t) : t :=
  mk (id x) (created_at x) (updated_at x) (version x) (deployment_id x)
     (step_id x) (name x) (description x) s (provider x) (terraform_action x)
     (worker_id x) (idempotency_key x) (attempt_number x) (max_attempts x)
     (timeout_seconds x) (input_data x) (output_data x) (error_message x)
     (started_at x) (completed_at x).
Definition with_worker_id (o : option string) (x : t) : t :=
  mk (id x) (created_at x) (updated_at x) (version x) (deployment_id x)
     (step_id x) (name x) (description x) (status x) (provider x)
     (terraform_action x) o (idempotency_key x) (attempt_number x)
     (max_attempts x) (timeout_seconds x) (input_data x) (output_data x)
     (error_message x) (started_at x) (completed_at x).
Definition with_attempt_number (n : Z) (x : t) : t :=
  mk (id x) (created_at x) (updated_at x) (version x) (deployment_id x)
     (step_id x) (name x) (description x) (status x) (provider x)
     (terraform_action x) (worker_id x) (idempotency_key x) n
     (max_attempts x) (timeout_seconds x) (input_data x) (output_data x)
     (error_message x) (started_at x) (completed_at x).
Definition with_output_data (o : dict TaskValue) (x : t) : t :=
  mk (id x) (created_at x) (updated_at x) (version x) (deployment_id x)
     (step_id x) (name x) (description x) (status x) (provider x)
     (terraform_action x) (worker_id x) (idempotency_key x)
     (attempt_number x) (max_attempts x) (timeout_seconds x) (input_data x)
     o (error_message x) (started_at x) (completed_at x).
Definition with_error_message (m : string) (x : t) : t :=
  mk (id x) (created_at x) (updated_at x) (version x) (deployment_id x)
     (step_id x) (name x) (description x) (status x) (provider x)
     (terraform_action x) (worker_id x) (idempotency_key x)
     (attempt_number x) (max_attempts x) (timeout_seconds x) (input_data x)
     (output_data x) m (started_at x) (completed_at x).
Definition with_started_at (o : option Z) (x : t) : t :=
  mk (id x) (created_at x) (updated_at x) (version x) (deployment_id x)
     (step_id x) (name x) (description x) (status x) (provider x)
     (terraform_action x) (worker_id x) (idempotency_key x)
     (attempt_number x) (max_attempts x) (timeout_seconds x) (input_data x)
     (output_data x) (error_message x) o (completed_at x).
Definition with_completed_at (o : option Z) (x : t) : t :=
  mk (id x) (created_at x) (updated_at x) (version x) (deployment_id x)
     (step_id x) (name x) (description x) (status x) (provider x)
     (terraform_action x) (worker_id x) (idempotency_key x)
     (attempt_number x) (max_attempts x) (timeout_seconds x) (input_data x)
     (output_data x) (error_message x) (started_at x) o.

Definition self_ : Type := (World * t)%type.

Definition self : M self_ t := fun s => (Ok (snd s), s).
Definition assign (f : t -> t) : M self_ unit :=
  fun s => (Ok tt, (fst s, f (snd s))).

Definition touch : M self_ unit :=
  fun s =>
    let '(now, w') := utc_now_w (fst s) in
    (Ok tt, (w', with_touch now (snd s))).

(** [utc_now().isoformat()], kept as the clock reading. *)
Definition stamp (f : option Z -> t -> t) : M self_ unit :=
  fun s =>
    let '(now, w') := utc_now_w (fst s) in
    (Ok tt, (w', f (Some now) (snd s))).

Definition _transition_to (new_status : TaskStatus.t) : M self_ unit :=
  let* x := self in
  let valid := TASK_VALID_TRANSITIONS (status x) in
  if bool_decide (new_status ∈ valid)
  then assign (with_status new_status) ;;; touch
  else raise InvalidTaskTransitionError.

Definition enqueue : M self_ unit := _transition_to TaskStatus.QUEUED.

Definition acquire (worker : string) : M self_ unit :=
  _transition_to TaskStatus.ACQUIRED ;;;
  assign (with_worker_id (Some worker)).

Definition start : M self_ unit :=
  _transition_to TaskStatus.RUNNING ;;;
  stamp with_started_at.

(** [if output:] holds for a dict that is present and not empty. *)
Definition succeed (output : option (dict TaskValue)) : M self_ unit :=
  match output with
  | Some ((_ :: _) as o) => assign (with_output_data o)
  | _ => ret tt
  end ;;;
  _transition_to TaskStatus.SUCCEEDED ;;;
  stamp with_completed_at.

Definition fail (message : string) : M self_ unit :=
  assign (with_error_message message) ;;;
  _transition_to TaskStatus.FAILED ;;;
  stamp with_completed_at.

Definition retry : M self_ unit :=
  let* x := self in
  if bool_decide (attempt_number x >= max_attempts x)
  then raise MaxRetriesExceededError
  else
    _transition_to TaskStatus.RETRYING ;;;
    let* x := self in
    assign (with_attempt_number (attempt_number x + 1)) ;;;
    assign (with_worker_id None) ;;;
    assign (with_error_message "") ;;;
    _transition_to TaskStatus.QUEUED.

Definition timeout : M self_ unit :=
  _transition_to TaskStatus.TIMED_OUT ;;;
  stamp with_completed_at.

Definition cancel : M self_ unit :=
  _transition_to TaskStatus.CANCELLED ;;;
  stamp with_completed_at.

Definition is_terminal (x : t) : bool :=
  bool_decide (status x ∈ [TaskStatus.SUCCEEDED; TaskStatus.CANCELLED]).

Definition can_retry (x : t) : bool :=
  bool_decide (status x ∈ [TaskStatus.FAILED; TaskStatus.TIMED_OUT])
  && bool_decide (attempt_number x < max_attempts x).

(** The operations of a task. *)
Inductive call : Type :=
  | Enqueue
  | Acquire (worker : string)
  | Start
  | Succeed (output : option (dict TaskValue))
  | Fail (message : string)
  | Retry
  | Timeout
  | Cancel.

Definition run (c : call) : M self_ unit :=
  match c with
  | Enqueue => enqueue
  | Acquire wk => acquire wk
  | Start => start
  | Succeed o => succeed o
  | Fail m => fail m
  | Retry => retry
  | Timeout => timeout
  | Cancel => cancel
  end.

(** [Task(...)] as [execute_deployment] calls it: [id], [created_at] and
    [updated_at] come from their default factories, in field order; the
    fields not passed take their defaults. *)
Definition new (deployment_id step_id name description : string)
    (provider : CloudProviderType.t) (terraform_action idempotency_key : string)
    (timeout_seconds : Z) (input_data : dict TaskValue) (w : World)
  : t * World :=
  let '(i, w1) := generate_id_w w in
  let '(c, w2) := utc_now_w w1 in
  let '(u, w3) := utc_now_w w2 in
  (mk i c u 1 deployment_id step_id name description TaskStatus.PENDING
      provider terraform_action None idempotency_key 1 3 timeout_seconds
      input_data [] "" None None, w3).
End Task.

(** ** [drift.py] *)

Module DriftSeverity.
Inductive t : Type := LOW | MEDIUM | HIGH | CRITICAL.
Definition value (s : t) : string :=
  match s with
  | LOW => "low" | MEDIUM => "medium" | HIGH => "high"
  | CRITICAL => "critical"
  end.
#[global] Instance eq_dec : EqDecision t.
Proof. solve_decision. Defined.
End DriftSeverity.

Module DriftType.
Inductive t : Type :=
  | PROPERTY_CHANGED | RESOURCE_ADDED | RESOURCE_REMOVED | STATE_MISMATCH
  | TAG_MISMATCH.
End DriftType.

Module DriftItem.
Record t : Type := mk {
  drift_type : DriftType.t;
  resource_identifier : string;
  property_path : string;
  expected_value : string;
  actual_value : string;
  severity : DriftSeverity.t
}.
End DriftItem.

Module DriftReport.
Record t : Type := mk {
  id : string;
  created_at : Z;
  updated_at : Z;
  version : Z;
  deployment_id : string;
  scan_type : string;
  items : list DriftItem.t;
  summary : string;
  auto_remediate : bool;
  remediation_deployment_id : option string
}.

Definition has_drift (r : t) : bool :=
  bool_decide (0 < length (items r))%nat.

Definition count_severity (s : DriftSeverity.t) (r : t) : Z :=
  Z.of_nat (length (filter (fun i => DriftItem.severity i = s) (items r))).
Definition critical_count : t -> Z := count_severity DriftSeverity.CRITICAL.
Definition high_count : t -> Z := count_severity DriftSeverity.HIGH.

Definition max_severity (r : t) : DriftSeverity.t :=
  match items r with
  | [] => DriftSeverity.LOW
  | _ :: _ =>
      let severity_order :=
        [DriftSeverity.CRITICAL; DriftSeverity.HIGH; DriftSeverity.MEDIUM;
         DriftSeverity.LOW] in
      match List.find
              (fun s => existsb (fun i => bool_decide (DriftItem.severity i = s))
                                (items r))
              severity_order with
      | Some s => s
      | None => DriftSeverity.LOW
      end
  end.
End DriftReport.

(** ** The in-memory repositories and the event publisher *)

(** What [EventPublisher.publish] is given as payload: the dump of a
    domain event, or one of the two dictionaries the services build. *)
Inductive Payload : Type :=
  | EventDump (e : DomainEvent.t)
  | CreatedPayload (deployment_id tenant_id : string)
  | DriftDetectedPayload (deployment_id : string) (drift_count : Z)
                         (max_severity : string).

(** The module-level stores of [in_memory.py], the list of
    [InMemoryEventPublisher] (no handler subscribed) and the
    environment.  The task store keeps the insertion order of the Python
    dict, which [acquire_next] observes. *)
Record State : Type := mkState {
  world : World;
  _deployment_store : gmap string Deployment.t;
  _task_store : dict Task.t;
  _drift_store : gmap string DriftReport.t;
  _events : list (string * Payload)
}.

Definition with_world (w : World) (st : State) : State :=
  mkState w (_deployment_store st) (_task_store st) (_drift_store st)
          (_events st).
Definition with_deployment_store (m : gmap string Deployment.t) (st : State)
  : State :=
  mkState (world st) m (_task_store st) (_drift_store st) (_events st).
Definition with_task_store (m : dict Task.t) (st : State) : State :=
  mkState (world st) (_deployment_store st) m (_drift_store st) (_events st).
Definition with_drift_store (m : gmap string DriftReport.t) (st : State)
  : State :=
  mkState (world st) (_deployment_store st) (_task_store st) m (_events st).
Definition with_events (l : list (string * Payload)) (st : State) : State :=
  mkState (world st) (_deployment_store st) (_task_store st) (_drift_store st)
          l.

(** A constructor call inside a service. *)
Definition in_world {A : Type} (f : World -> A * World) : M State A :=
  fun st => let '(a, w') := f (world st) in (Ok a, with_world w' st).

(** [sorted(l, key=...)]: stable, ascending. *)
Fixpoint insert_sorted {A : Type} (key : A -> Z) (x : A) (l : list A)
  : list A :=
  match l with
  | [] => [x]
  | y :: l' =>
      if bool_decide (key x <= key y) then x :: y :: l'
      else y :: insert_sorted key x l'
  end.

Definition sorted {A : Type} (key : A -> Z) (l : list A) : list A :=
  foldr (insert_sorted key) [] l.

Module InMemoryDeploymentRepository.
Definition save (d : Deployment.t) : M State Deployment.t :=
  modify (fun st =>
            with_deployment_store
              (<[Deployment.id d := d]> (_deployment_store st)) st) ;;;
  ret d.

Definition get_by_id (deployment_id : string)
  : M State (option Deployment.t) :=
  let* st := get in ret (_deployment_store st !! deployment_id).

Definition update (d : Deployment.t) : M State Deployment.t := save d.

(** A method called on a deployment that [get_by_id] returned.  The
    store holds the very object, filed under its own id (every write is
    [_store[deployment.id] = deployment]), so the mutation shows in the
    store at once, also when the method raises. *)
Definition call {A : Type} (d : Deployment.t) (m : M Deployment.self_ A)
  : M State (A * Deployment.t) :=
  fun st =>
    let '(r, (w', d')) := m (world st, d) in
    let st' := with_deployment_store
                 (<[Deployment.id d' := d']> (_deployment_store st))
                 (with_world w' st) in
    match r with
    | Ok a => (Ok (a, d'), st')
    | Raise e => (Raise e, st')
    end.
End InMemoryDeploymentRepository.

Module InMemoryTaskRepository.
Definition save (x : Task.t) : M State Task.t :=
  modify (fun st =>
            with_task_store (dict_set (Task.id x) x (_task_store st)) st) ;;;
  ret x.

Definition get_by_id (task_id : string) : M State (option Task.t) :=
  let* st := get in ret (dict_get task_id (_task_store st)).

Definition list_by_deployment (deployment_id : string)
  : M State (list Task.t) :=
  let* st := get in
  ret (filter (fun x => Task.deployment_id x = deployment_id)
              (dict_values (_task_store st))).

Definition update (x : Task.t) : M State Task.t := save x.

(** A method called on a task object that the store holds (see
    [InMemoryDeploymentRepository.call]). *)
Definition call {A : Type} (x : Task.t) (m : M Task.self_ A)
  : M State (A * Task.t) :=
  fun st =>
    let '(r, (w', x')) := m (world st, x) in
    let st' := with_task_store (dict_set (Task.id x') x' (_task_store st))
                               (with_world w' st) in
    match r with
    | Ok a => (Ok (a, x'), st')
    | Raise e => (Raise e, st')
    end.

(** The scan has no suspension point ([await]) between reading the
    status and acquiring the task. *)
Definition acquire_next (worker_id : string) : M State (option Task.t) :=
  let* st := get in
  match List.find (fun x => bool_decide (Task.status x = TaskStatus.QUEUED))
                  (sorted Task.created_at (dict_values (_task_store st))) with
  | Some task =>
      let* r := call task (Task.acquire worker_id) in
      let* task := save (snd r) in
      ret (Some task)
  | None => ret None
  end.

Definition list_by_worker (worker_id : string) : M State (list Task.t) :=
  let* st := get in
  ret (filter (fun x => Task.worker_id x = Some worker_id)
              (dict_values (_task_store st))).
End InMemoryTaskRepository.

Module InMemoryDriftReportRepository.
Definition save (r : DriftReport.t) : M State DriftReport.t :=
  modify (fun st =>
            with_drift_store (<[DriftReport.id r := r]> (_drift_store st)) st) ;;;
  ret r.
End InMemoryDriftReportRepository.

Module InMemoryEventPublisher.
Definition publish (event_type : string) (payload : Payload) : M State unit :=
  modify (fun st => with_events (_events st ++ [(event_type, payload)]) st).
End InMemoryEventPublisher.

(** A [for] loop whose body may raise. *)
Fixpoint for_each {S A B : Type} (body : A -> M S B) (l : list A)
  : M S (list B) :=
  match l with
  | [] => ret []
  | a :: l' =>
      let* b := body a in
      let* bs := for_each body l' in
      ret (b :: bs)
  end.

(** ** [deployment_service.py] *)

Module DeploymentDomainService.
Import InMemoryDeploymentRepository.

(** [_publish_events]: collect (which empties the buffer of the stored
    object) and publish each event with its dump. *)
Definition _publish_events (d : Deployment.t) : M State Deployment.t :=
  let* r := call d Deployment.collect_events in
  for_each (fun e => InMemoryEventPublisher.publish
                       (DomainEvent.event_type e) (EventDump e))
           (fst r) ;;;
  ret (snd r).

(** The body of the loop of [execute_deployment]. *)
Definition materialize (deployment_id : string) (step : ExecutionStep.t)
  : M State Task.t :=
  let* task :=
    in_world (Task.new deployment_id (ExecutionStep.step_id step)
                (ExecutionStep.name step) (ExecutionStep.description step)
                (ExecutionStep.provider step)
                (ExecutionStep.terraform_action step)
                (ExecutionStep.idempotency_key step)
                (ExecutionStep.estimated_duration_seconds step * 2)
                [("resource_spec",
                  ResourceDump (ExecutionStep.resource_spec step));
                 ("dependencies",
                  Strings (ExecutionStep.dependencies step))]) in
  (* the task is not in the store yet: [enqueue] runs on the local object *)
  let* task := (fun st =>
                  match Task.enqueue (world st, task) with
                  | (Ok _, (w', x)) => (Ok x, with_world w' st)
                  | (Raise e, (w', _)) => (Raise e, with_world w' st)
                  end) in
  InMemoryTaskRepository.save task.

Definition execute_deployment (deployment_id : string)
  : M State (list Task.t) :=
  let* found := get_by_id deployment_id in
  match found with
  | None => raise DeploymentNotFoundError
  | Some deployment =>
      match Deployment.plan deployment with
      | None => raise DeploymentPlanMissingError
      | Some plan =>
          let* r := call deployment Deployment.start_execution in
          let* deployment := update (snd r) in
          let* tasks :=
            for_each (materialize deployment_id) (ExecutionPlan.steps plan) in
          _publish_events deployment ;;;
          ret tasks
      end
  end.

Definition approve_deployment (deployment_id approved_by : string)
  : M State Deployment.t :=
  let* found := get_by_id deployment_id in
  match found with
  | None => raise DeploymentNotFoundError
  | Some deployment =>
      let* r := call deployment (Deployment.approve approved_by) in
      let* deployment := update (snd r) in
      _publish_events deployment
  end.

Definition rollback_deployment (deployment_id : string)
  : M State Deployment.t :=
  let* found := get_by_id deployment_id in
  match found with
  | None => raise DeploymentNotFoundError
  | Some deployment =>
      let* r := call deployment Deployment.start_rollback in
      let* deployment := update (snd r) in
      _publish_events deployment
  end.

Section Completion.
(** Python's [str] on the output dictionary. *)
Variable py_str : dict TaskValue -> string.

Definition handle_task_completion (task_id : string) (success : bool)
    (output : option (dict TaskValue)) (error : string) : M State unit :=
  let* found := InMemoryTaskRepository.get_by_id task_id in
  match found with
  | None => ret tt
  | Some task =>
      let* r := InMemoryTaskRepository.call task
                  (if success then Task.succeed output else Task.fail error) in
      let* task := InMemoryTaskRepository.update (snd r) in
      let* found := get_by_id (Task.deployment_id task) in
      match found with
      | None => ret tt
      | Some deployment =>
          let step_result :=
            StepResult.mk (Task.step_id task) success
              match output with
              | Some ((_ :: _) as o) => py_str o
              | _ => ""
              end
              error [] 0%float (Task.idempotency_key task)
              (Task.attempt_number task) in
          let* r := call deployment
                      (Deployment.record_step_result step_result) in
          let deployment := snd r in
          let* all_tasks :=
            InMemoryTaskRepository.list_by_deployment
              (Task.deployment_id task) in
          let all_complete :=
            forallb (fun x => Task.is_terminal x
                              || bool_decide (Task.status x
                                              = TaskStatus.SUCCEEDED))
                    all_tasks in
          let any_failed :=
            existsb (fun x => bool_decide (Task.status x = TaskStatus.FAILED))
                    all_tasks in
          let* deployment :=
            if all_complete && negb any_failed
            then let* r := call deployment Deployment.start_verification in
                 ret (snd r)
            else if any_failed
                    && DeploymentIntent.rollback_on_failure
                         (Deployment.intent deployment)
            then let* r := call deployment Deployment.start_rollback in
                 ret (snd r)
            else ret deployment in
          let* deployment := update deployment in
          _publish_events deployment ;;;
          ret tt
      end
  end.
End Completion.
End DeploymentDomainService.

(** ** [drift_service.py] *)

Module DriftDomainService.
Section Detector.
(** The drift-detector port: any function of the deployment id and the
    expected state that may read the clock and draw identifiers, and may
    raise. *)
Variable detect_drift :
  string -> dict ResourceSpec.t -> World -> Res DriftReport.t * World.

(** Keyed by resource identifier, a later step replacing an earlier one
    with the same identifier. *)
Definition _build_expected_state (deployment : Deployment.t)
  : dict ResourceSpec.t :=
  match Deployment.plan deployment with
  | Some plan =>
      foldl (fun state step =>
               let spec := ExecutionStep.resource_spec step in
               dict_set (ResourceSpec.resource_identifier spec) spec state)
            [] (ExecutionPlan.steps plan)
  | None => []
  end.

Definition scan_deployment (deployment_id : string) : M State DriftReport.t :=
  let* found := InMemoryDeploymentRepository.get_by_id deployment_id in
  match found with
  | None => raise DriftScanError
  | Some deployment =>
      let expected_state := _build_expected_state deployment in
      let* report :=
        (fun st =>
           let '(r, w') := detect_drift deployment_id expected_state
                                        (world st) in
           (r, with_world w' st)) in
      let* report := InMemoryDriftReportRepository.save report in
      (if DriftReport.has_drift report
       then InMemoryEventPublisher.publish "drift.detected"
              (DriftDetectedPayload deployment_id
                 (Z.of_nat (length (DriftReport.items report)))
                 (DriftSeverity.value (DriftReport.max_severity report)))
       else ret tt) ;;;
      ret report
  end.
End Detector.
End DriftDomainService.

(** ** [planning_engine.py] *)

Module RuleBasedPlanningEngine.
(** Every resource type is a key of the dict, so the default 99 of
    [.get] is never used. *)
Definition RESOURCE_PRIORITY (r : ResourceType.t) : Z :=
  match r with
  | ResourceType.NETWORK => 1 | ResourceType.DNS => 2
  | ResourceType.STORAGE => 3 | ResourceType.DATABASE => 4
  | ResourceType.CACHE => 5 | ResourceType.QUEUE => 6
  | ResourceType.COMPUTE => 7 | ResourceType.CONTAINER => 8
  | ResourceType.SERVERLESS => 9 | ResourceType.LOAD_BALANCER => 10
  | ResourceType.CDN => 11
  end.

Definition _estimate_step_duration (resource : ResourceSpec.t) : Z :=
  match ResourceSpec.resource_type resource with
  | ResourceType.NETWORK => 30 | ResourceType.COMPUTE => 60
  | ResourceType.DATABASE => 120 | ResourceType.CONTAINER => 90
  | ResourceType.STORAGE => 15 | ResourceType.SERVERLESS => 30
  | ResourceType.LOAD_BALANCER => 45 | ResourceType.CACHE => 60
  | _ => 60
  end.

(** [ExecutionStep(...)] with the action ["create"]: [step_id] and
    [idempotency_key] come from their default factories, in field
    order; [retry_count] and [max_retries] take their defaults. *)
Definition new_step (name description : string) (spec : ResourceSpec.t)
    (duration : Z) (deps : list string) (w : World)
  : ExecutionStep.t * World :=
  let '(sid, w1) := generate_id_w w in
  let '(key, w2) := generate_id_w w1 in
  (ExecutionStep.mk sid name description (ResourceSpec.provider spec) spec
                    "create" deps duration key 0 3, w2).

Definition step_for (resource : ResourceSpec.t) (w : World)
  : ExecutionStep.t * World :=
  new_step ("deploy-" ++ ResourceSpec.name resource)
           ("Deploy " ++ ResourceType.value (ResourceSpec.resource_type resource)
              ++ " resource '" ++ ResourceSpec.name resource ++ "' on "
              ++ CloudProviderType.value (ResourceSpec.provider resource))
           resource (_estimate_step_duration resource) [] w.

(** A list comprehension whose element expression draws identifiers. *)
Fixpoint comprehension {A B : Type} (f : A -> World -> B * World)
    (l : list A) (w : World) : list B * World :=
  match l with
  | [] => ([], w)
  | a :: l' =>
      let '(b, w1) := f a w in
      let '(bs, w2) := comprehension f l' w1 in
      (b :: bs, w2)
  end.

Definition _create_steps_from_resources (intent : DeploymentIntent.t)
    (w : World) : list ExecutionStep.t * World :=
  let sorted_resources :=
    sorted (fun r => RESOURCE_PRIORITY (ResourceSpec.resource_type r))
           (DeploymentIntent.resources intent) in
  comprehension step_for sorted_resources w.

(** The two steps [_create_default_steps] appends for one provider. *)
Definition default_steps_for (intent : DeploymentIntent.t)
    (provider : CloudProviderType.t) (w : World)
  : list ExecutionStep.t * World :=
  let environment := DeploymentIntent.environment intent in
  let region := match DeploymentIntent.target_regions intent with
                | r :: _ => r
                | [] => "us-east-1"
                end in
  let network_spec :=
    ResourceSpec.mk ResourceType.NETWORK provider region
                    (environment ++ "-vpc")
                    [("cidr_block", "10.0.0.0/16")]
                    [("environment", environment)] [] in
  let '(network_step, w1) :=
    new_step ("create-network-" ++ CloudProviderType.value provider)
             ("Create VPC/VNet on " ++ CloudProviderType.value provider)
             network_spec 30 [] w in
  let compute_spec :=
    ResourceSpec.mk ResourceType.COMPUTE provider region
                    (environment ++ "-app")
                    [("instance_type", "t3.medium")]
                    [("environment", environment)]
                    [ResourceSpec.resource_identifier network_spec] in
  let '(compute_step, w2) :=
    new_step ("create-compute-" ++ CloudProviderType.value provider)
             ("Create compute instance on "
                ++ CloudProviderType.value provider)
             compute_spec 60 [ExecutionStep.step_id network_step] w1 in
  ([network_step; compute_step], w2).

Definition _create_default_steps (intent : DeploymentIntent.t) (w : World)
  : list ExecutionStep.t * World :=
  let '(pairs, w') :=
    comprehension (default_steps_for intent)
                  (DeploymentIntent.target_providers intent) w in
  (concat pairs, w').

(** The first loop of [_resolve_dependencies]: a later step with the
    same resource identifier replaces the earlier one. *)
Definition resource_to_step (steps : list ExecutionStep.t)
  : gmap string string :=
  foldl (fun m step =>
           <[ResourceSpec.resource_identifier
               (ExecutionStep.resource_spec step)
             := ExecutionStep.step_id step]> m)
        ∅ steps.

(** The inner loop: [new_deps] and the [changed] flag. *)
Definition resolve_step (m : gmap string string) (step : ExecutionStep.t)
  : list string * bool :=
  foldl (fun acc dep_resource =>
           match m !! dep_resource with
           | Some dep_step_id =>
               if negb (bool_decide (dep_step_id = ""))
                  && negb (bool_decide (dep_step_id ∈ fst acc))
               then (fst acc ++ [dep_step_id], true)
               else acc
           | None => acc
           end)
        (ExecutionStep.dependencies step, false)
        (ResourceSpec.dependencies (ExecutionStep.resource_spec step)).

(** The list is updated in place; the result is the list afterwards. *)
Definition _resolve_dependencies (steps : list ExecutionStep.t)
  : list ExecutionStep.t :=
  let m := resource_to_step steps in
  map (fun step =>
         let '(new_deps, changed) := resolve_step m step in
         if changed then ExecutionStep.with_dependencies new_deps step
         else step)
      steps.

Definition _assess_risk (intent : DeploymentIntent.t)
    (steps : list ExecutionStep.t) : string :=
  if bool_decide (DeploymentIntent.environment intent = "production")
  then "high"
  else if bool_decide
            (1 < length (DeploymentIntent.target_providers intent))%nat
  then "medium"
  else if bool_decide (10 < length steps)%nat then "medium"
  else "low".

(** [", ".join(...)] *)
Fixpoint join (sep : string) (l : list string) : string :=
  match l with
  | [] => ""
  | [s] => s
  | s :: l' => s ++ sep ++ join sep l'
  end.

Definition _generate_reasoning (intent : DeploymentIntent.t)
    (steps : list ExecutionStep.t) : string :=
  let providers :=
    join ", " (map CloudProviderType.value
                   (DeploymentIntent.target_providers intent)) in
  "Generated " ++ pretty (length steps)
    ++ " execution steps for deployment to " ++ providers ++ " using "
    ++ DeploymentStrategy.value (DeploymentIntent.strategy intent)
    ++ " strategy in " ++ DeploymentIntent.environment intent
    ++ " environment. Risk assessment: " ++ _assess_risk intent steps ++ ".".

Definition generate_plan (intent : DeploymentIntent.t) (w : World)
  : ExecutionPlan.t * World :=
  let '(steps, w1) := _create_steps_from_resources intent w in
  let '(steps, w2) :=
    match steps with
    | [] => _create_default_steps intent w1
    | _ :: _ => (steps, w1)
    end in
  let steps := _resolve_dependencies steps in
  let estimated_duration :=
    foldl Z.add 0 (map ExecutionStep.estimated_duration_seconds steps) in
  let risk := _assess_risk intent steps in
  let reasoning := _generate_reasoning intent steps in
  let '(plan_id, w3) := generate_id_w w2 in
  (ExecutionPlan.mk plan_id steps estimated_duration risk reasoning "", w3).
End RuleBasedPlanningEngine.

(** ** Concurrent callers of [acquire_next] *)

(** The services run as coroutines of one event loop: a coroutine keeps
    the processor until its next [await].  The body of
    [InMemoryTaskRepository.acquire_next] has none, so a call is one step
    of the interleaving, and the scheduler only chooses which waiting
    caller runs next. *)
Module Scheduler.
Inductive caller : Type :=
  | Waiting (worker_id : string)
  | Returned (worker_id : string) (result : Res (option Task.t)).

Definition config : Type := (State * list caller)%type.

Inductive step : config -> config -> Prop :=
  | step_run (st : State) (callers : list caller) (i : nat)
             (worker_id : string) :
      callers !! i = Some (Waiting worker_id) ->
      step (st, callers)
           (snd (InMemoryTaskRepository.acquire_next worker_id st),
            <[i := Returned worker_id
                     (fst (InMemoryTaskRepository.acquire_next worker_id st))]>
              callers).

Definition has_returned (c : caller) : Prop :=
  match c with Waiting _ => False | Returned _ _ => True end.

Definition finished (c : config) : Prop := Forall has_returned (snd c).
End Scheduler.

(** ** Predicates used in the statements *)

(** What [execute_deployment] promises of the task made for a step. *)
Definition task_of_step (deployment_id : string) (step : ExecutionStep.t)
    (x : Task.t) : Prop :=
  Task.status x = TaskStatus.QUEUED
  /\ Task.timeout_seconds x = 2 * ExecutionStep.estimated_duration_seconds step
  /\ Task.idempotency_key x = ExecutionStep.idempotency_key step
  /\ Task.step_id x = ExecutionStep.step_id step
  /\ Task.deployment_id x = deployment_id.

(** Step [s] is in wave number [i]. *)
Definition wave_of (waves : list (list ExecutionStep.t))
    (s : ExecutionStep.t) (i : nat) : Prop :=
  exists wave : list ExecutionStep.t, waves !! i = Some wave /\ s ∈ wave.

(** The step id [d] belongs to a step of a wave before wave [i]. *)
Definition settled_before (waves : list (list ExecutionStep.t)) (i : nat)
    (d : string) : Prop :=
  exists (j : nat) (s' : ExecutionStep.t),
    (j < i)%nat /\ wave_of waves s' j /\ ExecutionStep.step_id s' = d.

(** The waves hold the steps, each step in exactly one wave. *)
Definition partitions (waves : list (list ExecutionStep.t))
    (steps : list ExecutionStep.t) : Prop :=
  concat waves ≡ₚ steps
  /\ forall s : ExecutionStep.t,
       s ∈ steps ->
       exists i : nat,
         wave_of waves s i /\ forall j : nat, wave_of waves s j -> j = i.

(** The step dependencies of a plan are acyclic: some ranking of the
    step ids puts every dependency below the step that names it. *)
Definition acyclic (steps : list ExecutionStep.t) : Prop :=
  exists rank : string -> nat,
    forall (s : ExecutionStep.t) (d : string),
      s ∈ steps -> d ∈ ExecutionStep.dependencies s ->
      (rank d < rank (ExecutionStep.step_id s))%nat.

(** What the loop relies on to find a step that is ready: a dependency
    not yet completed belongs to a remaining step of lower rank. *)
Definition pending_below (rank : string -> nat) (completed : gset string)
    (remaining : list ExecutionStep.t) : Prop :=
  forall (s : ExecutionStep.t) (d : string),
    s ∈ remaining -> d ∈ ExecutionStep.dependencies s ->
    d ∈ completed
    \/ ((exists s' : ExecutionStep.t,
           s' ∈ remaining /\ ExecutionStep.step_id s' = d)
        /\ (rank d < rank (ExecutionStep.step_id s))%nat).

(** The steps made between two states of the identifier source carry
    identifiers drawn in between, each position once. *)
Definition fresh_ids (w w' : World) (steps : list ExecutionStep.t) : Prop :=
  uuid w' = uuid w
  /\ (fresh w <= fresh w')%nat
  /\ exists js : list nat,
       map ExecutionStep.step_id steps = map (uuid w) js
       /\ NoDup js
       /\ Forall (fun j => (fresh w <= j < fresh w')%nat) js.

(** Every dependency names a step of the list. *)
Definition deps_closed (steps : list ExecutionStep.t) : Prop :=
  forall (s : ExecutionStep.t) (d : string),
    s ∈ steps -> d ∈ ExecutionStep.dependencies s ->
    d ∈ map ExecutionStep.step_id steps.

(** [uuid4] does not repeat itself. *)
Definition unique_ids (w : World) : Prop :=
  forall i j : nat, uuid w i = uuid w j -> i = j.

(** The tasks the system can hold: made by the constructor as
    [execute_deployment] calls it, then taken through any operations. *)
Inductive task_reachable : Task.t -> Prop :=
  | reach_new (deployment_id step_id name description : string)
              (provider : CloudProviderType.t)
              (terraform_action idempotency_key : string)
              (timeout_seconds : Z) (input_data : dict TaskValue)
              (w : World) :
      task_reachable
        (fst (Task.new deployment_id step_id name description provider
                terraform_action idempotency_key timeout_seconds
                input_data w))
  | reach_call (x : Task.t) (c : Task.call) (w : World) :
      task_reachable x ->
      task_reachable (snd (snd (Task.run c (w, x)))).

(** The task store as the repository writes it: every task is filed
    under its own id, once. *)
Definition store_ok (store : dict Task.t) : Prop :=
  NoDup (map fst store)
  /\ Forall (fun kv => fst kv = Task.id (snd kv)) store.

Definition queued_tasks (st : State) : list Task.t :=
  filter (fun x => Task.status x = TaskStatus.QUEUED)
         (dict_values (_task_store st)).

(** The two outcomes of rounding to nearest at 53 digits: the mantissa
    [m1] cut at exponent [e1] or its successor, renormalised when the
    successor needs one digit more. *)
Definition rounds_to (m1 e1 : Z) (f : spec_float) : Prop :=
  exists mF : positive,
    (f = S754_finite false mF e1
     /\ (Zpos mF = m1 \/ Zpos mF = m1 + 1) /\ Zpos mF < 2 ^ 53)
    \/ (f = S754_finite false mF (e1 + 1)
        /\ Zpos mF = 2 ^ 52 /\ m1 + 1 = 2 ^ 53).

(** ** Sample data for the concrete instances *)

Module Sample.
Definition world : World :=
  mkWorld (fun n => 1000 + Z.of_nat n)
          (fun n => String.append "id-" (pretty n)) 0 0.

Definition web : ResourceSpec.t :=
  ResourceSpec.mk ResourceType.COMPUTE CloudProviderType.AWS "us-east-1"
                  "web" [] [] [].

Definition intent (auto : bool) : DeploymentIntent.t :=
  DeploymentIntent.mk "one web server" [CloudProviderType.AWS] ["us-east-1"]
                      [web] DeploymentStrategy.ROLLING auto true "staging" [].

Definition step : ExecutionStep.t :=
  ExecutionStep.mk "step-1" "deploy-web"
    "Deploy compute resource 'web' on aws" CloudProviderType.AWS web
    "create" [] 60 "key-1" 0 3.

Definition plan : ExecutionPlan.t :=
  ExecutionPlan.mk "plan-1" [step] 60 "low" "" "".

Definition deployment (auto : bool) (s : DeploymentStatus.t)
    (p : option ExecutionPlan.t) : Deployment.t :=
  Deployment.mk "dep-1" 10 10 1 "deploy-staging-aws" (intent auto) s p []
                "alice" "tenant-1" "" None [].

Definition result (ok : bool) : StepResult.t :=
  StepResult.mk "step-1" ok "" "exit status 1" [] 0%float "key-1" 1.

(** A network and a server in it. *)
Definition vpc (deps : list string) : ResourceSpec.t :=
  ResourceSpec.mk ResourceType.NETWORK CloudProviderType.AWS "us-east-1"
                  "vpc" [] [] deps.
Definition app : ResourceSpec.t :=
  ResourceSpec.mk ResourceType.COMPUTE CloudProviderType.AWS "us-east-1"
                  "app" [] [] ["aws/us-east-1/network/vpc"].

Definition intent_of (resources : list ResourceSpec.t) : DeploymentIntent.t :=
  DeploymentIntent.mk "network and server" [CloudProviderType.AWS]
                      ["us-east-1"] resources DeploymentStrategy.ROLLING
                      false true "staging" [].

Definition task (i deployment_id : string) (created : Z) (s : TaskStatus.t)
  : Task.t :=
  Task.mk i created created 1 deployment_id "step-1" "deploy-web" ""
          s CloudProviderType.AWS "create" None "key-1" 1 3 120 [] [] ""
          None None.

(** A detector that reports one changed property, whatever it is asked. *)
Definition detector (deployment_id : string) (_ : dict ResourceSpec.t)
    (w : World) : Res DriftReport.t * World :=
  (Ok (DriftReport.mk "report-1" 20 20 1 deployment_id "scheduled"
         [DriftItem.mk DriftType.PROPERTY_CHANGED "aws/us-east-1/compute/web"
                       "properties.instance_type" "t3.medium" "t3.large"
                       DriftSeverity.MEDIUM]
         "Found 1 drift items" false None), w).

Definition state (ds : list Deployment.t) (ts : list Task.t) : State :=
  mkState world
          (foldr (fun d m => <[Deployment.id d := d]> m) ∅ ds)
          (map (fun x => (Task.id x, x)) ts) ∅ [].
End Sample.

(** ** Further definitions for the properties of the code *)

(** The events a lifecycle call adds when it succeeds, by their own
    fields, as the methods of [Deployment] build them. *)
Definition emitted (c : Deployment.call) (d : Deployment.t)
  : list DomainEvent.payload :=
  match c with
  | Deployment.StartPlanning => []
  | Deployment.SetPlan p =>
      DomainEvent.DeploymentPlanGenerated
        (Deployment.id d) (ExecutionPlan.plan_id p)
        (ExecutionPlan.step_count p)
      :: (if DeploymentIntent.auto_approve (Deployment.intent d)
          then [DomainEvent.DeploymentApproved (Deployment.id d) "auto"]
          else [])
  | Deployment.Approve approved_by =>
      [DomainEvent.DeploymentApproved (Deployment.id d) approved_by]
  | Deployment.StartExecution =>
      [DomainEvent.DeploymentStarted (Deployment.id d)]
  | Deployment.StartVerification => []
  | Deployment.Complete => [DomainEvent.DeploymentCompleted (Deployment.id d)]
  | Deployment.Fail message =>
      [DomainEvent.DeploymentFailed (Deployment.id d) message]
  | Deployment.StartRollback =>
      [DomainEvent.DeploymentRollbackStarted (Deployment.id d)]
  | Deployment.CompleteRollback =>
      [DomainEvent.DeploymentRollbackCompleted (Deployment.id d)]
  | Deployment.Cancel => []
  end.

(** An event of deployment [d]: correlated with it, and typed after its
    class. *)
Definition event_of (d : Deployment.t) (e : DomainEvent.t) : Prop :=
  DomainEvent.correlation_id e = Deployment.id d
  /\ DomainEvent.event_type e = DomainEvent.event_type_of (DomainEvent.body e).

(** Further sample data. *)
Module Fixture.
Definition step_with (sid name : string) (deps : list string)
  : ExecutionStep.t :=
  ExecutionStep.mk sid name "" CloudProviderType.AWS Sample.web "create"
                   deps 60 (sid ++ "-key") 0 3.

(** A step that names a dependency no step of the plan has. *)
Definition dangling_plan : ExecutionPlan.t :=
  ExecutionPlan.mk "plan-2"
    [step_with "a" "first" []; step_with "b" "second" ["missing"];
     step_with "c" "third" ["a"]]
    180 "low" "" "".

Definition chain_plan : ExecutionPlan.t :=
  ExecutionPlan.mk "plan-3"
    [step_with "b" "second" ["a"]; step_with "a" "first" [];
     step_with "c" "third" ["a"; "b"]]
    180 "low" "" "".
End Fixture.

(** The status an operation of a task asks [_transition_to] for first. *)
Definition first_transition (c : Task.call) : TaskStatus.t :=
  match c with
  | Task.Enqueue => TaskStatus.QUEUED
  | Task.Acquire _ => TaskStatus.ACQUIRED
  | Task.Start => TaskStatus.RUNNING
  | Task.Succeed _ => TaskStatus.SUCCEEDED
  | Task.Fail _ => TaskStatus.FAILED
  | Task.Retry => TaskStatus.RETRYING
  | Task.Timeout => TaskStatus.TIMED_OUT
  | Task.Cancel => TaskStatus.CANCELLED
  end.

(** What an operation has assigned before its first [_transition_to]. *)
Definition assigned_first (c : Task.call) (x : Task.t) : Task.t :=
  match c with
  | Task.Fail m => Task.with_error_message m x
  | Task.Succeed (Some (kv :: o)) => Task.with_output_data (kv :: o) x
  | _ => x
  end.

(** How the fields of a task go with its status. *)
Record task_consistent (x : Task.t) : Prop := {
  never_retrying : Task.status x <> TaskStatus.RETRYING;
  waiting_unowned :
    Task.status x ∈ [TaskStatus.PENDING; TaskStatus.QUEUED] ->
    Task.worker_id x = None;
  working_owned :
    Task.status x ∈ [TaskStatus.ACQUIRED; TaskStatus.RUNNING;
                     TaskStatus.SUCCEEDED] ->
    is_Some (Task.worker_id x);
  started_stamped :
    Task.status x ∈ [TaskStatus.RUNNING; TaskStatus.SUCCEEDED] ->
    is_Some (Task.started_at x);
  ended_stamped :
    Task.status x ∈ [TaskStatus.SUCCEEDED; TaskStatus.FAILED;
                     TaskStatus.CANCELLED; TaskStatus.TIMED_OUT] ->
    is_Some (Task.completed_at x);
  attempts_from_one : 1 <= Task.attempt_number x;
  version_from_one : 1 <= Task.version x
}.

(** [l[:limit]]: a negative [limit] counts from the end. *)
Definition slice_to {A : Type} (limit : Z) (l : list A) : list A :=
  if bool_decide (0 <= limit) then take (Z.to_nat limit) l
  else take (length l - Z.to_nat (- limit)) l.

(** The queries of [InMemoryTaskRepository] that no service calls. *)
Module TaskQueries.
Definition list_by_status (status : TaskStatus.t) (limit : Z)
  : M State (list Task.t) :=
  let* st := get in
  let items := filter (fun x => Task.status x = status)
                      (dict_values (_task_store st)) in
  ret (slice_to limit (sorted Task.created_at items)).
End TaskQueries.

(** In ascending order of [key]. *)
Fixpoint ascending {A : Type} (key : A -> Z) (l : list A) : Prop :=
  match l with
  | [] => True
  | x :: l' => Forall (fun y => key x <= key y) l' /\ ascending key l'
  end.

(** The task as [acquire] leaves it. *)
Definition acquired_by (worker_id : string) (now : Z) (x : Task.t) : Task.t :=
  Task.with_worker_id (Some worker_id)
    (Task.with_touch now (Task.with_status TaskStatus.ACQUIRED x)).

(** What a service operation that takes a stored deployment [d] to
    [target] leaves behind: the deployment it returns is the stored one,
    in [target], with an empty buffer; what went out is the buffer of
    [d] and then the one event of the operation. *)
Definition served (st : State) (d : Deployment.t)
    (target : DeploymentStatus.t) (p : DomainEvent.payload)
    (r : Res Deployment.t * State) : Prop :=
  exists (d' : Deployment.t) (e : DomainEvent.t),
    fst r = Ok d'
    /\ _deployment_store (snd r)
       = <[Deployment.id d := d']> (_deployment_store st)
    /\ Deployment.status d' = target
    /\ Deployment.version d' = Deployment.version d + 1
    /\ Deployment._domain_events d' = []
    /\ event_of d e
    /\ DomainEvent.body e = p
    /\ _events (snd r)
       = _events st
           ++ map (fun e => (DomainEvent.event_type e, EventDump e))
                  (Deployment._domain_events d ++ [e])
    /\ _task_store (snd r) = _task_store st.

(** * Properties *)

(** ** The deployment state machine *)

Section DeploymentStateMachine.
Import Deployment.

Lemma transition_accepts (w : World) (d : t) (s : DeploymentStatus.t) :
  s ∈ VALID_TRANSITIONS (status d) ->
  _transition_to s (w, d) =
    (Ok tt, (snd (utc_now_w w),
             with_version (version d + 1)
               (with_updated_at (fst (utc_now_w w)) (with_status s d)))).
Proof.
  intros Hin. unfold _transition_to, bind, self; simpl.
  rewrite bool_decide_eq_true_2 by done. reflexivity.
Qed.

Lemma transition_rejects (w : World) (d : t) (s : DeploymentStatus.t) :
  s ∉ VALID_TRANSITIONS (status d) ->
  _transition_to s (w, d) = (Raise InvalidStateTransitionError, (w, d)).
Proof.
  intros Hin. unfold _transition_to, bind, self; simpl.
  rewrite bool_decide_eq_false_2 by done. reflexivity.
Qed.

End DeploymentStateMachine.

Local Opaque Deployment._transition_to.

(** Exposes the first [_transition_to] of a lifecycle method. *)
Ltac unfold_call :=
  unfold Deployment.start_planning, Deployment.set_plan, Deployment.approve,
    Deployment.start_execution, Deployment.start_verification,
    Deployment.complete, Deployment.fail, Deployment.start_rollback,
    Deployment.complete_rollback, Deployment.cancel;
  repeat (unfold bind at 1; simpl).


(** The outcome of a lifecycle call, by whether its target status is an
    allowed successor of the current one. *)
Lemma lifecycle_outcome (w : World) (d : Deployment.t)
    (c : Deployment.call) :
  let r := Deployment.run c (w, d) in
  let d' := snd (snd r) in
  (succeeded r = true <->
     Deployment.target c ∈ VALID_TRANSITIONS (Deployment.status d))
  /\ (succeeded r = true ->
      Deployment.status d' =
        match c with
        | Deployment.SetPlan _ =>
            if DeploymentIntent.auto_approve (Deployment.intent d)
            then DeploymentStatus.APPROVED
            else DeploymentStatus.AWAITING_APPROVAL
        | _ => Deployment.target c
        end)
  /\ (succeeded r = false ->
      raised r = Some InvalidStateTransitionError
      /\ fst (snd r) = w
      /\ Deployment.status d' = Deployment.status d
      /\ Deployment.version d' = Deployment.version d
      /\ Deployment.updated_at d' = Deployment.updated_at d
      /\ Deployment.step_results d' = Deployment.step_results d
      /\ Deployment._domain_events d' = Deployment._domain_events d
      /\ match c with
         | Deployment.Fail _ =>
             Deployment.with_error_message (Deployment.error_message d) d' = d
         | Deployment.SetPlan _ =>
             Deployment.with_plan (Deployment.plan d) d' = d
         | _ => d' = d
         end).
Proof.
  intros r d'; subst r d'.
  destruct (decide (Deployment.target c
                      ∈ VALID_TRANSITIONS (Deployment.status d))) as [Hin|Hout].
  - destruct c; simpl in Hin |- *; unfold_call;
      rewrite transition_accepts by exact Hin; simpl.
    all: try (repeat split; (done || discriminate)).
    (* set_plan: the follow-up transition leaves PLANNED *)
    destruct (DeploymentIntent.auto_approve (Deployment.intent d)); unfold_call;
      rewrite transition_accepts by (simpl; set_solver); simpl;
      repeat split; (done || discriminate).
  - destruct c; simpl in Hout |- *; unfold_call;
      rewrite transition_rejects by exact Hout; simpl.
    all: repeat split; try (done || discriminate).
    all: by destruct d.
Qed.

(** C1 (as amended).  For every deployment and every lifecycle call with
    target status [s2], the call succeeds exactly when [s2] is an allowed
    successor of the current status.  On success the status is [s2] --
    except for [set_plan], which goes on from PLANNED to APPROVED when
    [intent.auto_approve] and to AWAITING_APPROVAL otherwise.  On failure
    the call raises [InvalidStateTransitionError], no clock reading or
    identifier is consumed, and the deployment is left unchanged -- in
    every field for every call other than [fail] and [set_plan], in every
    field other than [error_message] for [fail], and in every field other
    than [plan] for [set_plan]. *)
Theorem C1_transition_contract (w : World) (d : Deployment.t)
    (c : Deployment.call) :
  let r := Deployment.run c (w, d) in
  let d' := snd (snd r) in
  (succeeded r = true <->
     Deployment.target c ∈ VALID_TRANSITIONS (Deployment.status d))
  /\ (succeeded r = true ->
      Deployment.status d' =
        match c with
        | Deployment.SetPlan _ =>
            if DeploymentIntent.auto_approve (Deployment.intent d)
            then DeploymentStatus.APPROVED
            else DeploymentStatus.AWAITING_APPROVAL
        | _ => Deployment.target c
        end)
  /\ (succeeded r = false ->
      raised r = Some InvalidStateTransitionError
      /\ fst (snd r) = w
      /\ Deployment.status d' = Deployment.status d
      /\ Deployment.version d' = Deployment.version d
      /\ Deployment.updated_at d' = Deployment.updated_at d
      /\ Deployment.step_results d' = Deployment.step_results d
      /\ Deployment._domain_events d' = Deployment._domain_events d
      /\ match c with
         | Deployment.Fail _ =>
             Deployment.with_error_message (Deployment.error_message d) d' = d
         | Deployment.SetPlan _ =>
             Deployment.with_plan (Deployment.plan d) d' = d
         | _ => d' = d
         end).
Proof. exact (lifecycle_outcome w d c). Qed.


(** C1 as stated does not hold.  [set_plan] on a deployment in PLANNING
    succeeds and leaves it in AWAITING_APPROVAL, which is neither the
    status the call asked for (PLANNED) nor a successor of PLANNING; a
    rejected [fail] on a PENDING deployment has already overwritten
    [error_message]; and a rejected [set_plan] on a PENDING deployment
    has already overwritten [plan]. *)
Lemma C1_counterexample :
  (let d := Sample.deployment false DeploymentStatus.PLANNING None in
   let r := Deployment.run (Deployment.SetPlan Sample.plan) (Sample.world, d) in
   succeeded r = true
   /\ Deployment.status (snd (snd r)) = DeploymentStatus.AWAITING_APPROVAL
   /\ Deployment.status (snd (snd r))
        <> Deployment.target (Deployment.SetPlan Sample.plan)
   /\ Deployment.status (snd (snd r))
        ∉ VALID_TRANSITIONS (Deployment.status d))
  /\ (let d := Sample.deployment false DeploymentStatus.PENDING None in
      let r := Deployment.run (Deployment.Fail "boom") (Sample.world, d) in
      raised r = Some InvalidStateTransitionError
      /\ Deployment.error_message d = ""
      /\ Deployment.error_message (snd (snd r)) = "boom"
      /\ snd (snd r) <> d)
  /\ (let d := Sample.deployment false DeploymentStatus.PENDING None in
      let r := Deployment.run (Deployment.SetPlan Sample.plan)
                 (Sample.world, d) in
      raised r = Some InvalidStateTransitionError
      /\ Deployment.plan d = None
      /\ Deployment.plan (snd (snd r)) = Some Sample.plan
      /\ snd (snd r) <> d).
Proof.
  split; [ | split ].
  - repeat split; try (vm_compute; (reflexivity || discriminate)).
    vm_compute. intros H. apply list_elem_of_In in H. simpl in H.
    intuition discriminate.
  - repeat split; try (vm_compute; (reflexivity || discriminate)).
  - repeat split; try (vm_compute; (reflexivity || discriminate)).
Qed.

(** C2.  On a deployment in PLANNING, [set_plan] succeeds, records the
    plan and appends [deployment.plan_generated] (deployment id, plan id,
    step count) to the event buffer; with [intent.auto_approve] it then
    appends [deployment.approved] with [approved_by = "auto"] and ends in
    APPROVED, otherwise it appends nothing more and ends in
    AWAITING_APPROVAL.  Two transitions are made (the version grows by
    two), the first one to PLANNED.  Whenever [set_plan] succeeds, the
    status is APPROVED exactly when [intent.auto_approve]. *)
Theorem C2_set_plan_policy (w : World) (d : Deployment.t)
    (p : ExecutionPlan.t) :
  let r := Deployment.set_plan p (w, d) in
  let d' := snd (snd r) in
  let auto := DeploymentIntent.auto_approve (Deployment.intent d) in
  (Deployment.status d = DeploymentStatus.PLANNING ->
     fst r = Ok tt
     /\ Deployment.plan d' = Some p
     /\ Deployment.version d' = Deployment.version d + 2
     /\ (exists planned : Deployment.self_,
           Deployment._transition_to DeploymentStatus.PLANNED
             (w, Deployment.with_plan (Some p) d) = (Ok tt, planned)
           /\ Deployment.status (snd planned) = DeploymentStatus.PLANNED)
     /\ exists generated : DomainEvent.t,
          DomainEvent.event_type generated = "deployment.plan_generated"
          /\ DomainEvent.body generated =
               DomainEvent.DeploymentPlanGenerated
                 (Deployment.id d) (ExecutionPlan.plan_id p)
                 (ExecutionPlan.step_count p)
          /\ if auto
             then Deployment.status d' = DeploymentStatus.APPROVED
                  /\ exists approved : DomainEvent.t,
                       DomainEvent.event_type approved = "deployment.approved"
                       /\ DomainEvent.body approved =
                            DomainEvent.DeploymentApproved
                              (Deployment.id d) "auto"
                       /\ Deployment._domain_events d' =
                            Deployment._domain_events d
                              ++ [generated; approved]
             else Deployment.status d' = DeploymentStatus.AWAITING_APPROVAL
                  /\ Deployment._domain_events d' =
                       Deployment._domain_events d ++ [generated])
  /\ (succeeded r = true ->
      (Deployment.status d' = DeploymentStatus.APPROVED <-> auto = true)).
Proof.
  intros r d' auto; subst r d' auto. split.
  - intros Hst.
    assert (Hin : DeploymentStatus.PLANNED
                    ∈ VALID_TRANSITIONS (Deployment.status d))
      by (rewrite Hst; simpl; set_solver).
    unfold_call. rewrite transition_accepts by exact Hin. simpl.
    destruct (DeploymentIntent.auto_approve (Deployment.intent d)); unfold_call;
      rewrite transition_accepts by (simpl; set_solver); simpl.
    + repeat split; try lia.
      * eexists; split; reflexivity.
      * eexists (DomainEvent.mk _ _ _ _ _); repeat split.
        eexists (DomainEvent.mk _ _ _ _ _); repeat split.
        rewrite <- app_assoc. reflexivity.
    + repeat split; try lia.
      * eexists; split; reflexivity.
      * eexists (DomainEvent.mk _ _ _ _ _); repeat split.
  - destruct (lifecycle_outcome w d (Deployment.SetPlan p))
      as (_ & Hok & _).
    simpl in Hok. intros Hs. rewrite (Hok Hs).
    destruct (DeploymentIntent.auto_approve (Deployment.intent d));
      split; (done || discriminate).
Qed.

(** With [auto_approve] the plan is approved at once, and the two events
    are buffered in this order. *)
Example set_plan_auto_approve :
  let d := Sample.deployment true DeploymentStatus.PLANNING None in
  let r := Deployment.set_plan Sample.plan (Sample.world, d) in
  fst r = Ok tt
  /\ Deployment.status (snd (snd r)) = DeploymentStatus.APPROVED
  /\ map DomainEvent.body (Deployment._domain_events (snd (snd r)))
     = [DomainEvent.DeploymentPlanGenerated "dep-1" "plan-1" 1;
        DomainEvent.DeploymentApproved "dep-1" "auto"].
Proof. vm_compute. repeat split. Qed.

(** ** Step results and progress *)

(** [record_step_result] appends before anything can raise. *)
Lemma record_step_result_appends (w : World) (d : Deployment.t)
    (result : StepResult.t) :
  Deployment.step_results
    (snd (snd (Deployment.record_step_result result (w, d))))
  = Deployment.step_results d ++ [result].
Proof.
  unfold Deployment.record_step_result.
  repeat (unfold bind at 1; simpl).
  destruct (negb (StepResult.success result)
            && DeploymentIntent.rollback_on_failure (Deployment.intent d));
    [ | reflexivity ].
  unfold_call.
  match goal with
  | |- context [Deployment._transition_to ?s (?w', ?d')] =>
      destruct (decide (s ∈ VALID_TRANSITIONS (Deployment.status d')))
        as [Hin|Hout];
      [ rewrite (transition_accepts w' d' s Hin)
      | rewrite (transition_rejects w' d' s Hout) ]
  end; reflexivity.
Qed.

(** No lifecycle call touches [step_results], whether it succeeds or
    raises. *)
Lemma lifecycle_keeps_step_results (w : World) (d : Deployment.t)
    (c : Deployment.call) :
  Deployment.step_results (snd (snd (Deployment.run c (w, d))))
  = Deployment.step_results d.
Proof.
  destruct (decide (Deployment.target c
                      ∈ VALID_TRANSITIONS (Deployment.status d))) as [Hin|Hout].
  - destruct c; simpl in Hin |- *; unfold_call;
      rewrite transition_accepts by exact Hin; simpl; try reflexivity.
    destruct (DeploymentIntent.auto_approve (Deployment.intent d)); unfold_call;
      rewrite transition_accepts by (simpl; set_solver); reflexivity.
  - destruct c; simpl in Hout |- *; unfold_call;
      rewrite transition_rejects by exact Hout; reflexivity.
Qed.

(** C6 (as amended).  [step_results] is append-only: [record_step_result]
    puts the given result at the end of the list whatever the status of
    the deployment (terminal ones included) and whatever the step count of
    the plan, also when it goes on to raise; no lifecycle call changes the
    list, and [collect_events] does not either. *)
Theorem C6_step_results_append_only (w : World) (d : Deployment.t) :
  (forall result : StepResult.t,
     Deployment.step_results
       (snd (snd (Deployment.record_step_result result (w, d))))
     = Deployment.step_results d ++ [result])
  /\ (forall c : Deployment.call,
        Deployment.step_results (snd (snd (Deployment.run c (w, d))))
        = Deployment.step_results d)
  /\ Deployment.step_results (snd (snd (Deployment.collect_events (w, d))))
     = Deployment.step_results d.
Proof.
  split; [ | split ].
  - intros result. apply record_step_result_appends.
  - intros c. apply lifecycle_keeps_step_results.
  - reflexivity.
Qed.

(** C6 as stated does not hold: a COMPLETED deployment whose one-step plan
    already has its result accepts a further [record_step_result]. *)
Lemma C6_counterexample :
  let d := Deployment.with_step_results [Sample.result true]
             (Sample.deployment false DeploymentStatus.COMPLETED
                                (Some Sample.plan)) in
  let r := Deployment.record_step_result (Sample.result true)
             (Sample.world, d) in
  Deployment.is_terminal d = true
  /\ fst r = Ok tt
  /\ Deployment.step_results (snd (snd r))
     = [Sample.result true; Sample.result true]
  /\ (length (ExecutionPlan.steps Sample.plan)
      < length (Deployment.step_results (snd (snd r))))%nat.
Proof. vm_compute. repeat split; lia. Qed.


(** ** Progress, in binary64 *)

(** The operations of Python's [float] are those of [PrimFloat], which
    the standard library specifies by the functions of [SpecFloat]; the
    lemmas below follow a quotient of two list lengths and its product
    with 100 through them. *)

Section Binary64.
Local Open Scope Z_scope.

Lemma digits2_pos_size (p : positive) : digits2_pos p = Pos.size p.
Proof. induction p; simpl; congruence. Qed.

Lemma digits_bounds (p : positive) :
  2 ^ (Zpos (digits2_pos p) - 1) <= Zpos p < 2 ^ Zpos (digits2_pos p).
Proof.
  rewrite digits2_pos_size.
  pose proof (Pos.size_gt p) as Hgt. pose proof (Pos.size_le p) as Hle.
  apply Pos2Z.pos_lt_pos in Hgt. apply Pos2Z.pos_le_pos in Hle.
  rewrite Pos2Z.inj_pow in Hgt, Hle.
  assert (Hs : 2 ^ Zpos (Pos.size p) = 2 * 2 ^ (Zpos (Pos.size p) - 1)).
  { rewrite <- Z.pow_succ_r by lia. f_equal. lia. }
  lia.
Qed.

Lemma digits_unique (p : positive) (d : Z) :
  2 ^ (d - 1) <= Zpos p < 2 ^ d -> Zpos (digits2_pos p) = d.
Proof.
  intros [Hlo Hhi]. pose proof (digits_bounds p) as [Hlo' Hhi'].
  assert (Hd : 0 < d).
  { destruct (Z.lt_ge_cases 0 d) as [|Hle]; [ done | ].
    rewrite (Z.pow_neg_r 2 (d - 1)) in Hlo by lia.
    destruct (Z.eq_dec d 0) as [-> | Hne]; [ simpl in Hhi; lia | ].
    rewrite Z.pow_neg_r in Hhi by lia. lia. }
  set (s := Zpos (digits2_pos p)) in *.
  destruct (Z.lt_trichotomy s d) as [Hlt | [Heq | Hgt]]; [ | exact Heq | ].
  - assert (2 ^ s <= 2 ^ (d - 1)) by (apply Z.pow_le_mono_r; lia). lia.
  - assert (2 ^ d <= 2 ^ (s - 1)) by (apply Z.pow_le_mono_r; lia). lia.
Qed.


Lemma iter_pos_nat {A : Type} (f : A -> A) (p : positive) (x : A) :
  SpecFloat.iter_pos f p x = Nat.iter (Pos.to_nat p) f x.
Proof.
  revert x. induction p as [p IH | p IH | ]; intros x.
  - cbn [SpecFloat.iter_pos]. rewrite !IH. rewrite Pos2Nat.inj_xI.
    rewrite <- Nat.iter_succ_r, <- Nat.iter_add. f_equal. lia.
  - cbn [SpecFloat.iter_pos]. rewrite !IH. rewrite Pos2Nat.inj_xO.
    rewrite <- Nat.iter_add. f_equal. lia.
  - reflexivity.
Qed.

Lemma shr_1_m (mrs : shr_record) :
  0 <= shr_m mrs -> shr_m (shr_1 mrs) = shr_m mrs / 2.
Proof.
  destruct mrs as [m r s]. cbn [shr_m]. intros Hm.
  destruct m as [|[p|p|]|p]; cbn [shr_1 shr_m]; try lia.
  - reflexivity.
  - apply Z.div_unique with 1; lia.
  - apply Z.div_unique with 0; lia.
  - reflexivity.
Qed.

(** Shifting right keeps the quotient by the power of two. *)
Lemma shr_nat_m (k : nat) (mrs : shr_record) :
  0 <= shr_m mrs ->
  shr_m (Nat.iter k shr_1 mrs) = shr_m mrs / 2 ^ Z.of_nat k.
Proof.
  intros Hm. induction k as [|k IH].
  - simpl. by rewrite Z.div_1_r.
  - rewrite Nat2Z.inj_succ, Z.pow_succ_r by lia. simpl.
    rewrite shr_1_m by (rewrite IH; apply Z.div_pos; lia).
    rewrite IH. rewrite Z.div_div by lia. f_equal. lia.
Qed.

(** Shifting out zeros is exact. *)
Lemma shr_nat_exact (k : nat) (a : Z) :
  0 < a ->
  Nat.iter k shr_1 (Build_shr_record (a * 2 ^ Z.of_nat k) false false)
  = Build_shr_record a false false.
Proof.
  intros Ha. induction k as [|k IH].
  - simpl. f_equal. lia.
  - rewrite Nat.iter_succ_r. rewrite <- IH. f_equal.
    rewrite Nat2Z.inj_succ, Z.pow_succ_r by lia.
    assert (Hpos : 0 < a * 2 ^ Z.of_nat k) by lia.
    destruct (a * 2 ^ Z.of_nat k) as [|q|q] eqn:Hq; try lia.
    replace (a * (2 * 2 ^ Z.of_nat k)) with (Zpos q~0) by lia.
    reflexivity.
Qed.

Lemma shr_m_shift (mrs : shr_record) (e n : Z) :
  0 <= shr_m mrs -> 0 <= n ->
  shr_m (fst (shr mrs e n)) = shr_m mrs / 2 ^ n /\ snd (shr mrs e n) = e + n.
Proof.
  intros Hm Hn. destruct n as [|p|p]; simpl; try lia.
  - rewrite Z.div_1_r. split; [ done | lia ].
  - rewrite iter_pos_nat, shr_nat_m by done.
    by rewrite positive_nat_Z.
Qed.

Lemma shr_exact_shift (a e n : Z) :
  0 < a -> 0 <= n ->
  shr (Build_shr_record (a * 2 ^ n) false false) e n
  = (Build_shr_record a false false, e + n).
Proof.
  intros Ha Hn. destruct n as [|p|p]; simpl; try lia.
  - f_equal; [ f_equal; lia | lia ].
  - rewrite iter_pos_nat. rewrite <- (positive_nat_Z p).
    by rewrite shr_nat_exact.
Qed.


Lemma shr_m_of_loc (m : Z) (l : location) : shr_m (shr_record_of_loc m l) = m.
Proof. by destruct l as [|[]]. Qed.

Lemma fexp_normal (e : Z) : -1021 <= e -> fexp prec emax e = e - 53.
Proof. intros He. unfold fexp, SpecFloat.emin, prec, emax. lia. Qed.

Lemma round_nearest_even_cases (m : Z) (l : location) :
  round_nearest_even m l = m \/ round_nearest_even m l = m + 1.
Proof.
  destruct l as [|[]]; simpl; auto. destruct (Z.even m); auto.
Qed.

Lemma finish_round (m2 : positive) (e1 : Z) :
  2 ^ 52 <= Zpos m2 <= 2 ^ 53 -> -1074 <= e1 < 971 ->
  (let '(mrs, e) := shr_fexp prec emax (Zpos m2) e1 loc_Exact in
   match shr_m mrs with
   | Z0 => S754_zero false
   | Zpos m => if e <=? emax - prec then S754_finite false m e
               else S754_infinity false
   | Zneg _ => S754_nan
   end)
  = if Z.eq_dec (Zpos m2) (2 ^ 53)
    then S754_finite false (Z.to_pos (2 ^ 52)) (e1 + 1)
    else S754_finite false m2 e1.
Proof.
  intros Hm He. unfold shr_fexp. cbn [Zdigits2].
  destruct (Z.eq_dec (Zpos m2) (2 ^ 53)) as [Heq | Hne].
  - rewrite (digits_unique m2 54) by (rewrite Heq; simpl; lia).
    rewrite fexp_normal by lia.
    replace (54 + e1 - 53 - e1) with 1 by lia.
    cbn [shr_record_of_loc]. rewrite Heq.
    change (2 ^ 53) with (2 ^ 52 * 2 ^ 1).
    rewrite shr_exact_shift by lia. cbn [shr_m].
    change (2 ^ 52) with (Zpos (Z.to_pos (2 ^ 52))) at 1.
    cbv iota beta. replace (e1 + 1 <=? emax - prec) with true; [ done | ].
    symmetry. apply Z.leb_le. unfold emax, prec. lia.
  - rewrite (digits_unique m2 53) by (simpl; lia).
    rewrite fexp_normal by lia.
    replace (53 + e1 - 53 - e1) with 0 by lia.
    cbn [shr shr_record_of_loc shr_m].
    replace (e1 <=? emax - prec) with true; [ done | ].
    symmetry. apply Z.leb_le. unfold emax, prec. lia.
Qed.

(** Rounding a positive mantissa of at least 53 digits, away from the
    subnormal and the overflow range. *)
Lemma round_aux_spec (mx : positive) (ex : Z) (lx : location) :
  let dx := Zpos (digits2_pos mx) in
  let m1 := Zpos mx / 2 ^ (dx - 53) in
  let e1 := ex + dx - 53 in
  53 <= dx -> -1074 <= e1 < 971 ->
  2 ^ 52 <= m1 < 2 ^ 53
  /\ rounds_to m1 e1 (binary_round_aux prec emax false (Zpos mx) ex lx).
Proof.
  intros dx m1 e1 Hdx He.
  pose proof (digits_bounds mx) as [Hlo Hhi]. fold dx in Hlo, Hhi.
  assert (Hpow : 2 ^ (dx - 1) = 2 ^ 52 * 2 ^ (dx - 53)
                 /\ 2 ^ dx = 2 ^ 53 * 2 ^ (dx - 53)).
  { rewrite <- !Z.pow_add_r by lia. split; f_equal; lia. }
  destruct Hpow as [Hp1 Hp2].
  assert (Hs : 0 < 2 ^ (dx - 53)) by (apply Z.pow_pos_nonneg; lia).
  assert (Hm1 : 2 ^ 52 <= m1 < 2 ^ 53).
  { subst m1. split.
    - apply Z.div_le_lower_bound; lia.
    - apply Z.div_lt_upper_bound; lia. }
  split; [ exact Hm1 | ].
  unfold binary_round_aux.
  unfold shr_fexp at 1. cbn [Zdigits2]. fold dx.
  rewrite fexp_normal by lia.
  replace (dx + ex - 53 - ex) with (dx - 53) by lia.
  pose proof (shr_m_shift (shr_record_of_loc (Zpos mx) lx) ex (dx - 53))
    as [Hm He1]; [ rewrite shr_m_of_loc; lia | lia | ].
  rewrite shr_m_of_loc in Hm. fold m1 in Hm.
  destruct (shr (shr_record_of_loc (Zpos mx) lx) ex (dx - 53))
    as [mrs e] eqn:Hshr.
  cbn [fst snd] in Hm, He1. replace e with e1 by (subst e1; lia).
  rewrite Hm.
  destruct (round_nearest_even_cases m1 (loc_of_shr_record mrs))
    as [Hr | Hr]; rewrite Hr.
  - destruct m1 as [|p1|p1] eqn:Hp; try lia.
    rewrite finish_round by lia.
    destruct (Z.eq_dec (Zpos p1) (2 ^ 53)); [ lia | ].
    exists p1. left. split; [ done | ]. split; [ by left | lia ].
  - assert (Hpos : 0 < m1 + 1) by lia.
    destruct (m1 + 1) as [|p2|p2] eqn:Hp; try lia.
    rewrite finish_round by lia.
    destruct (Z.eq_dec (Zpos p2) (2 ^ 53)) as [Heq | Hne].
    + exists (Z.to_pos (2 ^ 52)). right. split; [ done | ].
      split; [ done | lia ].
    + exists p2. left. split; [ done | ]. split; [ right; lia | lia ].
Qed.

(** Rounding what needs no rounding. *)
Lemma round_aux_exact (a : positive) (n ex : Z) (mx : positive) :
  Zpos mx = Zpos a * 2 ^ n -> 0 <= n ->
  2 ^ 52 <= Zpos a < 2 ^ 53 ->
  -1074 <= ex + n < 971 ->
  binary_round_aux prec emax false (Zpos mx) ex loc_Exact
  = S754_finite false a (ex + n).
Proof.
  intros Hmx Hn Ha He.
  assert (Hs : 0 < 2 ^ n) by (apply Z.pow_pos_nonneg; lia).
  assert (Hd : Zpos (digits2_pos mx) = 53 + n).
  { apply digits_unique. rewrite Hmx.
    replace (53 + n - 1) with (52 + n) by lia.
    rewrite !Z.pow_add_r by lia. nia. }
  unfold binary_round_aux.
  unfold shr_fexp at 1. cbn [Zdigits2]. rewrite Hd.
  rewrite fexp_normal by lia.
  replace (53 + n + ex - 53 - ex) with n by lia.
  cbn [shr_record_of_loc]. rewrite Hmx.
  rewrite shr_exact_shift by lia.
  cbn [shr_m loc_of_shr_record round_nearest_even].
  rewrite finish_round by lia.
  destruct (Z.eq_dec (Zpos a) (2 ^ 53)); [ lia | done ].
Qed.


Lemma iter_xO (k s : positive) :
  Zpos (Pos.iter xO k s) = Zpos k * 2 ^ Zpos s.
Proof.
  rewrite Pos2Nat.inj_iter. rewrite <- (positive_nat_Z s).
  induction (Pos.to_nat s) as [|i IH]; [ simpl; lia | ].
  rewrite Nat2Z.inj_succ, Z.pow_succ_r by lia. cbn [nat_rect].
  rewrite Pos2Z.inj_xO, IH. lia.
Qed.

Lemma digits_mono (p q : positive) :
  Zpos p <= Zpos q -> Zpos (digits2_pos p) <= Zpos (digits2_pos q).
Proof.
  intros Hle. pose proof (digits_bounds p) as [Hlo _].
  pose proof (digits_bounds q) as [_ Hhi].
  destruct (Z.le_gt_cases (Zpos (digits2_pos p)) (Zpos (digits2_pos q)))
    as [|Hgt]; [ done | ].
  assert (2 ^ Zpos (digits2_pos q) <= 2 ^ (Zpos (digits2_pos p) - 1))
    by (apply Z.pow_le_mono_r; lia).
  lia.
Qed.

(** The conversion of a positive integer below [2^53]: exact, with the
    mantissa shifted to 53 digits. *)
Lemma normalize_small (k : positive) :
  let d := Zpos (digits2_pos k) in
  Zpos k < 2 ^ 53 ->
  exists M : positive,
    binary_normalize prec emax (Zpos k) 0 false = S754_finite false M (d - 53)
    /\ Zpos M = Zpos k * 2 ^ (53 - d)
    /\ 2 ^ 52 <= Zpos M < 2 ^ 53
    /\ 1 <= d <= 53.
Proof.
  intros d Hk. pose proof (digits_bounds k) as [Hlo Hhi]. fold d in Hlo, Hhi.
  assert (Hd : 1 <= d <= 53).
  { split; [ subst d; lia | ].
    destruct (Z.le_gt_cases d 53) as [|Hgt]; [ done | ].
    assert (2 ^ 53 <= 2 ^ (d - 1)) by (apply Z.pow_le_mono_r; lia). lia. }
  assert (Hshift : exists M : positive,
            shl_align k 0 (d - 53) = (M, d - 53)
            /\ Zpos M = Zpos k * 2 ^ (53 - d)).
  { unfold shl_align. destruct (d - 53 - 0) as [|s|s] eqn:Hs; try lia.
    - exists k. replace (d - 53) with 0 by lia. split; [ done | ].
      replace (53 - d) with 0 by lia. lia.
    - exists (Pos.iter xO k s). split; [ done | ].
      rewrite iter_xO. f_equal. f_equal. lia. }
  destruct Hshift as (M & Hal & HM). exists M.
  assert (Hpow : 2 ^ 52 = 2 ^ (d - 1) * 2 ^ (53 - d)
                 /\ 2 ^ 53 = 2 ^ d * 2 ^ (53 - d)).
  { rewrite <- !Z.pow_add_r by lia. split; f_equal; lia. }
  destruct Hpow as [Hp1 Hp2].
  assert (Hs : 0 < 2 ^ (53 - d)) by (apply Z.pow_pos_nonneg; lia).
  assert (HMb : 2 ^ 52 <= Zpos M < 2 ^ 53).
  { rewrite HM, Hp1, Hp2. split.
    - apply Z.mul_le_mono_nonneg_r; lia.
    - apply Z.mul_lt_mono_pos_r; lia. }
  split; [ | done ].
  unfold binary_normalize, binary_round. fold d.
  rewrite Z.add_0_r. rewrite fexp_normal by lia. rewrite Hal.
  rewrite (round_aux_exact M 0 (d - 53) M) by lia.
  f_equal. lia.
Qed.


Lemma div_eucl_eq (a b : Z) : Z.div_eucl a b = (a / b, a mod b).
Proof.
  unfold Z.div, Z.modulo. by destruct (Z.div_eucl a b).
Qed.

(** The quotient of two normalised operands: the division of the
    mantissas, one shifted by 53 digits, then rounded. *)
Lemma div_normal (Mn Mm : positive) (En Em : Z) :
  2 ^ 52 <= Zpos Mn < 2 ^ 53 -> 2 ^ 52 <= Zpos Mm < 2 ^ 53 ->
  -52 <= En <= 0 -> -52 <= Em <= 0 ->
  SF64div (S754_finite false Mn En) (S754_finite false Mm Em)
  = binary_round_aux prec emax false
      (Zpos Mn * 2 ^ 53 / Zpos Mm) (En - Em - 53)
      (new_location (Zpos Mm) (Zpos Mn * 2 ^ 53 mod Zpos Mm)).
Proof.
  intros Hn Hm HEn HEm.
  unfold SF64div, SFdiv, SFdiv_core_binary. cbn [xorb Zdigits2].
  rewrite (digits_unique Mn 53), (digits_unique Mm 53) by (simpl; lia).
  cbv zeta.
  rewrite fexp_normal by lia.
  replace (Z.min (53 + En - (53 + Em) - 53) (En - Em)) with (En - Em - 53)
    by lia.
  replace (En - Em - (En - Em - 53)) with 53 by lia.
  cbv iota. rewrite Z.shiftl_mul_pow2 by lia.
  by rewrite div_eucl_eq.
Qed.

Lemma mul_hundred (mq : positive) (eq : Z) :
  SF64mul (S754_finite false mq eq)
          (S754_finite false 7036874417766400 (-46))
  = binary_round_aux prec emax false
      (Zpos (mq * 7036874417766400)) (eq + -46) loc_Exact.
Proof. reflexivity. Qed.

Lemma above_hundred (mF : positive) (eF : Z) :
  SFltb (S754_finite false 7036874417766400 (-46)) (S754_finite false mF eF)
  = true
  <-> -46 < eF \/ (eF = -46 /\ 7036874417766400 < Zpos mF).
Proof.
  unfold SFltb, SFcompare.
  destruct (Z.compare_spec (-46) eF) as [Heq | Hlt | Hgt].
  - rewrite Pos.compare_cont_spec. cbn [Pos.switch_Eq].
    rewrite Pos2Z.inj_compare.
    destruct (Z.compare_spec 7036874417766400 (Zpos mF)) as [Hm | Hm | Hm].
    + split; [ discriminate | ]. (intros [? | [_ ?]]; lia).
    + split; [ intros _ | reflexivity ]. right. lia.
    + split; [ discriminate | ]. (intros [? | [_ ?]]; lia).
  - split; [ intros _; left; exact Hlt | reflexivity ].
  - split; [ discriminate | ]. (intros [? | [? ?]]; lia).
Qed.


(** The product of a normalised operand and 100. *)
Lemma times_hundred (mq : positive) (eq : Z) :
  let P := Zpos mq * 7036874417766400 in
  2 ^ 52 <= Zpos mq < 2 ^ 53 -> -110 <= eq <= 60 ->
  exists dP : Z,
    (dP = 105 \/ dP = 106)
    /\ 2 ^ (dP - 1) <= P < 2 ^ dP
    /\ rounds_to (P / 2 ^ (dP - 53)) (eq + dP - 99)
         (SF64mul (S754_finite false mq eq)
                  (S754_finite false 7036874417766400 (-46))).
Proof.
  intros P Hmq Heq. rewrite mul_hundred.
  pose proof (digits_bounds (mq * 7036874417766400)) as Hb.
  rewrite Pos2Z.inj_mul in Hb. fold P in Hb.
  set (dP := Zpos (digits2_pos (mq * 7036874417766400))) in *.
  assert (HP : 2 ^ 104 <= P < 2 ^ 106) by (subst P; lia).
  assert (HdP : dP = 105 \/ dP = 106).
  { destruct (Z.le_gt_cases dP 104) as [Hle | Hgt].
    - assert (2 ^ dP <= 2 ^ 104) by (apply Z.pow_le_mono_r; lia). lia.
    - destruct (Z.le_gt_cases 107 dP) as [Hge | Hlt]; [ | lia ].
      assert (2 ^ 106 <= 2 ^ (dP - 1)) by (apply Z.pow_le_mono_r; lia). lia. }
  exists dP. split; [ done | ]. split; [ done | ].
  pose proof (round_aux_spec (mq * 7036874417766400) (eq + -46) loc_Exact)
    as Hr.
  cbv zeta in Hr. fold dP in Hr. rewrite Pos2Z.inj_mul in Hr. fold P in Hr.
  destruct Hr as [_ Hr]; [ lia | lia | ].
  by replace (eq + dP - 99) with (eq + -46 + dP - 53) by lia.
Qed.


Lemma hundred_times_above (mq : positive) (eq : Z) :
  2 ^ 52 <= Zpos mq < 2 ^ 53 -> eq <= 60 ->
  -52 < eq \/ (eq = -52 /\ 2 ^ 52 + 1 <= Zpos mq) ->
  SFltb (S754_finite false 7036874417766400 (-46))
        (SF64mul (S754_finite false mq eq)
                 (S754_finite false 7036874417766400 (-46)))
  = true.
Proof.
  intros Hmq Hhi Habove.
  destruct (times_hundred mq eq Hmq) as (dP & HdP & HP & mF & Hout);
    [ lia | ].
  set (P := Zpos mq * 7036874417766400) in *.
  destruct Hout as [(-> & Hm & _) | (-> & _ & _)]; apply above_hundred.
  - destruct (Z.eq_dec (eq + dP - 99) (-46)) as [He | He]; [ | left; lia ].
    right. split; [ done | ].
    assert (Hdp : dP = 105) by lia. assert (Heq : eq = -52) by lia.
    assert (Hq : 7036874417766400 + 1 <= P / 2 ^ (dP - 53)).
    { rewrite Hdp. apply Z.div_le_lower_bound; [ lia | ]. subst P. lia. }
    lia.
  - left. lia.
Qed.

Lemma hundred_times_not_above (mq : positive) (eq : Z) :
  2 ^ 52 <= Zpos mq < 2 ^ 53 -> -110 <= eq ->
  eq <= -53 \/ (eq = -52 /\ Zpos mq = 2 ^ 52) ->
  SFltb (S754_finite false 7036874417766400 (-46))
        (SF64mul (S754_finite false mq eq)
                 (S754_finite false 7036874417766400 (-46)))
  = false.
Proof.
  intros Hmq Hlo [Hbelow | [-> Hone]].
  - destruct (times_hundred mq eq Hmq) as (dP & HdP & HP & mF & Hout);
      [ lia | ].
    set (P := Zpos mq * 7036874417766400) in *.
    apply not_true_iff_false. intros Habove.
    assert (Hq : P / 2 ^ (dP - 53) < 7036874417766400 \/ dP = 105).
    { destruct HdP as [-> | ->]; [ by right | left ].
      apply Z.div_lt_upper_bound; [ lia | ]. subst P. lia. }
    destruct Hout as [(Hf & Hm & _) | (Hf & Hm & Hc)]; rewrite Hf in Habove;
      apply above_hundred in Habove; lia.
  - rewrite mul_hundred.
    rewrite (round_aux_exact 7036874417766400 52 (-52 + -46)
               (mq * 7036874417766400)); [ | | lia | lia | lia ].
    + apply not_true_iff_false. intros Habove.
      apply above_hundred in Habove. lia.
    + rewrite Pos2Z.inj_mul, Hone. lia.
Qed.


(** The quotient of the conversions of two positive integers below
    [2^53]. *)
Lemma quotient_spec (n m : positive) :
  let dn := Zpos (digits2_pos n) in
  let dm := Zpos (digits2_pos m) in
  let Mn := Zpos n * 2 ^ (53 - dn) in
  let Mm := Zpos m * 2 ^ (53 - dm) in
  let q := Mn * 2 ^ 53 / Mm in
  Zpos n < 2 ^ 53 -> Zpos m < 2 ^ 53 ->
  2 ^ 52 <= Mn < 2 ^ 53 /\ 2 ^ 52 <= Mm < 2 ^ 53
  /\ 1 <= dn <= 53 /\ 1 <= dm <= 53
  /\ exists dx : Z,
       (dx = 53 \/ dx = 54)
       /\ 2 ^ (dx - 1) <= q < 2 ^ dx
       /\ rounds_to (q / 2 ^ (dx - 53)) (dn - dm + dx - 106)
            (SF64div (binary_normalize prec emax (Zpos n) 0 false)
                     (binary_normalize prec emax (Zpos m) 0 false)).
Proof.
  intros dn dm Mn Mm q Hn Hm.
  destruct (normalize_small n Hn) as (Pn & -> & HPn & HMn & Hdn).
  destruct (normalize_small m Hm) as (Pm & -> & HPm & HMm & Hdm).
  fold dn in HPn, Hdn. fold dm in HPm, Hdm.
  fold Mn in HPn. fold Mm in HPm.
  rewrite HPn in HMn. rewrite HPm in HMm.
  split; [ done | ]. split; [ done | ]. split; [ done | ]. split; [ done | ].
  rewrite div_normal by lia. rewrite HPn, HPm. fold q.
  assert (Hq : 2 ^ 52 <= q < 2 ^ 54).
  { subst q. split.
    - apply Z.div_le_lower_bound; lia.
    - apply Z.div_lt_upper_bound; lia. }
  destruct q as [|qp|qp] eqn:Hqp; try lia.
  pose proof (digits_bounds qp) as Hb.
  set (dx := Zpos (digits2_pos qp)) in *.
  assert (Hdx : dx = 53 \/ dx = 54).
  { destruct (Z.le_gt_cases dx 52) as [Hle | Hgt].
    - assert (2 ^ dx <= 2 ^ 52) by (apply Z.pow_le_mono_r; lia). lia.
    - destruct (Z.le_gt_cases 55 dx) as [Hge | Hlt]; [ | lia ].
      assert (2 ^ 54 <= 2 ^ (dx - 1)) by (apply Z.pow_le_mono_r; lia). lia. }
  exists dx. split; [ done | ]. split; [ done | ].
  pose proof (round_aux_spec qp (dn - 53 - (dm - 53) - 53)
                (new_location Mm (Mn * 2 ^ 53 mod Mm))) as Hr.
  cbv zeta in Hr. fold dx in Hr.
  destruct Hr as [_ Hr]; [ lia | lia | ].
  by replace (dn - dm + dx - 106)
    with (dn - 53 - (dm - 53) - 53 + dx - 53) by lia.
Qed.

Lemma quotient_above (n m : positive) :
  Zpos m < Zpos n -> Zpos n < 2 ^ 52 ->
  exists (mq : positive) (eq : Z),
    SF64div (binary_normalize prec emax (Zpos n) 0 false)
            (binary_normalize prec emax (Zpos m) 0 false)
    = S754_finite false mq eq
    /\ 2 ^ 52 <= Zpos mq < 2 ^ 53 /\ eq <= 60
    /\ (-52 < eq \/ (eq = -52 /\ 2 ^ 52 + 1 <= Zpos mq)).
Proof.
  intros Hlt Hn.
  destruct (quotient_spec n m) as (HMn & HMm & Hdn & Hdm & dx & Hdx & Hq & Hr);
    [ lia | lia | ].
  pose proof (digits_mono m n ltac:(lia)) as Hmono.
  set (dn := Zpos (digits2_pos n)) in *. set (dm := Zpos (digits2_pos m)) in *.
  set (tn := 2 ^ (53 - dn)) in *.
  assert (Htn : 0 < tn) by (apply Z.pow_pos_nonneg; lia).
  set (Mn := Zpos n * tn) in *.
  set (q := Mn * 2 ^ 53 / (Zpos m * 2 ^ (53 - dm))) in *.
  assert (Hgap : Zpos m * tn + tn <= Mn) by (subst Mn; nia).
  assert (Hsmall : Zpos m * tn <= 2 ^ 52 * tn) by nia.
  assert (Hm1 : -52 < dn - dm + dx - 106
                \/ (dn - dm + dx - 106 = -52
                    /\ 2 ^ 52 + 1 <= q / 2 ^ (dx - 53))).
  { destruct (Z.eq_dec dn dm) as [Hsame | Hdiff].
    - (* same number of digits *)
      assert (Htm : 2 ^ (53 - dm) = tn) by (subst tn; by rewrite Hsame).
      rewrite Htm in *.
      assert (Hbig : 2 ^ 53 + 2 <= q).
      { subst q. apply Z.div_le_lower_bound; lia. }
      destruct Hdx as [-> | ->]; [ lia | ].
      right. split; [ lia | ].
      apply Z.div_le_lower_bound; lia.
    - destruct (Z.eq_dec dn (dm + 1)) as [Hone | Hmore].
      + assert (Htm : 2 ^ (53 - dm) = 2 * tn).
        { subst tn. rewrite <- Z.pow_succ_r by lia. f_equal. lia. }
        rewrite Htm in *.
        assert (Hbig : 2 ^ 52 + 1 <= q).
        { subst q. apply Z.div_le_lower_bound; lia. }
        destruct Hdx as [-> | ->]; [ | left; lia ].
        right. split; [ lia | ]. by rewrite Z.div_1_r.
      + left. lia. }
  destruct Hr as (mF & [(Hf & Hm & Hb) | (Hf & Hm & Hc)]).
  - exists mF, (dn - dm + dx - 106). split; [ done | ].
    assert (2 ^ 52 <= q / 2 ^ (dx - 53)).
    { apply Z.div_le_lower_bound; [ apply Z.pow_pos_nonneg; lia | ].
      destruct Hdx as [-> | ->]; simpl; lia. }
    split; [ lia | ]. split; [ lia | ]. lia.
  - exists mF, (dn - dm + dx - 106 + 1). split; [ done | ].
    split; [ lia | ]. split; [ lia | ]. left. lia.
Qed.


Lemma new_location_zero (nb : Z) : new_location nb 0 = loc_Exact.
Proof.
  unfold new_location, new_location_even, new_location_odd.
  by destruct (Z.even nb).
Qed.

Lemma quotient_not_above (n m : positive) :
  Zpos n <= Zpos m -> Zpos m < 2 ^ 52 ->
  exists (mq : positive) (eq : Z),
    SF64div (binary_normalize prec emax (Zpos n) 0 false)
            (binary_normalize prec emax (Zpos m) 0 false)
    = S754_finite false mq eq
    /\ 2 ^ 52 <= Zpos mq < 2 ^ 53 /\ -110 <= eq
    /\ (eq <= -53 \/ (eq = -52 /\ Zpos mq = 2 ^ 52)).
Proof.
  intros Hle Hm. destruct (Z.eq_dec (Zpos n) (Zpos m)) as [Heq | Hne].
  - (* the quotient of a number by itself is one *)
    injection Heq as ->.
    destruct (normalize_small m ltac:(lia)) as (Pm & -> & HPm & HMm & Hdm).
    rewrite div_normal by lia.
    assert (Hdiv : Zpos Pm * 2 ^ 53 / Zpos Pm = 2 ^ 53).
    { rewrite Z.mul_comm. apply Z.div_mul. lia. }
    assert (Hmod : (Zpos Pm * 2 ^ 53) mod Zpos Pm = 0).
    { rewrite Z.mul_comm. apply Z.mod_mul. lia. }
    rewrite Hdiv, Hmod, new_location_zero.
    exists (Z.to_pos (2 ^ 52)), (-52).
    change (2 ^ 53) with (Zpos (Z.to_pos (2 ^ 53))).
    rewrite (round_aux_exact (Z.to_pos (2 ^ 52)) 1 _ (Z.to_pos (2 ^ 53)))
      by (simpl; lia).
    split; [ f_equal; lia | ]. simpl. lia.
  - destruct (quotient_spec n m)
      as (HMn & HMm & Hdn & Hdm & dx & Hdx & Hq & Hr); [ lia | lia | ].
    pose proof (digits_mono n m ltac:(lia)) as Hmono.
    set (dn := Zpos (digits2_pos n)) in *.
    set (dm := Zpos (digits2_pos m)) in *.
    set (tm := 2 ^ (53 - dm)) in *.
    assert (Htm : 0 < tm) by (apply Z.pow_pos_nonneg; lia).
    set (q := Zpos n * 2 ^ (53 - dn) * 2 ^ 53 / (Zpos m * tm)) in *.
    assert (He : dn - dm + dx - 106 <= -53).
    { destruct (Z.eq_dec dn dm) as [Hsame | Hdiff]; [ | lia ].
      assert (Htn : 2 ^ (53 - dn) = tm) by (subst tm; by rewrite Hsame).
      rewrite Htn in *.
      assert (Hlt : q < 2 ^ 53).
      { subst q. apply Z.div_lt_upper_bound; [ lia | ]. nia. }
      destruct Hdx as [-> | ->]; [ lia | ]. simpl in Hq. lia. }
    assert (Hm1 : 2 ^ 52 <= q / 2 ^ (dx - 53)).
    { apply Z.div_le_lower_bound; [ apply Z.pow_pos_nonneg; lia | ].
      destruct Hdx as [-> | ->]; simpl; lia. }
    destruct Hr as (mF & [(Hf & Hmf & Hb) | (Hf & Hmf & Hc)]).
    + exists mF, (dn - dm + dx - 106). split; [ done | ].
      split; [ lia | ]. split; [ lia | ]. left. lia.
    + exists mF, (dn - dm + dx - 106 + 1). split; [ done | ].
      split; [ lia | ]. split; [ lia | ]. lia.
Qed.


Lemma py_float_spec (n : nat) :
  Z.of_nat n < 2 ^ 53 ->
  Prim2SF (Deployment.py_float n) = binary_normalize prec emax (Z.of_nat n) 0 false.
Proof.
  intros Hn. unfold Deployment.py_float. rewrite FloatAxioms.of_uint63_spec. f_equal.
  rewrite Uint63.of_Z_spec. apply Z.mod_small.
  change Uint63.wB with (2 ^ 63). lia.
Qed.

Lemma hundred_spec :
  Prim2SF 100%float = S754_finite false 7036874417766400 (-46).
Proof. vm_compute. reflexivity. Qed.

(** The percentage of [n] out of [m]: above 100 exactly when [n]
    exceeds [m]. *)
Lemma percentage_above_hundred (n m : nat) :
  (0 < m)%nat -> Z.of_nat n < 2 ^ 52 -> Z.of_nat m < 2 ^ 52 ->
  (100 <? Deployment.py_float n / Deployment.py_float m * 100)%float = true <-> (m < n)%nat.
Proof.
  intros Hm Hnb Hmb.
  rewrite FloatAxioms.ltb_spec, FloatAxioms.mul_spec, FloatAxioms.div_spec,
    !py_float_spec, hundred_spec by lia.
  destruct (Z.of_nat m) as [|pm|pm] eqn:Hpm; try lia.
  destruct (Z.of_nat n) as [|pn|pn] eqn:Hpn; try lia.
  - (* no result yet *)
    destruct (normalize_small pm ltac:(lia)) as (Pm & -> & _).
    split; [ discriminate | lia ].
  - destruct (Z.lt_ge_cases (Zpos pm) (Zpos pn)) as [Hlt | Hge].
    + destruct (quotient_above pn pm Hlt Hnb)
        as (mq & eq & -> & Hmq & Heq & Hab).
      rewrite hundred_times_above by done. split; [ lia | done ].
    + destruct (quotient_not_above pn pm ltac:(lia) Hmb)
        as (mq & eq & -> & Hmq & Heq & Hab).
      rewrite hundred_times_not_above by done. split; [ done | lia ].
Qed.

End Binary64.

(** C10.  [progress_percentage] is [0.0] when there is no plan or the
    plan has no step; otherwise it is the binary64 quotient of the number
    of step results by the number of plan steps, times 100.  Nothing
    clamps it: it is above 100 exactly when more results than plan steps
    are recorded (for lists of fewer than [2^52] elements, where the
    conversions of the lengths are exact). *)
Theorem C10_progress_percentage (d : Deployment.t) :
  (Deployment.plan d = None -> Deployment.progress_percentage d = 0%float)
  /\ (forall p : ExecutionPlan.t,
        Deployment.plan d = Some p ->
        (ExecutionPlan.steps p = [] ->
           Deployment.progress_percentage d = 0%float)
        /\ (ExecutionPlan.steps p <> [] ->
            Deployment.progress_percentage d
            = (Deployment.py_float (length (Deployment.step_results d))
               / Deployment.py_float (length (ExecutionPlan.steps p))
               * 100)%float
            /\ (Z.of_nat (length (Deployment.step_results d)) < 2 ^ 52 ->
                Z.of_nat (length (ExecutionPlan.steps p)) < 2 ^ 52 ->
                ((100 <? Deployment.progress_percentage d)%float = true <->
                 (length (ExecutionPlan.steps p)
                  < length (Deployment.step_results d))%nat)))).
Proof.
  unfold Deployment.progress_percentage. split.
  - intros ->. reflexivity.
  - intros p ->. split.
    + intros ->. reflexivity.
    + destruct (ExecutionPlan.steps p) as [|s l] eqn:Hs; [ done | intros _ ].
      split; [ reflexivity | ]. intros Hresults Hsteps.
      apply percentage_above_hundred; [ simpl; lia | done | done ].
Qed.

(** One result for a one-step plan is 100 percent and two are 200; one
    result for a three-step plan is the binary64 number next below
    100/3. *)
Example progress_of_sample_plans :
  let d := Sample.deployment false DeploymentStatus.EXECUTING
                             (Some Sample.plan) in
  let three := ExecutionPlan.mk "plan-3" [Sample.step; Sample.step; Sample.step]
                                180 "low" "" "" in
  Deployment.progress_percentage
    (Deployment.with_step_results [Sample.result true] d) = 100%float
  /\ Deployment.progress_percentage
       (Deployment.with_step_results
          [Sample.result true; Sample.result true] d) = 200%float
  /\ Deployment.progress_percentage
       (Deployment.with_plan (Some three)
          (Deployment.with_step_results [Sample.result true] d))
     = 0x1.0aaaaaaaaaaaap+5%float
  /\ Prim2SF 0x1.0aaaaaaaaaaaap+5%float
     = S754_finite false 4691249611844266 (-47).
Proof. vm_compute. repeat split. Qed.

(** ** The task state machine and the retry policy *)

Lemma task_transition_accepts (w : World) (x : Task.t) (s : TaskStatus.t) :
  s ∈ TASK_VALID_TRANSITIONS (Task.status x) ->
  Task._transition_to s (w, x) =
    (Ok tt, (snd (utc_now_w w),
             Task.with_touch (fst (utc_now_w w)) (Task.with_status s x))).
Proof.
  intros Hin. unfold Task._transition_to, bind, Task.self; simpl.
  rewrite bool_decide_eq_true_2 by done. reflexivity.
Qed.

Lemma task_transition_rejects (w : World) (x : Task.t) (s : TaskStatus.t) :
  s ∉ TASK_VALID_TRANSITIONS (Task.status x) ->
  Task._transition_to s (w, x) = (Raise InvalidTaskTransitionError, (w, x)).
Proof.
  intros Hin. unfold Task._transition_to, bind, Task.self; simpl.
  rewrite bool_decide_eq_false_2 by done. reflexivity.
Qed.

Local Opaque Task._transition_to.

Ltac unfold_task_call :=
  unfold Task.enqueue, Task.acquire, Task.start, Task.succeed, Task.fail,
    Task.retry, Task.timeout, Task.cancel;
  repeat (unfold bind at 1; simpl).

(** Splits on the next [Task._transition_to] of the goal. *)
Ltac task_transition :=
  match goal with
  | |- context [Task._transition_to ?s (?w', ?x')] =>
      destruct (decide (s ∈ TASK_VALID_TRANSITIONS (Task.status x')))
        as [?Hin|?Hout];
      [ rewrite (task_transition_accepts w' x' s) by assumption
      | rewrite (task_transition_rejects w' x' s) by assumption ]
  end.

(** Only [retry] writes [attempt_number], and nothing writes
    [max_attempts]. *)
Lemma task_call_attempts (w : World) (x : Task.t) (c : Task.call) :
  let x' := snd (snd (Task.run c (w, x))) in
  Task.max_attempts x' = Task.max_attempts x
  /\ (Task.attempt_number x' = Task.attempt_number x
      \/ (Task.attempt_number x' = Task.attempt_number x + 1
          /\ Task.attempt_number x < Task.max_attempts x)).
Proof.
  destruct c; simpl; unfold_task_call.
  1-3, 5, 7-8: task_transition; simpl; auto.
  - destruct output as [[|kv o]|]; simpl; task_transition; simpl; auto.
  - destruct (bool_decide (Task.attempt_number x >= Task.max_attempts x))
      eqn:Hge; simpl; [ auto | ].
    apply bool_decide_eq_false in Hge.
    task_transition; simpl; [ | auto ].
    repeat (unfold bind at 1; simpl).
    task_transition; simpl; split; auto; right; split; auto; lia.
Qed.

(** C3.  Every task the system can hold -- built by the constructor
    with its defaults, [attempt_number = 1] and [max_attempts = 3], and
    taken through any operations -- has [attempt_number <= max_attempts];
    every operation of a task keeps the bound, whether it returns or
    raises.  [retry] raises [MaxRetriesExceededError] exactly when
    [attempt_number >= max_attempts], and then leaves the task as it was.
    Otherwise, on a task in FAILED or TIMED_OUT, it returns, adds one to
    [attempt_number], clears [worker_id] and [error_message], and leaves
    the task in QUEUED, from where ACQUIRED is an allowed successor. *)
Theorem C3_retry_policy (w : World) (x : Task.t) :
  let r := Task.retry (w, x) in
  let x' := snd (snd r) in
  (task_reachable x -> Task.attempt_number x <= Task.max_attempts x)
  /\ (forall c : Task.call,
     Task.attempt_number x <= Task.max_attempts x ->
     Task.attempt_number (snd (snd (Task.run c (w, x))))
       <= Task.max_attempts (snd (snd (Task.run c (w, x)))))
  /\ (raised r = Some MaxRetriesExceededError <->
      Task.attempt_number x >= Task.max_attempts x)
  /\ (Task.attempt_number x >= Task.max_attempts x -> snd r = (w, x))
  /\ (Task.attempt_number x < Task.max_attempts x ->
      Task.status x ∈ [TaskStatus.FAILED; TaskStatus.TIMED_OUT] ->
      fst r = Ok tt
      /\ Task.attempt_number x' = Task.attempt_number x + 1
      /\ Task.worker_id x' = None
      /\ Task.error_message x' = ""
      /\ Task.status x' = TaskStatus.QUEUED
      /\ TaskStatus.ACQUIRED ∈ TASK_VALID_TRANSITIONS (Task.status x')).
Proof.
  intros r x'; subst r x'. split; [ | split; [ | split; [ | split ] ] ].
  - induction 1 as [| x0 c w0 _ IH]; [ simpl; lia | ].
    destruct (task_call_attempts w0 x0 c) as [Hmax [Heq | [Heq Hlt]]];
      rewrite Hmax, Heq; lia.
  - intros c Hle.
    destruct (task_call_attempts w x c) as [Hmax [Heq | [Heq Hlt]]];
      rewrite Hmax, Heq; lia.
  - unfold_task_call.
    destruct (bool_decide (Task.attempt_number x >= Task.max_attempts x))
      eqn:Hge; simpl.
    + apply bool_decide_eq_true in Hge. split; auto.
    + apply bool_decide_eq_false in Hge. split; [ | lia ].
      task_transition; simpl; [ | discriminate ].
      repeat (unfold bind at 1; simpl).
      task_transition; simpl; discriminate.
  - intros Hge. unfold_task_call.
    rewrite bool_decide_eq_true_2 by exact Hge. reflexivity.
  - intros Hlt Hst.
    assert (Hin : TaskStatus.RETRYING ∈ TASK_VALID_TRANSITIONS (Task.status x)).
    { apply list_elem_of_In in Hst. simpl in Hst.
      destruct Hst as [<- | [<- | []]]; simpl; repeat constructor. }
    unfold_task_call.
    rewrite bool_decide_eq_false_2 by lia. simpl.
    rewrite task_transition_accepts by exact Hin.
    simpl. repeat (unfold bind at 1; simpl).
    rewrite task_transition_accepts by (simpl; repeat constructor).
    simpl. repeat split. repeat constructor.
Qed.

(** A failed first attempt is retried: second attempt, queued again. *)
Example retry_failed_task :
  let x := Sample.task "task-1" "dep-1" 5 TaskStatus.FAILED in
  let r := Task.retry (Sample.world, x) in
  fst r = Ok tt
  /\ Task.attempt_number (snd (snd r)) = 2
  /\ Task.status (snd (snd r)) = TaskStatus.QUEUED.
Proof. vm_compute. repeat split. Qed.

(** ** The deployment service *)

Section ExecuteDeployment.
Import DeploymentDomainService.

Lemma materialize_ok (deployment_id : string) (step : ExecutionStep.t)
    (st : State) :
  exists (x : Task.t) (st' : State),
    materialize deployment_id step st = (Ok x, st')
    /\ task_of_step deployment_id step x
    /\ _deployment_store st' = _deployment_store st
    /\ _events st' = _events st.
Proof.
  unfold materialize, in_world, Task.new.
  repeat (unfold bind at 1; simpl).
  unfold Task.enqueue.
  rewrite task_transition_accepts by (simpl; repeat constructor).
  simpl. do 2 eexists. split; [ reflexivity | ].
  unfold task_of_step; simpl. repeat split. lia.
Qed.

Lemma materialize_all (deployment_id : string) (steps : list ExecutionStep.t) :
  forall st : State,
  exists (tasks : list Task.t) (st' : State),
    for_each (materialize deployment_id) steps st = (Ok tasks, st')
    /\ Forall2 (task_of_step deployment_id) steps tasks
    /\ _deployment_store st' = _deployment_store st
    /\ _events st' = _events st.
Proof.
  induction steps as [|step steps IH]; intros st.
  - exists [], st. repeat split. constructor.
  - destruct (materialize_ok deployment_id step st)
      as (x & st1 & Hrun & Hx & Hd1 & He1).
    destruct (IH st1) as (tasks & st2 & Hrest & Hall & Hd2 & He2).
    exists (x :: tasks), st2. simpl.
    unfold bind at 1. rewrite Hrun.
    unfold bind at 1. rewrite Hrest.
    repeat split; [ by constructor | congruence | congruence ].
Qed.

Lemma publish_all (events : list DomainEvent.t) :
  forall st : State,
  exists (units : list unit),
    for_each (fun e => InMemoryEventPublisher.publish
                         (DomainEvent.event_type e) (EventDump e))
             events st
    = (Ok units,
       with_events
         (_events st
            ++ map (fun e => (DomainEvent.event_type e, EventDump e)) events)
         st).
Proof.
  induction events as [|e events IH]; intros st.
  - exists []. simpl. rewrite app_nil_r. by destruct st.
  - destruct (IH (with_events (_events st ++ [(DomainEvent.event_type e,
                                                EventDump e)]) st))
      as (units & Hrest).
    exists (tt :: units). cbn [for_each]. unfold bind at 1.
    unfold InMemoryEventPublisher.publish at 1, modify at 1.
    unfold bind at 1. rewrite Hrest. unfold ret. simpl.
    rewrite <- app_assoc. reflexivity.
Qed.

(** C5 (as amended).  [execute_deployment] raises
    [DeploymentNotFoundError] when the id is unknown and
    [DeploymentPlanMissingError] when the stored deployment has no plan,
    the state being left as it was.  With a plan, it goes on only from
    PLANNED or APPROVED: it then leaves the stored deployment in EXECUTING
    and returns one task per plan step, in plan order, each in QUEUED,
    with [timeout_seconds] twice the step's [estimated_duration_seconds]
    and the step's [idempotency_key], step id and the deployment id.
    From any other status it raises [InvalidStateTransitionError], makes
    no task and leaves the state as it was. *)
Theorem C5_execute_deployment (st : State) (deployment_id : string) :
  let r := execute_deployment deployment_id st in
  (_deployment_store st !! deployment_id = None ->
     r = (Raise DeploymentNotFoundError, st))
  /\ (forall d : Deployment.t,
        _deployment_store st !! deployment_id = Some d ->
        Deployment.id d = deployment_id ->
        (Deployment.plan d = None ->
           r = (Raise DeploymentPlanMissingError, st))
        /\ (forall p : ExecutionPlan.t,
              Deployment.plan d = Some p ->
              (Deployment.status d ∈ [DeploymentStatus.PLANNED;
                                      DeploymentStatus.APPROVED] ->
                 exists (tasks : list Task.t) (d' : Deployment.t),
                   fst r = Ok tasks
                   /\ _deployment_store (snd r) !! deployment_id = Some d'
                   /\ Deployment.status d' = DeploymentStatus.EXECUTING
                   /\ Forall2 (task_of_step deployment_id)
                              (ExecutionPlan.steps p) tasks)
              /\ (Deployment.status d ∉ [DeploymentStatus.PLANNED;
                                         DeploymentStatus.APPROVED] ->
                  r = (Raise InvalidStateTransitionError, st)))).
Proof.
  intros r; subst r.
  unfold execute_deployment, InMemoryDeploymentRepository.get_by_id.
  repeat (unfold bind at 1; simpl). split.
  - intros ->. reflexivity.
  - intros d Hd Hid. rewrite Hd. split.
    + intros ->. reflexivity.
    + intros p ->. split.
      * intros Hst.
        assert (Hin : DeploymentStatus.EXECUTING
                        ∈ VALID_TRANSITIONS (Deployment.status d)).
        { apply list_elem_of_In in Hst. simpl in Hst.
          destruct Hst as [<- | [<- | []]]; simpl; repeat constructor. }
        unfold InMemoryDeploymentRepository.call, Deployment.start_execution.
        repeat (unfold bind at 1; simpl).
        rewrite transition_accepts by exact Hin. simpl.
        match goal with
        | |- context [for_each (materialize ?i) ?l ?s] =>
            destruct (materialize_all i l s)
              as (tasks & st2 & -> & Hall & Hd2 & He2)
        end.
        unfold _publish_events, InMemoryDeploymentRepository.call.
        repeat (unfold bind at 1; simpl).
        match goal with
        | |- context [for_each ?f ?l ?s] =>
            destruct (publish_all l s) as (units & ->)
        end.
        simpl. eexists tasks, _. split; [ reflexivity | ].
        split; [ | split; [ | exact Hall ] ].
        -- rewrite Hid. apply lookup_insert_eq.
        -- reflexivity.
      * intros Hst.
        assert (Hout : DeploymentStatus.EXECUTING
                         ∉ VALID_TRANSITIONS (Deployment.status d)).
        { intros Hin. apply Hst. destruct (Deployment.status d);
            apply list_elem_of_In in Hin; simpl in Hin;
            try (exfalso; intuition discriminate); repeat constructor. }
        unfold InMemoryDeploymentRepository.call, Deployment.start_execution.
        repeat (unfold bind at 1; simpl).
        rewrite transition_rejects by exact Hout. simpl.
        f_equal. destruct st as [w ds ts rs es]; simpl in *.
        unfold with_deployment_store, with_world; simpl. f_equal.
        rewrite Hid. apply insert_id. assumption.
Qed.

End ExecuteDeployment.

(** C5 as stated does not hold: a deployment that has its plan and waits
    for approval is refused by [execute_deployment], which makes no
    task. *)
Lemma C5_counterexample :
  let d := Sample.deployment false DeploymentStatus.AWAITING_APPROVAL
                             (Some Sample.plan) in
  let st := Sample.state [d] [] in
  let r := DeploymentDomainService.execute_deployment "dep-1" st in
  _deployment_store st !! "dep-1" = Some d
  /\ Deployment.plan d = Some Sample.plan
  /\ fst r = Raise InvalidStateTransitionError
  /\ _task_store (snd r) = [].
Proof. vm_compute. repeat split. Qed.

(** An approved deployment with the one-step sample plan: one task,
    QUEUED, with a timeout of 120 seconds for the 60 estimated. *)
Example execute_deployment_approved :
  let d := Sample.deployment false DeploymentStatus.APPROVED
                             (Some Sample.plan) in
  let r := DeploymentDomainService.execute_deployment "dep-1"
             (Sample.state [d] []) in
  exists x : Task.t,
    fst r = Ok [x]
    /\ Task.status x = TaskStatus.QUEUED
    /\ Task.timeout_seconds x = 120
    /\ Task.idempotency_key x = "key-1"
    /\ map fst (_events (snd r)) = ["deployment.started"].
Proof. vm_compute. eexists. repeat split. Qed.

(** The other operations of the service raise when the deployment id is
    unknown. *)
Lemma unknown_deployment_raises (st : State) (deployment_id by_ : string) :
  _deployment_store st !! deployment_id = None ->
  DeploymentDomainService.approve_deployment deployment_id by_ st
    = (Raise DeploymentNotFoundError, st)
  /\ DeploymentDomainService.rollback_deployment deployment_id st
     = (Raise DeploymentNotFoundError, st)
  /\ DeploymentDomainService.execute_deployment deployment_id st
     = (Raise DeploymentNotFoundError, st).
Proof.
  intros Hnone.
  unfold DeploymentDomainService.approve_deployment,
    DeploymentDomainService.rollback_deployment,
    DeploymentDomainService.execute_deployment,
    InMemoryDeploymentRepository.get_by_id.
  repeat (unfold bind at 1; simpl). rewrite Hnone. auto.
Qed.

Lemma dict_get_set {V : Type} (k : string) (v : V) (d : dict V) :
  dict_get k (dict_set k v d) = Some v.
Proof.
  induction d as [|[k' v'] d IH]; simpl.
  - by rewrite decide_True.
  - destruct (decide (k' = k)) as [-> | Hne]; simpl.
    + by rewrite decide_True.
    + by rewrite decide_False.
Qed.

(** What [handle_task_completion] does for a stored task whose
    deployment id is not in the deployment store: [succeed] or [fail] is
    applied to the task -- raising [InvalidTaskTransitionError] when the
    task's status does not allow it -- the task is stored, and the call
    then returns without an error, where the other operations of the
    service raise [DeploymentNotFoundError] (see
    [unknown_deployment_raises]). *)
Lemma completion_without_deployment
    (py_str : dict TaskValue -> string) (st : State) (task_id : string)
    (success : bool) (output : option (dict TaskValue)) (error : string)
    (task : Task.t) :
  let r := DeploymentDomainService.handle_task_completion
             py_str task_id success output error st in
  let outcome := if success then TaskStatus.SUCCEEDED else TaskStatus.FAILED in
  dict_get task_id (_task_store st) = Some task ->
  Task.id task = task_id ->
  _deployment_store st !! Task.deployment_id task = None ->
  _deployment_store (snd r) = _deployment_store st
  /\ _events (snd r) = _events st
  /\ (outcome ∈ TASK_VALID_TRANSITIONS (Task.status task) ->
      fst r = Ok tt
      /\ exists task' : Task.t,
           dict_get task_id (_task_store (snd r)) = Some task'
           /\ Task.status task' = outcome)
  /\ (outcome ∉ TASK_VALID_TRANSITIONS (Task.status task) ->
      fst r = Raise InvalidTaskTransitionError).
Proof.
  intros r outcome; subst r outcome.
  unfold DeploymentDomainService.handle_task_completion,
    InMemoryTaskRepository.get_by_id.
  repeat (unfold bind at 1; simpl).
  intros -> Hid Hnone.
  unfold InMemoryTaskRepository.call, InMemoryTaskRepository.update,
    InMemoryTaskRepository.save, InMemoryDeploymentRepository.get_by_id.
  destruct success; [ destruct output as [[|kv o]|] | ];
    unfold_task_call; task_transition; simpl;
    repeat (unfold bind at 1; simpl); rewrite ?Hnone; simpl;
    (split; [ done | ]); (split; [ done | ]); split;
    try (intros ?; done).
  all: intros _; split; [ done | ].
  all: eexists; split; [ rewrite Hid; apply dict_get_set | done ].
Qed.

(** C7 (as amended).  [handle_task_completion] called with a task id
    that is not in the task store returns normally and changes nothing:
    the lookup is followed by a guard, and there is no error for a task
    that is not found. *)
Theorem C7_unknown_task_returns_normally
    (py_str : dict TaskValue -> string) (st : State) (task_id : string)
    (success : bool) (output : option (dict TaskValue)) (error : string) :
  dict_get task_id (_task_store st) = None ->
  DeploymentDomainService.handle_task_completion
    py_str task_id success output error st
  = (Ok tt, st).
Proof.
  intros Hnone.
  unfold DeploymentDomainService.handle_task_completion,
    InMemoryTaskRepository.get_by_id.
  repeat (unfold bind at 1; simpl). by rewrite Hnone.
Qed.

Lemma C7_unknown_task_witness :
  let st := Sample.state []
              [Sample.task "task-1" "dep-1" 5 TaskStatus.RUNNING] in
  dict_get "no-such-task" (_task_store st) = None
  /\ DeploymentDomainService.handle_task_completion
       (fun _ : dict TaskValue => "{}") "no-such-task" false None "boom" st
     = (Ok tt, st).
Proof.
  intros st.
  assert (Hnone : dict_get "no-such-task" (_task_store st) = None)
    by reflexivity.
  split; [ exact Hnone | ].
  exact (C7_unknown_task_returns_normally _ st "no-such-task" false None
           "boom" Hnone).
Defined.

(** C7 as stated does not hold: a completion for a task id that is not
    in the store raises nothing; it returns normally, and the state is
    as before. *)
Lemma C7_counterexample :
  let py_str := fun _ : dict TaskValue => "{}" in
  let st := Sample.state []
              [Sample.task "task-1" "dep-1" 5 TaskStatus.RUNNING] in
  let r := DeploymentDomainService.handle_task_completion
             py_str "no-such-task" true None "" st in
  dict_get "no-such-task" (_task_store st) = None
  /\ raised r = None
  /\ r = (Ok tt, st).
Proof. vm_compute. repeat split. Qed.

(** ** The drift service *)

Section ScanDeployment.
Variable detect_drift :
  string -> dict ResourceSpec.t -> World -> Res DriftReport.t * World.

(** C8.  [scan_deployment] raises [DriftScanError], changing nothing,
    when the deployment id is unknown.  For a stored deployment it hands
    the expected state built from the plan to the detector; when the
    detector returns a report, the call returns that report, files it in
    the drift store under its id, and publishes one [drift.detected]
    event carrying the deployment id, the number of items and the value
    of [max_severity] when the report has at least one item -- and
    publishes nothing when it has none.  When the detector raises, so
    does the call, and nothing is stored or published. *)
Theorem C8_scan_deployment (st : State) (deployment_id : string) :
  let r := DriftDomainService.scan_deployment detect_drift deployment_id st in
  (_deployment_store st !! deployment_id = None ->
     r = (Raise DriftScanError, st))
  /\ (forall d : Deployment.t,
        _deployment_store st !! deployment_id = Some d ->
        let detected :=
          detect_drift deployment_id
            (DriftDomainService._build_expected_state d) (world st) in
        (forall report : DriftReport.t,
           fst detected = Ok report ->
           fst r = Ok report
           /\ _drift_store (snd r)
              = <[DriftReport.id report := report]> (_drift_store st)
           /\ _events (snd r)
              = _events st
                  ++ (if DriftReport.has_drift report
                      then [("drift.detected",
                             DriftDetectedPayload deployment_id
                               (Z.of_nat (length (DriftReport.items report)))
                               (DriftSeverity.value
                                  (DriftReport.max_severity report)))]
                      else [])
           /\ (DriftReport.has_drift report = true <->
               DriftReport.items report <> [])
           /\ _deployment_store (snd r) = _deployment_store st
           /\ _task_store (snd r) = _task_store st)
        /\ (forall e : Exn,
              fst detected = Raise e ->
              fst r = Raise e
              /\ _drift_store (snd r) = _drift_store st
              /\ _events (snd r) = _events st)).
Proof.
  intros r; subst r.
  unfold DriftDomainService.scan_deployment,
    InMemoryDeploymentRepository.get_by_id.
  repeat (unfold bind at 1; simpl). split.
  - intros ->. reflexivity.
  - intros d ->. cbv zeta.
    destruct (detect_drift deployment_id
                (DriftDomainService._build_expected_state d) (world st))
      as [[report | e] w'] eqn:Hdet; simpl; split.
    + intros report' [= <-].
      unfold DriftReport.has_drift.
      destruct (DriftReport.items report) as [|i items] eqn:Hitems; simpl.
      * rewrite app_nil_r. repeat split; (done || lia).
      * repeat split; (done || lia).
    + intros e [=].
    + intros report [=].
    + intros e' [= <-]. repeat split.
Qed.

End ScanDeployment.

(** A scan that finds one changed property stores the report and
    publishes [drift.detected] with the count and the severity. *)
Example scan_with_drift :
  let d := Sample.deployment false DeploymentStatus.COMPLETED
                             (Some Sample.plan) in
  let r := DriftDomainService.scan_deployment Sample.detector "dep-1"
             (Sample.state [d] []) in
  raised r = None
  /\ _events (snd r)
     = [("drift.detected", DriftDetectedPayload "dep-1" 1 "medium")]
  /\ raised (DriftDomainService.scan_deployment Sample.detector "dep-2"
               (Sample.state [d] []))
     = Some DriftScanError.
Proof. vm_compute. repeat split. Qed.

(** ** Claiming the next queued task *)

Section AcquireNext.
Import InMemoryTaskRepository.

Lemma insert_sorted_perm {A : Type} (key : A -> Z) (x : A) (l : list A) :
  insert_sorted key x l ≡ₚ x :: l.
Proof.
  induction l as [|y l IH]; simpl; [ done | ].
  case_bool_decide; [ done | ].
  rewrite IH. apply Permutation_swap.
Qed.

Lemma sorted_perm {A : Type} (key : A -> Z) (l : list A) :
  sorted key l ≡ₚ l.
Proof.
  induction l as [|x l IH]; simpl; [ done | ].
  unfold sorted in *. simpl. rewrite insert_sorted_perm. by rewrite IH.
Qed.

Lemma find_filter {A : Type} (P : A -> Prop) `{forall a, Decision (P a)}
    (l : list A) :
  List.find (fun a => bool_decide (P a)) l = head (filter P l).
Proof.
  induction l as [|a l IH]; simpl; [ done | ].
  rewrite filter_cons. case_bool_decide; destruct (decide (P a)); done.
Qed.

(** The first queued task in [created_at] order, when there is one
    queued task, is that task. *)
Lemma find_only_queued (st : State) (x : Task.t) :
  queued_tasks st = [x] ->
  List.find (fun y => bool_decide (Task.status y = TaskStatus.QUEUED))
            (sorted Task.created_at (dict_values (_task_store st)))
  = Some x.
Proof.
  unfold queued_tasks. intros Hq.
  rewrite find_filter.
  assert (Hp : filter (fun y => Task.status y = TaskStatus.QUEUED)
                 (sorted Task.created_at (dict_values (_task_store st)))
               ≡ₚ [x]).
  { rewrite sorted_perm. by rewrite Hq. }
  apply Permutation_singleton_r in Hp. by rewrite Hp.
Qed.

Lemma find_none_queued (st : State) :
  queued_tasks st = [] ->
  List.find (fun y => bool_decide (Task.status y = TaskStatus.QUEUED))
            (sorted Task.created_at (dict_values (_task_store st)))
  = None.
Proof.
  unfold queued_tasks. intros Hq.
  rewrite find_filter.
  assert (Hp : filter (fun y => Task.status y = TaskStatus.QUEUED)
                 (sorted Task.created_at (dict_values (_task_store st)))
               ≡ₚ []).
  { rewrite sorted_perm. by rewrite Hq. }
  apply Permutation_nil_r in Hp. by rewrite Hp.
Qed.

(** Replacing the only queued task by one that is not queued leaves no
    queued task. *)
Lemma dict_set_only_queued (store : dict Task.t) (x x' : Task.t) :
  store_ok store ->
  filter (fun y => Task.status y = TaskStatus.QUEUED) (dict_values store)
    = [x] ->
  Task.status x' <> TaskStatus.QUEUED ->
  filter (fun y => Task.status y = TaskStatus.QUEUED)
         (dict_values (dict_set (Task.id x) x' store)) = [].
Proof.
  intros [Hnd Hkeys] Hq Hx'. unfold dict_values in *.
  induction store as [|[k v] store IH]; simpl in *; [ done | ].
  apply NoDup_cons in Hnd as [Hk Hnd].
  apply Forall_cons in Hkeys as [Hkv Hkeys]. simpl in Hkv.
  rewrite filter_cons in Hq.
  destruct (decide (k = Task.id x)) as [-> | Hne]; simpl.
  - rewrite filter_cons. rewrite decide_False by done.
    destruct (decide (Task.status v = TaskStatus.QUEUED)).
    + by injection Hq.
    + exfalso. apply Hk.
      assert (Hin : x ∈ filter (fun y => Task.status y = TaskStatus.QUEUED)
                        (map snd store)) by (rewrite Hq; left).
      apply list_elem_of_filter in Hin as [_ Hin].
      apply list_elem_of_fmap in Hin as ([k' v'] & -> & Hin).
      apply list_elem_of_fmap. exists (k', v'). split; [ | done ].
      rewrite Forall_forall in Hkeys. by apply Hkeys in Hin.
  - rewrite filter_cons.
    destruct (decide (Task.status v = TaskStatus.QUEUED)).
    + exfalso. injection Hq as -> _. by apply Hne.
    + by apply IH.
Qed.

Lemma acquire_next_one_queued (st : State) (x : Task.t) (worker_id : string) :
  store_ok (_task_store st) ->
  queued_tasks st = [x] ->
  exists x' : Task.t,
    fst (acquire_next worker_id st) = Ok (Some x')
    /\ Task.id x' = Task.id x
    /\ Task.status x' = TaskStatus.ACQUIRED
    /\ Task.worker_id x' = Some worker_id
    /\ queued_tasks (snd (acquire_next worker_id st)) = [].
Proof.
  intros Hok Hq.
  assert (Hst : Task.status x = TaskStatus.QUEUED).
  { assert (Hin : x ∈ queued_tasks st) by (rewrite Hq; left).
    by apply list_elem_of_filter in Hin as [? _]. }
  set (x' := Task.with_worker_id (Some worker_id)
               (Task.with_touch (fst (utc_now_w (world st)))
                  (Task.with_status TaskStatus.ACQUIRED x))).
  assert (Hrun : acquire_next worker_id st
                 = (Ok (Some x'),
                    with_task_store
                      (dict_set (Task.id x) x'
                         (dict_set (Task.id x) x' (_task_store st)))
                      (with_world (snd (utc_now_w (world st))) st))).
  { unfold acquire_next. unfold bind at 1. simpl.
    rewrite (find_only_queued st x Hq).
    unfold call, Task.acquire, save. repeat (unfold bind at 1; simpl).
    rewrite task_transition_accepts
      by (rewrite Hst; simpl; repeat constructor).
    reflexivity. }
  rewrite Hrun. simpl. exists x'. repeat split.
  unfold queued_tasks; simpl.
  assert (Hx' : Task.status x' <> TaskStatus.QUEUED) by done.
  clearbody x'.
  assert (H1 : filter (fun y => Task.status y = TaskStatus.QUEUED)
                 (dict_values (dict_set (Task.id x) x' (_task_store st)))
               = []) by (by apply dict_set_only_queued).
  assert (Hnil : forall (d : dict Task.t),
             filter (fun y => Task.status y = TaskStatus.QUEUED)
                    (dict_values d) = [] ->
             filter (fun y => Task.status y = TaskStatus.QUEUED)
                    (dict_values (dict_set (Task.id x) x' d)) = []).
  { clear -Hx'. unfold dict_values. induction d as [|[k v] d IH]; simpl.
    - intros _. rewrite filter_cons. by rewrite decide_False.
    - rewrite filter_cons.
      destruct (decide (Task.status v = TaskStatus.QUEUED)); [ done | ].
      intros Hd. destruct (decide (k = Task.id x)); simpl;
        rewrite filter_cons.
      + by rewrite decide_False.
      + rewrite decide_False by done. by apply IH. }
  by apply Hnil.
Qed.

Lemma acquire_next_none_queued (st : State) (worker_id : string) :
  queued_tasks st = [] ->
  acquire_next worker_id st = (Ok None, st).
Proof.
  intros Hq. unfold acquire_next. unfold bind at 1. simpl.
  by rewrite (find_none_queued st Hq).
Qed.

End AcquireNext.

Section TwoCallers.
Import Scheduler.

Lemma step_inv (st : State) (callers : list caller) (cfg : config) :
  step (st, callers) cfg ->
  exists (i : nat) (worker_id : string),
    callers !! i = Some (Waiting worker_id)
    /\ cfg = (snd (InMemoryTaskRepository.acquire_next worker_id st),
              <[i := Returned worker_id
                       (fst (InMemoryTaskRepository.acquire_next worker_id st))]>
                callers).
Proof. inversion 1; subst. eauto. Qed.

(** Once every caller has returned, the scheduler has nothing to run. *)
Lemma finished_stuck (st : State) (callers : list caller) (cfg : config) :
  Forall has_returned callers ->
  rtc step (st, callers) cfg -> cfg = (st, callers).
Proof.
  intros Hall Hrtc. inversion Hrtc as [|? cfg1 ? Hs _]; subst; [ done | ].
  apply step_inv in Hs as (i & wk & Hi & _).
  rewrite Forall_forall in Hall.
  apply list_elem_of_lookup_2 in Hi. apply Hall in Hi. done.
Qed.

(** The run in which [first] is scheduled before [second]. *)
Lemma first_caller_wins (st : State) (x : Task.t) (first second : string) :
  store_ok (_task_store st) ->
  queued_tasks st = [x] ->
  let st1 := snd (InMemoryTaskRepository.acquire_next first st) in
  exists t : Task.t,
    fst (InMemoryTaskRepository.acquire_next first st) = Ok (Some t)
    /\ InMemoryTaskRepository.acquire_next second st1 = (Ok None, st1)
    /\ Task.id t = Task.id x
    /\ Task.status t = TaskStatus.ACQUIRED
    /\ Task.worker_id t = Some first.
Proof.
  intros Hok Hq st1.
  destruct (acquire_next_one_queued st x first Hok Hq)
    as (t & Hr & Hid & Hst & Hw & Hq1).
  exists t. repeat split; try done.
  by apply acquire_next_none_queued.
Qed.

(** C9.  Two callers of [acquire_next] run concurrently against a task
    store (every task filed under its own id) that holds exactly one
    QUEUED task.  Whatever order the scheduler runs them in, both calls
    return, exactly one of them returns the task -- now ACQUIRED and
    carrying that caller's worker id -- and the other returns [None]. *)
Theorem C9_acquire_next_exactly_one (st : State) (x : Task.t)
    (c1 c2 : string) :
  store_ok (_task_store st) ->
  queued_tasks st = [x] ->
  (exists cfg : config,
     rtc step (st, [Waiting c1; Waiting c2]) cfg /\ finished cfg)
  /\ forall cfg : config,
       rtc step (st, [Waiting c1; Waiting c2]) cfg ->
       finished cfg ->
       exists t : Task.t,
         Task.id t = Task.id x
         /\ Task.status t = TaskStatus.ACQUIRED
         /\ ((snd cfg = [Returned c1 (Ok (Some t)); Returned c2 (Ok None)]
              /\ Task.worker_id t = Some c1)
             \/ (snd cfg = [Returned c1 (Ok None); Returned c2 (Ok (Some t))]
                 /\ Task.worker_id t = Some c2)).
Proof.
  intros Hok Hq. split.
  - eexists. split.
    + eapply rtc_l; [ by apply (step_run _ _ 0%nat c1) | ].
      eapply rtc_l; [ by apply (step_run _ _ 1%nat c2) | ].
      apply rtc_refl.
    + repeat constructor.
  - intros cfg Hrtc Hfin.
    inversion Hrtc as [|? cfg1 ? Hs1 Hr1]; subst.
    { inversion Hfin as [|? ? Hw _]; subst. destruct Hw. }
    apply step_inv in Hs1 as (i & wk & Hi & ->).
    destruct i as [|[|i]]; simpl in Hi; [ | | done ];
      injection Hi as <-; simpl in Hr1.
    + (* c1 runs first *)
      destruct (first_caller_wins st x c1 c2 Hok Hq)
        as (t & Hr & Hsecond & Hid & Hst & Hw).
      rewrite Hr in Hr1.
      inversion Hr1 as [|? cfg2 ? Hs2 Hr2]; subst.
      { inversion Hfin as [|? ? _ Hrest]; subst.
        inversion Hrest as [|? ? Hw2 _]; subst. destruct Hw2. }
      apply step_inv in Hs2 as (j & wk & Hj & ->).
      destruct j as [|[|j]]; simpl in Hj; [ done | | done ].
      injection Hj as <-. rewrite Hsecond in Hr2. simpl in Hr2.
      apply finished_stuck in Hr2; [ | repeat constructor ].
      subst cfg. exists t. repeat split; try done. by left.
    + (* c2 runs first *)
      destruct (first_caller_wins st x c2 c1 Hok Hq)
        as (t & Hr & Hsecond & Hid & Hst & Hw).
      rewrite Hr in Hr1.
      inversion Hr1 as [|? cfg2 ? Hs2 Hr2]; subst.
      { inversion Hfin as [|? ? Hw1 _]; subst. destruct Hw1. }
      apply step_inv in Hs2 as (j & wk & Hj & ->).
      destruct j as [|[|j]]; simpl in Hj; [ | done | done ].
      injection Hj as <-. rewrite Hsecond in Hr2. simpl in Hr2.
      apply finished_stuck in Hr2; [ | repeat constructor ].
      subst cfg. exists t. repeat split; try done. by right.
Qed.

End TwoCallers.

(** C9 on a store with one queued task among two. *)
Lemma C9_acquire_next_witness :
  let st := Sample.state []
              [Sample.task "task-1" "dep-1" 5 TaskStatus.SUCCEEDED;
               Sample.task "task-2" "dep-1" 7 TaskStatus.QUEUED] in
  let x := Sample.task "task-2" "dep-1" 7 TaskStatus.QUEUED in
  let start := (st, [Scheduler.Waiting "w1"; Scheduler.Waiting "w2"]) in
  store_ok (_task_store st)
  /\ queued_tasks st = [x]
  /\ (exists cfg : Scheduler.config,
        rtc Scheduler.step start cfg /\ Scheduler.finished cfg)
  /\ forall cfg : Scheduler.config,
       rtc Scheduler.step start cfg ->
       Scheduler.finished cfg ->
       exists t : Task.t,
         Task.id t = "task-2"
         /\ Task.status t = TaskStatus.ACQUIRED
         /\ ((snd cfg = [Scheduler.Returned "w1" (Ok (Some t));
                         Scheduler.Returned "w2" (Ok None)]
              /\ Task.worker_id t = Some "w1")
             \/ (snd cfg = [Scheduler.Returned "w1" (Ok None);
                            Scheduler.Returned "w2" (Ok (Some t))]
                 /\ Task.worker_id t = Some "w2")).
Proof.
  intros st x start.
  assert (Hok : store_ok (_task_store st)).
  { split; simpl.
    - compute_done.
    - repeat constructor. }
  assert (Hq : queued_tasks st = [x]) by reflexivity.
  split; [ exact Hok | split; [ exact Hq | ] ].
  exact (C9_acquire_next_exactly_one st x "w1" "w2" Hok Hq).
Defined.

(** ** The planner and the wave partition *)

Section Waves.
Import ExecutionPlan.

Lemma list_remove_middle {A : Type} `{EqDecision A} (x : A)
    (pre l : list A) :
  x ∉ pre -> list_remove x (pre ++ x :: l) = Some (pre ++ l).
Proof.
  induction pre as [|y pre IH]; simpl; intros Hx.
  - by rewrite decide_True.
  - apply not_elem_of_cons in Hx as [Hne Hx].
    rewrite decide_False by done. by rewrite IH.
Qed.

(** Retiring the steps selected by a filter, in order, leaves the
    others, in order. *)
Lemma retire_filter (P : ExecutionStep.t -> Prop)
    `{Hdec : forall s, Decision (P s)} (l : list ExecutionStep.t) :
  forall (pre : list ExecutionStep.t) (completed : gset string),
    Forall (fun s => ~ P s) pre ->
    retire (filter P l) completed (pre ++ l)
    = Some (list_to_set (map ExecutionStep.step_id (filter P l)) ∪ completed,
            pre ++ filter (fun s => ~ P s) l).
Proof.
  induction l as [|a l IH]; intros pre completed Hpre.
  - simpl. by rewrite (left_id_L ∅ (∪)).
  - rewrite !filter_cons. destruct (decide (P a)) as [Ha | Ha].
    + rewrite decide_False by tauto. simpl.
      rewrite list_remove_middle.
      * rewrite IH by done. simpl.
        by rewrite (assoc_L (∪)), (comm_L (∪) _ {[ExecutionStep.step_id a]}).
      * intros Hin. rewrite Forall_forall in Hpre. by apply (Hpre a).
    + rewrite decide_True by done.
      replace (pre ++ a :: l) with ((pre ++ [a]) ++ l)
        by (by rewrite <- app_assoc).
      rewrite IH.
      * by rewrite <- app_assoc.
      * apply Forall_app. split; [ done | by constructor ].
Qed.

(** One iteration of the loop: the wave, and what is left for the next
    iteration. *)
Lemma waves_loop_step (fuel : nat) (completed : gset string)
    (first : ExecutionStep.t) (rest : list ExecutionStep.t) :
  let remaining := first :: rest in
  let eligible := filter (fun s => ready completed s = true) remaining in
  waves_loop (S fuel) completed remaining
  = match eligible with
    | [] =>
        match waves_loop fuel ({[ ExecutionStep.step_id first ]} ∪ completed)
                         rest with
        | Some waves => Some ([first] :: waves)
        | None => None
        end
    | _ :: _ =>
        match waves_loop fuel
                (list_to_set (map ExecutionStep.step_id eligible) ∪ completed)
                (filter (fun s => ~ ready completed s = true) remaining) with
        | Some waves => Some (eligible :: waves)
        | None => None
        end
    end.
Proof.
  intros remaining eligible. subst remaining eligible. cbn [waves_loop].
  destruct (filter (fun s => ready completed s = true) (first :: rest))
    as [|e es] eqn:Hel.
  - cbn [retire list_remove]. rewrite decide_True by done. reflexivity.
  - rewrite <- Hel.
    rewrite (retire_filter (fun s => ready completed s = true)
                           (first :: rest) [] completed) by constructor.
    reflexivity.
Qed.

(** The loop ends within [len(remaining)] iterations and hands out every
    remaining step. *)
Lemma waves_loop_total (fuel : nat) :
  forall (completed : gset string) (remaining : list ExecutionStep.t),
    (length remaining <= fuel)%nat ->
    exists waves : list (list ExecutionStep.t),
      waves_loop fuel completed remaining = Some waves
      /\ concat waves ≡ₚ remaining.
Proof.
  induction fuel as [|fuel IH]; intros completed remaining Hlen.
  - destruct remaining; [ | simpl in Hlen; lia ]. by exists [].
  - destruct remaining as [|first rest]; [ by exists [] | ].
    rewrite waves_loop_step.
    destruct (filter (fun s => ready completed s = true) (first :: rest))
      as [|e es] eqn:Hel.
    + destruct (IH ({[ ExecutionStep.step_id first ]} ∪ completed) rest)
        as (waves & -> & Hperm); [ simpl in Hlen; lia | ].
      exists ([first] :: waves). split; [ done | ]. simpl. by rewrite Hperm.
    + set (rest' := filter (fun s => ~ ready completed s = true)
                           (first :: rest)).
      assert (Hsplit : (e :: es) ++ rest' ≡ₚ first :: rest).
      { rewrite <- Hel. subst rest'.
        apply filter_app_complement. }
      assert (Hlen' : (length rest' <= fuel)%nat).
      { apply Permutation_length in Hsplit.
        rewrite length_app in Hsplit. simpl in *. lia. }
      destruct (IH (list_to_set (map ExecutionStep.step_id (e :: es))
                      ∪ completed) rest' Hlen')
        as (waves & -> & Hperm).
      exists ((e :: es) :: waves). split; [ done | ].
      cbn [concat]. by rewrite Hperm.
Qed.

(** [get_execution_order] returns for every plan, and hands out every
    step. *)
Lemma get_execution_order_total (p : ExecutionPlan.t) :
  exists waves : list (list ExecutionStep.t),
    get_execution_order p = Some waves /\ concat waves ≡ₚ steps p.
Proof. apply waves_loop_total. done. Qed.

Lemma ready_spec (completed : gset string) (s : ExecutionStep.t) :
  ready completed s = true
  <-> forall d : string, d ∈ ExecutionStep.dependencies s -> d ∈ completed.
Proof.
  unfold ready. rewrite forallb_forall. split.
  - intros Hall d Hd. apply list_elem_of_In in Hd.
    by apply Hall, bool_decide_eq_true in Hd.
  - intros Hall d Hd. apply bool_decide_eq_true, Hall.
    by apply list_elem_of_In.
Qed.

Lemma exists_least {A : Type} (f : A -> nat) (l : list A) :
  l <> [] ->
  exists x : A, x ∈ l /\ forall y : A, y ∈ l -> (f x <= f y)%nat.
Proof.
  induction l as [|a l IH]; [ done | intros _ ].
  destruct l as [|b l].
  - exists a. split; [ left | ].
    intros y Hy. apply list_elem_of_singleton in Hy as ->. lia.
  - destruct IH as (x & Hx & Hmin); [ done | ].
    destruct (decide (f a <= f x)%nat) as [Hle | Hgt].
    + exists a. split; [ left | ].
      intros y Hy. apply elem_of_cons in Hy as [-> | Hy]; [ lia | ].
      specialize (Hmin y Hy). lia.
    + exists x. split; [ by right | ].
      intros y Hy. apply elem_of_cons in Hy as [-> | Hy]; [ lia | ].
      by apply Hmin.
Qed.

Lemma some_step_ready (rank : string -> nat) (completed : gset string)
    (remaining : list ExecutionStep.t) :
  remaining <> [] ->
  pending_below rank completed remaining ->
  filter (fun s => ready completed s = true) remaining <> [].
Proof.
  intros Hne Hinv.
  destruct (exists_least (fun s => rank (ExecutionStep.step_id s))
                         remaining Hne) as (s & Hs & Hmin).
  assert (Hready : ready completed s = true).
  { apply ready_spec. intros d Hd.
    destruct (Hinv s d Hs Hd) as [Hc | [(s' & Hs' & <-) Hlt]]; [ done | ].
    specialize (Hmin s' Hs'). simpl in Hmin. lia. }
  intros Hnil.
  assert (Hin : s ∈ filter (fun s => ready completed s = true) remaining)
    by (by apply list_elem_of_filter).
  rewrite Hnil in Hin. by apply elem_of_nil in Hin.
Qed.

Lemma wave_of_nil (s : ExecutionStep.t) (i : nat) : ~ wave_of [] s i.
Proof. intros (wave & Hw & _). by rewrite lookup_nil in Hw. Qed.

(** With acyclic dependencies every wave is selected by readiness, and a
    dependency is completed before the loop starts or retired by an
    earlier wave. *)
Lemma waves_loop_ordered (rank : string -> nat) (fuel : nat) :
  forall (completed : gset string) (remaining : list ExecutionStep.t)
         (waves : list (list ExecutionStep.t)),
    waves_loop fuel completed remaining = Some waves ->
    pending_below rank completed remaining ->
    forall (i : nat) (s : ExecutionStep.t) (d : string),
      wave_of waves s i -> d ∈ ExecutionStep.dependencies s ->
      d ∈ completed \/ settled_before waves i d.
Proof.
  induction fuel as [|fuel IH]; intros completed remaining waves Hrun Hinv
                                       i s d Hw Hd.
  - destruct remaining; [ | done ]. injection Hrun as <-.
    by apply wave_of_nil in Hw.
  - destruct remaining as [|first rest].
    { injection Hrun as <-. by apply wave_of_nil in Hw. }
    rewrite waves_loop_step in Hrun.
    pose proof (some_step_ready rank completed (first :: rest)
                  ltac:(done) Hinv) as Hne.
    destruct (filter (fun s => ready completed s = true) (first :: rest))
      as [|e es] eqn:Hel; [ done | clear Hne ].
    set (wave := e :: es) in *.
    set (completed' := list_to_set (map ExecutionStep.step_id wave)
                         ∪ completed) in *.
    set (remaining' := filter (fun s => ~ ready completed s = true)
                              (first :: rest)) in *.
    destruct (waves_loop fuel completed' remaining') as [waves'|] eqn:Hrest;
      [ | done ].
    injection Hrun as <-.
    assert (Hinv' : pending_below rank completed' remaining').
    { intros s0 d0 Hs0 Hd0.
      apply list_elem_of_filter in Hs0 as [_ Hs0].
      destruct (Hinv s0 d0 Hs0 Hd0) as [Hc | [(s' & Hs' & Hid) Hlt]].
      - left. apply elem_of_union_r, Hc.
      - destruct (decide (ready completed s' = true)) as [Hr | Hr].
        + left. apply elem_of_union_l, elem_of_list_to_set.
          apply list_elem_of_fmap. exists s'. split; [ done | ].
          subst wave. rewrite <- Hel. by apply list_elem_of_filter.
        + right. split; [ | done ]. exists s'. split; [ | done ].
          by apply list_elem_of_filter. }
    destruct i as [|i].
    + (* the first wave holds ready steps only *)
      left. destruct Hw as (wave0 & [= <-] & Hs).
      subst wave. rewrite <- Hel in Hs.
      apply list_elem_of_filter in Hs as [Hr _].
      by apply (proj1 (ready_spec completed s) Hr).
    + assert (Hw' : wave_of waves' s i).
      { destruct Hw as (wave0 & Hl & Hs). by exists wave0. }
      destruct (IH completed' remaining' waves' Hrest Hinv' i s d Hw' Hd)
        as [Hc | (j & s' & Hj & (wave0 & Hl & Hs') & Hid)].
      * apply elem_of_union in Hc as [Hc | Hc]; [ | by left ].
        right. apply elem_of_list_to_set, list_elem_of_fmap in Hc
          as (s' & -> & Hs').
        exists 0%nat, s'. split; [ lia | ]. split; [ | done ].
        by exists wave.
      * right. exists (S j), s'. split; [ lia | ]. split; [ | done ].
        by exists wave0.
Qed.

(** Distinct steps handed out once each sit in exactly one wave. *)
Lemma partitions_of_perm (waves : list (list ExecutionStep.t))
    (steps : list ExecutionStep.t) :
  NoDup steps -> concat waves ≡ₚ steps -> partitions waves steps.
Proof.
  intros Hnd Hperm. split; [ done | ].
  rewrite <- Hperm in Hnd. intros s Hs. rewrite <- Hperm in Hs.
  clear Hperm steps. revert Hnd Hs.
  induction waves as [|wave waves IH]; simpl; intros Hnd Hs.
  - by apply elem_of_nil in Hs.
  - apply NoDup_app in Hnd as (Hw & Hdisj & Hrest).
    apply elem_of_app in Hs as [Hs | Hs].
    + exists 0%nat. split; [ by exists wave | ].
      intros [|j] (wave' & Hl & Hs'); [ done | ]. exfalso.
      apply (Hdisj s Hs). apply list_elem_of_In, in_concat.
      exists wave'. split; apply list_elem_of_In; [ | done ].
      simpl in Hl. by apply list_elem_of_lookup_2 in Hl.
    + destruct (IH Hrest Hs) as (i & (wave' & Hl & Hs') & Huniq).
      exists (S i). split; [ by exists wave' | ].
      intros [|j] (wave'' & Hl' & Hs'').
      * exfalso. injection Hl' as <-. by apply (Hdisj s).
      * f_equal. apply Huniq. by exists wave''.
Qed.

End Waves.

Section Planner.
Import RuleBasedPlanningEngine.

Lemma fresh_ids_nil (w : World) : fresh_ids w w [].
Proof.
  split; [ done | ]. split; [ done | ].
  exists []. repeat split; constructor.
Qed.

Lemma fresh_ids_app (w w1 w2 : World) (s1 s2 : list ExecutionStep.t) :
  fresh_ids w w1 s1 -> fresh_ids w1 w2 s2 -> fresh_ids w w2 (s1 ++ s2).
Proof.
  intros (Hu1 & Hf1 & js1 & Hm1 & Hn1 & Hr1)
         (Hu2 & Hf2 & js2 & Hm2 & Hn2 & Hr2).
  split; [ congruence | ]. split; [ lia | ].
  exists (js1 ++ js2). rewrite !map_app, Hm1, Hm2, Hu1.
  split; [ done | ]. split.
  - apply NoDup_app. split; [ done | ]. split; [ | done ].
    intros j Hj1 Hj2. rewrite Forall_forall in Hr1, Hr2.
    specialize (Hr1 j Hj1). specialize (Hr2 j Hj2). lia.
  - apply Forall_app. split.
    + eapply Forall_impl; [ exact Hr1 | ]. simpl. intros. lia.
    + eapply Forall_impl; [ exact Hr2 | ]. simpl. intros. lia.
Qed.

Lemma fresh_ids_distinct (w w' : World) (steps : list ExecutionStep.t) :
  unique_ids w -> fresh_ids w w' steps ->
  NoDup (map ExecutionStep.step_id steps).
Proof.
  intros Huniq (_ & _ & js & -> & Hnd & _).
  apply NoDup_fmap_2_strong; [ | done ].
  intros i j _ _. apply Huniq.
Qed.

Lemma new_step_fresh (name description : string) (spec : ResourceSpec.t)
    (duration : Z) (deps : list string) (w : World) :
  let r := new_step name description spec duration deps w in
  fresh_ids w (snd r) [fst r]
  /\ ExecutionStep.step_id (fst r) = uuid w (fresh w)
  /\ ExecutionStep.dependencies (fst r) = deps
  /\ ExecutionStep.resource_spec (fst r) = spec.
Proof.
  simpl. repeat split; simpl; try lia.
  exists [fresh w]. repeat split.
  - apply NoDup_singleton.
  - constructor; [ simpl; lia | constructor ].
Qed.

Lemma resource_steps_fresh (l : list ResourceSpec.t) :
  forall w : World,
    let r := comprehension step_for l w in
    fresh_ids w (snd r) (fst r)
    /\ Forall (fun s => ExecutionStep.dependencies s = []) (fst r).
Proof.
  induction l as [|a l IH]; intros w; cbv zeta; cbn [comprehension].
  - split; [ apply fresh_ids_nil | constructor ].
  - destruct (step_for a w) as [s w1] eqn:Hs.
    destruct (comprehension step_for l w1) as [ss w2] eqn:Hss.
    cbn [fst snd].
    pose proof (new_step_fresh ("deploy-" ++ ResourceSpec.name a)
                  ("Deploy "
                     ++ ResourceType.value (ResourceSpec.resource_type a)
                     ++ " resource '" ++ ResourceSpec.name a ++ "' on "
                     ++ CloudProviderType.value (ResourceSpec.provider a))
                  a (_estimate_step_duration a) [] w) as Hnew.
    fold (step_for a w) in Hnew. rewrite Hs in Hnew. cbn [fst snd] in Hnew.
    destruct Hnew as (Hf & _ & Hdeps & _).
    specialize (IH w1). rewrite Hss in IH. cbn [fst snd] in IH.
    destruct IH as [Hfs Hds]. split.
    + by apply (fresh_ids_app w w1 w2 [s] ss).
    + by constructor.
Qed.

Lemma default_steps_fresh (intent : DeploymentIntent.t)
    (p : CloudProviderType.t) (w : World) :
  let r := default_steps_for intent p w in
  fresh_ids w (snd r) (fst r) /\ deps_closed (fst r).
Proof.
  unfold default_steps_for. simpl. split.
  - repeat split; simpl; try lia.
    exists [fresh w; S (S (fresh w))]. repeat split.
    + apply NoDup_cons. split; [ | apply NoDup_singleton ].
      intros Hin. apply list_elem_of_singleton in Hin. lia.
    + repeat constructor; simpl; lia.
  - intros s d Hs Hd.
    apply elem_of_cons in Hs as [-> | Hs];
      [ simpl in Hd; by apply elem_of_nil in Hd | ].
    apply list_elem_of_singleton in Hs as ->. simpl in Hd |- *.
    apply list_elem_of_singleton in Hd as ->. left.
Qed.

Lemma deps_closed_app (s1 s2 : list ExecutionStep.t) :
  deps_closed s1 -> deps_closed s2 -> deps_closed (s1 ++ s2).
Proof.
  intros H1 H2 s d Hs Hd. rewrite map_app. apply elem_of_app.
  apply elem_of_app in Hs as [Hs | Hs]; [ left | right ]; eauto.
Qed.

Lemma all_default_steps_fresh (intent : DeploymentIntent.t)
    (l : list CloudProviderType.t) :
  forall w : World,
    let r := comprehension (default_steps_for intent) l w in
    fresh_ids w (snd r) (concat (fst r)) /\ deps_closed (concat (fst r)).
Proof.
  induction l as [|p l IH]; intros w; cbv zeta; cbn [comprehension].
  - split; [ apply fresh_ids_nil | ].
    intros s d Hs. by apply elem_of_nil in Hs.
  - destruct (default_steps_fresh intent p w) as [Hf Hc].
    destruct (default_steps_for intent p w) as [pair w1] eqn:Hp.
    specialize (IH w1).
    destruct (comprehension (default_steps_for intent) l w1)
      as [pairs w2] eqn:Hps.
    cbn [fst snd concat] in *. destruct IH as [Hfs Hcs]. split.
    + by apply (fresh_ids_app w w1 w2).
    + by apply deps_closed_app.
Qed.

(** The map of the first loop sends identifiers to step ids of the
    list. *)
Lemma resource_to_step_range (steps : list ExecutionStep.t) (k v : string) :
  resource_to_step steps !! k = Some v ->
  v ∈ map ExecutionStep.step_id steps.
Proof.
  unfold resource_to_step.
  assert (Hgen : forall m0 : gmap string string,
             foldl (fun m step =>
                      <[ResourceSpec.resource_identifier
                          (ExecutionStep.resource_spec step)
                        := ExecutionStep.step_id step]> m) m0 steps !! k
             = Some v ->
             m0 !! k = Some v \/ v ∈ map ExecutionStep.step_id steps).
  { induction steps as [|s steps IH]; simpl; intros m0 Hl; [ by left | ].
    apply IH in Hl as [Hl | Hl]; [ | right; by right ].
    destruct (decide (ResourceSpec.resource_identifier
                        (ExecutionStep.resource_spec s) = k)) as [<- | Hne].
    - rewrite lookup_insert_eq in Hl. injection Hl as <-. right. left.
    - rewrite lookup_insert_ne in Hl by done. by left. }
  intros Hl. apply Hgen in Hl as [Hl | Hl]; [ | done ].
  by rewrite lookup_empty in Hl.
Qed.

Lemma resolve_step_deps (m : gmap string string) (s : ExecutionStep.t)
    (d : string) :
  d ∈ fst (resolve_step m s) ->
  d ∈ ExecutionStep.dependencies s \/ exists k : string, m !! k = Some d.
Proof.
  unfold resolve_step.
  generalize (ResourceSpec.dependencies (ExecutionStep.resource_spec s)).
  intros l.
  assert (Hgen : forall acc : list string * bool,
             d ∈ fst (foldl (fun acc dep_resource =>
                               match m !! dep_resource with
                               | Some dep_step_id =>
                                   if negb (bool_decide (dep_step_id = ""))
                                      && negb (bool_decide
                                                 (dep_step_id ∈ fst acc))
                                   then (fst acc ++ [dep_step_id], true)
                                   else acc
                               | None => acc
                               end) acc l) ->
             d ∈ fst acc \/ exists k : string, m !! k = Some d).
  { induction l as [|r l IH]; simpl; intros acc Hd; [ by left | ].
    apply IH in Hd as [Hd | Hd]; [ | by right ].
    destruct (m !! r) as [v|] eqn:Hr; [ | by left ].
    destruct (negb (bool_decide (v = ""))
              && negb (bool_decide (v ∈ fst acc))); [ | by left ].
    simpl in Hd. apply elem_of_app in Hd as [Hd | Hd]; [ by left | ].
    apply list_elem_of_singleton in Hd as ->. right. by exists r. }
  apply Hgen.
Qed.

Lemma resolve_keeps_ids (steps : list ExecutionStep.t) :
  map ExecutionStep.step_id (_resolve_dependencies steps)
  = map ExecutionStep.step_id steps.
Proof.
  unfold _resolve_dependencies. rewrite map_map. apply map_ext.
  intros s. destruct (resolve_step (resource_to_step steps) s) as [deps [|]];
    reflexivity.
Qed.

Lemma resolve_deps_closed (steps : list ExecutionStep.t) :
  deps_closed steps -> deps_closed (_resolve_dependencies steps).
Proof.
  intros Hc s' d Hs' Hd. rewrite resolve_keeps_ids.
  unfold _resolve_dependencies in Hs'.
  apply list_elem_of_fmap in Hs' as (s & -> & Hs).
  pose proof (resolve_step_deps (resource_to_step steps) s d) as Hres.
  destruct (resolve_step (resource_to_step steps) s) as [deps [|]];
    simpl in *.
  - destruct (Hres Hd) as [Hold | (k & Hk)]; [ by apply (Hc s) | ].
    by apply resource_to_step_range in Hk.
  - by apply (Hc s).
Qed.

(** The steps of a generated plan have distinct step ids, and their
    dependencies are step ids of the plan. *)
Lemma generate_plan_steps (intent : DeploymentIntent.t) (w : World) :
  unique_ids w ->
  let plan := fst (generate_plan intent w) in
  NoDup (map ExecutionStep.step_id (ExecutionPlan.steps plan))
  /\ deps_closed (ExecutionPlan.steps plan).
Proof.
  intros Huniq. unfold generate_plan, _create_steps_from_resources.
  pose proof (resource_steps_fresh
                (sorted (fun r => RESOURCE_PRIORITY
                                    (ResourceSpec.resource_type r))
                        (DeploymentIntent.resources intent)) w) as Hres.
  destruct (comprehension step_for _ w) as [steps0 w1].
  cbn [fst snd] in Hres. destruct Hres as [Hf0 Hd0].
  destruct steps0 as [|s0 steps0].
  - unfold _create_default_steps.
    pose proof (all_default_steps_fresh intent
                  (DeploymentIntent.target_providers intent) w1) as Hdef.
    destruct (comprehension (default_steps_for intent) _ w1) as [pairs w2].
    cbn [fst snd] in Hdef. destruct Hdef as [Hf Hc].
    cbv zeta. cbn [fst snd ExecutionPlan.steps generate_id_w].
    assert (Huniq1 : unique_ids w1).
    { destruct Hf0 as (Hu & _). intros i j. rewrite Hu. apply Huniq. }
    split.
    + rewrite resolve_keeps_ids. by apply (fresh_ids_distinct w1 w2).
    + by apply resolve_deps_closed.
  - cbv zeta. cbn [fst snd ExecutionPlan.steps generate_id_w]. split.
    + rewrite resolve_keeps_ids. by apply (fresh_ids_distinct w w1).
    + apply resolve_deps_closed. intros s d Hs Hd.
      rewrite Forall_forall in Hd0. rewrite (Hd0 s Hs) in Hd.
      by apply elem_of_nil in Hd.
Qed.

End Planner.

Section WavePartition.
Import RuleBasedPlanningEngine.

(** C4 (as amended).  For every plan that [generate_plan] produces,
    [get_execution_order] returns waves that hold every step of the plan
    in exactly one wave; and when the step dependencies of the plan are
    acyclic, every dependency of a step is the id of a step placed in a
    strictly earlier wave.  (Identifiers drawn from [uuid4] are taken to
    be distinct.) *)
Theorem C4_wave_partition (intent : DeploymentIntent.t) (w : World) :
  unique_ids w ->
  let plan := fst (generate_plan intent w) in
  exists waves : list (list ExecutionStep.t),
    ExecutionPlan.get_execution_order plan = Some waves
    /\ partitions waves (ExecutionPlan.steps plan)
    /\ (acyclic (ExecutionPlan.steps plan) ->
        forall (i : nat) (s : ExecutionStep.t) (d : string),
          wave_of waves s i -> d ∈ ExecutionStep.dependencies s ->
          settled_before waves i d).
Proof.
  intros Huniq plan.
  destruct (generate_plan_steps intent w Huniq) as [Hnd Hclosed].
  fold plan in Hnd, Hclosed.
  destruct (waves_loop_total (length (ExecutionPlan.steps plan)) ∅
              (ExecutionPlan.steps plan) (le_n _)) as (waves & Hrun & Hperm).
  exists waves. split; [ exact Hrun | ]. split.
  - apply partitions_of_perm; [ | done ]. by apply NoDup_fmap_1 in Hnd.
  - intros (rank & Hrank) i s d Hw Hd.
    assert (Hinv : pending_below rank ∅ (ExecutionPlan.steps plan)).
    { intros s0 d0 Hs0 Hd0. right. split; [ | by apply (Hrank s0) ].
      apply (Hclosed s0 d0 Hs0), list_elem_of_fmap in Hd0 as (s' & -> & Hs').
      by exists s'. }
    destruct (waves_loop_ordered rank _ ∅ _ waves Hrun Hinv i s d Hw Hd)
      as [Hc | Hsettled]; [ | done ].
    by apply elem_of_empty in Hc.
Qed.

End WavePartition.

Lemma sample_world_unique : unique_ids Sample.world.
Proof.
  intros i j Heq. simpl in Heq. injection Heq as Heq.
  by apply pretty_nat_inj in Heq.
Qed.

(** The plan for a server that depends on its network is acyclic and
    has two waves. *)
Lemma network_then_server :
  let plan := fst (RuleBasedPlanningEngine.generate_plan
                     (Sample.intent_of [Sample.app; Sample.vpc []])
                     Sample.world) in
  acyclic (ExecutionPlan.steps plan)
  /\ option_map (map (map ExecutionStep.name))
                (ExecutionPlan.get_execution_order plan)
     = Some [["deploy-vpc"]; ["deploy-app"]].
Proof.
  split; [ | vm_compute; reflexivity ].
  exists (fun i => if decide (i = "id-0") then 0%nat else 1%nat).
  intros s d Hs Hd. vm_compute in Hs.
  apply list_elem_of_In in Hs. simpl in Hs.
  destruct Hs as [<- | [<- | []]]; simpl in Hd.
  - by apply elem_of_nil in Hd.
  - apply list_elem_of_singleton in Hd as ->. vm_compute. lia.
Qed.

(** C4 on that intent: the identifiers of the sample source are
    distinct, the plan is acyclic, and the dependency of the server step
    is settled by the wave before it. *)
Lemma C4_wave_partition_witness :
  let plan := fst (RuleBasedPlanningEngine.generate_plan
                     (Sample.intent_of [Sample.app; Sample.vpc []])
                     Sample.world) in
  unique_ids Sample.world
  /\ acyclic (ExecutionPlan.steps plan)
  /\ exists waves : list (list ExecutionStep.t),
       ExecutionPlan.get_execution_order plan = Some waves
       /\ partitions waves (ExecutionPlan.steps plan)
       /\ forall (i : nat) (s : ExecutionStep.t) (d : string),
            wave_of waves s i -> d ∈ ExecutionStep.dependencies s ->
            settled_before waves i d.
Proof.
  intros plan.
  split; [ exact sample_world_unique | ].
  split; [ exact (proj1 network_then_server) | ].
  destruct (C4_wave_partition (Sample.intent_of [Sample.app; Sample.vpc []])
                              Sample.world sample_world_unique)
    as (waves & Hrun & Hpart & Hord).
  exists waves. split; [ exact Hrun | ]. split; [ exact Hpart | ].
  exact (Hord (proj1 network_then_server)).
Defined.

(** C4 as stated does not hold: when the network names the server as a
    dependency and the server the network, no step is ready, the loop
    falls back on the first remaining step, and the network step lands
    in the first wave, before the server step it depends on. *)
Lemma C4_counterexample :
  let plan :=
    fst (RuleBasedPlanningEngine.generate_plan
           (Sample.intent_of
              [Sample.app; Sample.vpc ["aws/us-east-1/compute/app"]])
           Sample.world) in
  exists vpc_step app_step : ExecutionStep.t,
    ExecutionPlan.steps plan = [vpc_step; app_step]
    /\ ExecutionPlan.get_execution_order plan
       = Some [[vpc_step]; [app_step]]
    /\ ExecutionStep.step_id app_step ∈ ExecutionStep.dependencies vpc_step
    /\ wave_of [[vpc_step]; [app_step]] vpc_step 0
    /\ wave_of [[vpc_step]; [app_step]] app_step 1
    /\ ~ settled_before [[vpc_step]; [app_step]] 0
                        (ExecutionStep.step_id app_step).
Proof.
  intros plan.
  let steps := eval vm_compute in (ExecutionPlan.steps plan) in
  match steps with
  | [?a; ?b] => exists a, b
  end.
  split; [ vm_compute; reflexivity | ].
  split; [ vm_compute; reflexivity | ].
  split; [ vm_compute; left | ].
  split; [ eexists; split; [ reflexivity | left ] | ].
  split; [ eexists; split; [ reflexivity | left ] | ].
  intros (j & s' & Hj & _). lia.
Qed.

(** * Further properties of the code *)

(** ** The deployment aggregate *)

(** No lifecycle call asks for PENDING, and PENDING is the only successor
    of ROLLED_BACK; COMPLETED and CANCELLED have no successor. *)
Lemma terminal_rejects (d : Deployment.t) (c : Deployment.call) :
  Deployment.is_terminal d = true ->
  Deployment.target c ∉ VALID_TRANSITIONS (Deployment.status d).
Proof.
  unfold Deployment.is_terminal. intros Ht Hin.
  apply bool_decide_eq_true in Ht.
  apply list_elem_of_In in Ht. apply list_elem_of_In in Hin.
  simpl in Ht. destruct Ht as [Hs | [Hs | [Hs | []]]]; rewrite <- Hs in Hin;
    destruct c; simpl in Hin; intuition discriminate.
Qed.

(** X1.  A deployment in a terminal status (COMPLETED, CANCELLED,
    ROLLED_BACK) refuses every lifecycle call with
    [InvalidStateTransitionError] and stays in its status -- also
    ROLLED_BACK, whose only successor in the table, PENDING, no call asks
    for. *)
Theorem X1_terminal_deployment_refuses_calls (w : World) (d : Deployment.t)
    (c : Deployment.call) :
  Deployment.is_terminal d = true ->
  let r := Deployment.run c (w, d) in
  raised r = Some InvalidStateTransitionError
  /\ Deployment.status (snd (snd r)) = Deployment.status d
  /\ Deployment.is_terminal (snd (snd r)) = true.
Proof.
  intros Ht r; subst r.
  destruct (lifecycle_outcome w d c) as ([Hok _] & _ & Hfail).
  assert (Hs : succeeded (Deployment.run c (w, d)) = false).
  { destruct (succeeded (Deployment.run c (w, d))) eqn:E; [ | done ].
    exfalso. by apply (terminal_rejects d c Ht), Hok. }
  destruct (Hfail Hs) as (Hr & _ & Hst & _).
  repeat split; [ done | done | ].
  unfold Deployment.is_terminal in *. by rewrite Hst.
Qed.

Lemma X1_terminal_deployment_witness :
  let d := Sample.deployment false DeploymentStatus.ROLLED_BACK
                             (Some Sample.plan) in
  let r := Deployment.run Deployment.StartPlanning (Sample.world, d) in
  Deployment.is_terminal d = true
  /\ raised r = Some InvalidStateTransitionError
  /\ Deployment.status (snd (snd r)) = DeploymentStatus.ROLLED_BACK
  /\ Deployment.is_terminal (snd (snd r)) = true.
Proof.
  intros d r. split; [ reflexivity | ].
  exact (X1_terminal_deployment_refuses_calls
           Sample.world d Deployment.StartPlanning eq_refl).
Defined.

(** X2.  No lifecycle call puts a deployment in PENDING or leaves it in
    PLANNED: the re-planning edges FAILED -> PENDING and
    ROLLED_BACK -> PENDING of the table are never taken, and from
    FAILED the only call that succeeds is [start_rollback]. *)
Theorem X2_no_way_back_to_pending (w : World) (d : Deployment.t)
    (c : Deployment.call) :
  let r := Deployment.run c (w, d) in
  (succeeded r = true ->
     Deployment.status (snd (snd r)) <> DeploymentStatus.PENDING
     /\ Deployment.status (snd (snd r)) <> DeploymentStatus.PLANNED)
  /\ (Deployment.status d = DeploymentStatus.FAILED ->
      (succeeded r = true <-> c = Deployment.StartRollback)).
Proof.
  intros r; subst r.
  destruct (lifecycle_outcome w d c) as (Hiff & Hok & _).
  split.
  - intros Hs. rewrite (Hok Hs).
    destruct c; simpl;
      try destruct (DeploymentIntent.auto_approve (Deployment.intent d));
      split; discriminate.
  - intros Hst. rewrite Hiff, Hst. simpl. split.
    + intros Hin. apply list_elem_of_In in Hin. simpl in Hin.
      destruct c; simpl in Hin; (reflexivity || intuition discriminate).
    + intros ->. simpl. left.
Qed.

(** What an accepted lifecycle call does to the fields it may touch. *)
Lemma accepted_call_effect (w : World) (d : Deployment.t)
    (c : Deployment.call) :
  Deployment.target c ∈ VALID_TRANSITIONS (Deployment.status d) ->
  let r := Deployment.run c (w, d) in
  let d' := snd (snd r) in
  fst r = Ok tt
  /\ Deployment.version d'
     = Deployment.version d
       + match c with Deployment.SetPlan _ => 2 | _ => 1 end
  /\ (exists new : list DomainEvent.t,
        Deployment._domain_events d' = Deployment._domain_events d ++ new
        /\ map DomainEvent.body new = emitted c d
        /\ Forall (event_of d) new)
  /\ Deployment.id d' = Deployment.id d
  /\ Deployment.intent d' = Deployment.intent d
  /\ Deployment.plan d'
     = match c with Deployment.SetPlan p => Some p | _ => Deployment.plan d end
  /\ Deployment.error_message d'
     = match c with
       | Deployment.Fail m => m
       | _ => Deployment.error_message d
       end.
Proof.
  intros Hin r d'; subst r d'.
  destruct c; simpl in Hin |- *; unfold_call;
    rewrite transition_accepts by exact Hin; simpl.
  2: destruct (DeploymentIntent.auto_approve (Deployment.intent d));
       unfold_call; rewrite transition_accepts by (simpl; set_solver); simpl.
  all: repeat split; try lia.
  all: try (exists []; rewrite app_nil_r; repeat split; constructor).
  all: try (eexists [_]; repeat split; repeat constructor; fail).
  all: eexists [_; _]; rewrite <- app_assoc; repeat split; repeat constructor.
Qed.

(** X3.  The version of a deployment counts its accepted transitions and
    its recorded step results: a lifecycle call that succeeds adds one (
    [set_plan], which makes two transitions, adds two) and one that is
    refused adds nothing; [record_step_result] adds one, or two when it
    also fails the deployment; [collect_events] adds nothing. *)
Theorem X3_version_counts_mutations (w : World) (d : Deployment.t) :
  (forall c : Deployment.call,
     let r := Deployment.run c (w, d) in
     Deployment.version (snd (snd r))
     = Deployment.version d
       + if succeeded r
         then match c with Deployment.SetPlan _ => 2 | _ => 1 end
         else 0)
  /\ (forall result : StepResult.t,
        let r := Deployment.record_step_result result (w, d) in
        Deployment.version (snd (snd r))
        = Deployment.version d
          + if negb (StepResult.success result)
               && DeploymentIntent.rollback_on_failure (Deployment.intent d)
               && succeeded r
            then 2 else 1)
  /\ Deployment.version (snd (snd (Deployment.collect_events (w, d))))
     = Deployment.version d.
Proof.
  split; [ | split; [ | reflexivity ] ].
  - intros c r; subst r.
    destruct (lifecycle_outcome w d c) as (Hiff & _ & Hfail).
    destruct (succeeded (Deployment.run c (w, d))) eqn:Hs.
    + pose proof (proj1 Hiff eq_refl) as Hin.
      by destruct (accepted_call_effect w d c Hin) as (_ & Hv & _).
    + destruct (Hfail eq_refl) as (_ & _ & _ & Hv & _). rewrite Hv. lia.
  - intros result r; subst r.
    unfold Deployment.record_step_result.
    repeat (unfold bind at 1; simpl).
    destruct (negb (StepResult.success result)
              && DeploymentIntent.rollback_on_failure (Deployment.intent d));
      [ | reflexivity ].
    unfold_call.
    match goal with
    | |- context [Deployment._transition_to ?s (?w', ?d')] =>
        destruct (decide (s ∈ VALID_TRANSITIONS (Deployment.status d')))
          as [Hin|Hout];
        [ rewrite (transition_accepts w' d' s Hin)
        | rewrite (transition_rejects w' d' s Hout) ]
    end; simpl; lia.
Qed.

(** X4.  A lifecycle call that succeeds appends to the event buffer the
    events of its method, in order, each correlated with the deployment:
    [start_planning], [start_verification] and [cancel] emit nothing,
    [set_plan] emits [deployment.plan_generated] and, with
    [auto_approve], [deployment.approved]; the other calls emit their
    one event.  A call that is refused appends nothing. *)
Theorem X4_events_of_lifecycle_calls (w : World) (d : Deployment.t)
    (c : Deployment.call) :
  let r := Deployment.run c (w, d) in
  exists new : list DomainEvent.t,
    Deployment._domain_events (snd (snd r))
    = Deployment._domain_events d ++ new
    /\ map DomainEvent.body new = (if succeeded r then emitted c d else [])
    /\ Forall (event_of d) new.
Proof.
  intros r; subst r.
  destruct (lifecycle_outcome w d c) as (Hiff & _ & Hfail).
  destruct (succeeded (Deployment.run c (w, d))) eqn:Hs.
  - pose proof (proj1 Hiff eq_refl) as Hin.
    by destruct (accepted_call_effect w d c Hin) as (_ & _ & Hev & _).
  - destruct (Hfail eq_refl) as (_ & _ & _ & _ & _ & _ & Hev & _).
    exists []. rewrite app_nil_r. repeat split; [ done | constructor ].
Qed.

(** X5.  [record_step_result] returns without touching status, error
    message or events when the result is a success or the intent does not
    ask for rollback on failure.  For a failed result with
    [rollback_on_failure] it fails the deployment -- status FAILED, the
    message ["Step <id> failed: <error>"], one [deployment.failed] event
    -- when FAILED is an allowed successor; otherwise it raises
    [InvalidStateTransitionError], the status is unchanged, no event is
    added, and the message is stored all the same. *)
Theorem X5_record_step_result_outcome (w : World) (d : Deployment.t)
    (result : StepResult.t) :
  let r := Deployment.record_step_result result (w, d) in
  let d' := snd (snd r) in
  let failing := negb (StepResult.success result)
                 && DeploymentIntent.rollback_on_failure (Deployment.intent d) in
  let message := ("Step " ++ StepResult.step_id result ++ " failed: "
                    ++ StepResult.error_message result)%string in
  (failing = false ->
     fst r = Ok tt
     /\ Deployment.status d' = Deployment.status d
     /\ Deployment.error_message d' = Deployment.error_message d
     /\ Deployment._domain_events d' = Deployment._domain_events d)
  /\ (failing = true ->
      Deployment.error_message d' = message
      /\ (DeploymentStatus.FAILED ∈ VALID_TRANSITIONS (Deployment.status d) ->
          fst r = Ok tt
          /\ Deployment.status d' = DeploymentStatus.FAILED
          /\ exists e : DomainEvent.t,
               Deployment._domain_events d' = Deployment._domain_events d ++ [e]
               /\ DomainEvent.body e
                  = DomainEvent.DeploymentFailed (Deployment.id d) message)
      /\ (DeploymentStatus.FAILED ∉ VALID_TRANSITIONS (Deployment.status d) ->
          fst r = Raise InvalidStateTransitionError
          /\ Deployment.status d' = Deployment.status d
          /\ Deployment._domain_events d' = Deployment._domain_events d)).
Proof.
  intros r d' failing message; subst r d' failing message.
  unfold Deployment.record_step_result.
  repeat (unfold bind at 1; simpl).
  destruct (negb (StepResult.success result)
            && DeploymentIntent.rollback_on_failure (Deployment.intent d)).
  - split; [ done | intros _ ]. unfold_call.
    split; [ | split ].
    + match goal with
      | |- context [Deployment._transition_to ?s (?w', ?d')] =>
          destruct (decide (s ∈ VALID_TRANSITIONS (Deployment.status d')))
            as [Hin|Hout];
          [ rewrite (transition_accepts w' d' s Hin)
          | rewrite (transition_rejects w' d' s Hout) ]
      end; reflexivity.
    + intros Hin. rewrite transition_accepts by exact Hin. simpl.
      repeat split. eexists. split; reflexivity.
    + intros Hout. rewrite transition_rejects by exact Hout. simpl. done.
  - split; [ intros _; done | done ].
Qed.

(** ** Publishing the events of an aggregate *)

(** X6.  [_publish_events] on a stored deployment publishes the dump of
    every buffered event, in the order they were raised, and leaves the
    stored deployment with an empty buffer; publishing again right away
    publishes nothing and changes nothing, so no event goes out twice. *)
Theorem X6_events_published_once (st : State) (d : Deployment.t) :
  let d' := Deployment.with_domain_events [] d in
  let r := DeploymentDomainService._publish_events d st in
  fst r = Ok d'
  /\ _events (snd r)
     = _events st
         ++ map (fun e => (DomainEvent.event_type e, EventDump e))
                (Deployment._domain_events d)
  /\ _deployment_store (snd r)
     = <[Deployment.id d := d']> (_deployment_store st)
  /\ _task_store (snd r) = _task_store st
  /\ DeploymentDomainService._publish_events d' (snd r) = (Ok d', snd r).
Proof.
  intros d' r; subst d' r.
  unfold DeploymentDomainService._publish_events,
    InMemoryDeploymentRepository.call.
  repeat (unfold bind at 1; simpl).
  destruct (publish_all (Deployment._domain_events d)
              (with_deployment_store
                 (<[Deployment.id d := Deployment.with_domain_events [] d]>
                    (_deployment_store st))
                 (with_world (world st) st))) as (units & ->).
  simpl. repeat split.
  rewrite insert_insert_eq. by destruct st.
Qed.

(** ** Execution plans *)

Section PlanLookup.
Import ExecutionPlan.

Lemma get_step_found (p : ExecutionPlan.t) (sid : string)
    (s : ExecutionStep.t) :
  get_step p sid = Some s -> s ∈ steps p /\ ExecutionStep.step_id s = sid.
Proof.
  unfold get_step. intros Hf. apply find_some in Hf as [Hin Hid].
  split; [ by apply list_elem_of_In | by apply bool_decide_eq_true in Hid ].
Qed.

(** X7.  [get_step] returns [None] exactly when no step of the plan has
    the id; a step it returns is a step of the plan with that id; and in
    a plan whose step ids are distinct -- as in every plan of
    [generate_plan] -- looking up the id of a step returns that step. *)
Theorem X7_get_step_lookup (p : ExecutionPlan.t) :
  (forall sid : string,
     get_step p sid = None
     <-> sid ∉ map ExecutionStep.step_id (steps p))
  /\ (forall (sid : string) (s : ExecutionStep.t),
        get_step p sid = Some s ->
        s ∈ steps p /\ ExecutionStep.step_id s = sid)
  /\ (NoDup (map ExecutionStep.step_id (steps p)) ->
      forall s : ExecutionStep.t,
        s ∈ steps p -> get_step p (ExecutionStep.step_id s) = Some s)
  /\ (forall (intent : DeploymentIntent.t) (w : World),
        unique_ids w ->
        p = fst (RuleBasedPlanningEngine.generate_plan intent w) ->
        forall s : ExecutionStep.t,
          s ∈ steps p -> get_step p (ExecutionStep.step_id s) = Some s).
Proof.
  assert (Hround : NoDup (map ExecutionStep.step_id (steps p)) ->
                   forall s : ExecutionStep.t,
                     s ∈ steps p ->
                     get_step p (ExecutionStep.step_id s) = Some s).
  { unfold get_step. induction (steps p) as [|a l IH]; intros Hnd s Hs.
    - by apply elem_of_nil in Hs.
    - simpl in Hnd. apply NoDup_cons in Hnd as [Ha Hnd]. simpl.
      apply elem_of_cons in Hs as [-> | Hs].
      + by rewrite bool_decide_eq_true_2.
      + rewrite bool_decide_eq_false_2; [ by apply IH | ].
        intros Heq. apply Ha. rewrite Heq.
        apply list_elem_of_fmap. by exists s. }
  split; [ | split; [ | split ] ].
  - intros sid. split.
    + intros Hnone Hin. apply list_elem_of_fmap in Hin as (s & -> & Hs).
      unfold get_step in Hnone.
      apply (find_none _ _ Hnone s) in Hs
        || (apply list_elem_of_In in Hs; apply (find_none _ _ Hnone) in Hs).
      by rewrite bool_decide_eq_true_2 in Hs.
    + intros Hnot. destruct (get_step p sid) as [s|] eqn:Hf; [ | done ].
      apply get_step_found in Hf as [Hs <-]. exfalso. apply Hnot.
      apply list_elem_of_fmap. by exists s.
  - intros sid s. apply get_step_found.
  - exact Hround.
  - intros intent w Huniq ->. apply Hround.
    by destruct (generate_plan_steps intent w Huniq) as [Hnd _].
Qed.

End PlanLookup.

Section AnyPlan.
Import ExecutionPlan.

(** Every wave the loop makes is a non-empty selection of the remaining
    steps, in their order. *)
Lemma waves_loop_shape (fuel : nat) :
  forall (completed : gset string) (remaining : list ExecutionStep.t)
         (waves : list (list ExecutionStep.t)),
    waves_loop fuel completed remaining = Some waves ->
    Forall (fun wave => wave <> [] /\ wave `sublist_of` remaining) waves.
Proof.
  induction fuel as [|fuel IH]; intros completed remaining waves Hrun.
  - destruct remaining; [ | done ]. injection Hrun as <-. constructor.
  - destruct remaining as [|first rest].
    { injection Hrun as <-. constructor. }
    rewrite waves_loop_step in Hrun.
    destruct (filter (fun s => ready completed s = true) (first :: rest))
      as [|e es] eqn:Hel.
    + destruct (waves_loop fuel _ rest) as [waves'|] eqn:Hrest; [ | done ].
      injection Hrun as <-. constructor.
      * split; [ done | ]. apply sublist_skip. apply sublist_nil_l.
      * eapply Forall_impl; [ exact (IH _ _ _ Hrest) | ].
        intros wave [Hne Hsub]. split; [ done | ]. by apply sublist_cons.
    + destruct (waves_loop fuel _ _) as [waves'|] eqn:Hrest; [ | done ].
      injection Hrun as <-. constructor.
      * split; [ done | ]. rewrite <- Hel. apply sublist_filter.
      * eapply Forall_impl; [ exact (IH _ _ _ Hrest) | ].
        intros wave [Hne Hsub]. split; [ done | ].
        etrans; [ exact Hsub | apply sublist_filter ].
Qed.

Lemma nonempty_waves_length {A : Type} (waves : list (list A)) :
  Forall (fun wave => wave <> []) waves ->
  (length waves <= length (concat waves))%nat.
Proof.
  induction 1 as [|wave waves Hne _ IH]; simpl; [ done | ].
  rewrite length_app. destruct wave; [ done | simpl; lia ].
Qed.

(** X8.  [get_execution_order] returns for every plan, whatever its
    dependencies (cyclic, dangling): the waves hold the steps of the plan,
    each as often as the plan does; no wave is empty, so there are at
    most as many waves as steps; and every wave lists its steps in plan
    order. *)
Theorem X8_execution_order_of_any_plan (p : ExecutionPlan.t) :
  exists waves : list (list ExecutionStep.t),
    get_execution_order p = Some waves
    /\ concat waves ≡ₚ steps p
    /\ Forall (fun wave => wave <> [] /\ wave `sublist_of` steps p) waves
    /\ (length waves <= length (steps p))%nat.
Proof.
  destruct (get_execution_order_total p) as (waves & Hrun & Hperm).
  exists waves. split; [ done | ]. split; [ done | ].
  pose proof (waves_loop_shape _ _ _ _ Hrun) as Hshape.
  split; [ done | ].
  rewrite <- (Permutation_length Hperm).
  apply nonempty_waves_length.
  eapply Forall_impl; [ exact Hshape | ]. by intros wave [Hne _].
Qed.

(** X9.  A plan with steps none of which has a dependency runs in one
    wave: all its steps, in plan order. *)
Theorem X9_independent_steps_one_wave (p : ExecutionPlan.t) :
  steps p <> [] ->
  Forall (fun s => ExecutionStep.dependencies s = []) (steps p) ->
  get_execution_order p = Some [steps p].
Proof.
  unfold get_execution_order. intros Hne Hall.
  destruct (steps p) as [|first rest] eqn:Hsteps; [ done | ].
  change (length (first :: rest)) with (S (length rest)).
  rewrite waves_loop_step.
  assert (Hready : Forall (fun s => ready ∅ s = true) (first :: rest)).
  { eapply Forall_impl; [ exact Hall | ].
    intros s Hs. unfold ready. by rewrite Hs. }
  assert (Hall' : filter (fun s => ready ∅ s = true) (first :: rest)
                  = first :: rest).
  { clear -Hready. induction Hready as [|a l Ha _ IH]; [ done | ].
    rewrite filter_cons_True by done. by rewrite IH. }
  assert (Hnone : filter (fun s => ~ ready ∅ s = true) (first :: rest) = []).
  { clear -Hready. induction Hready as [|a l Ha _ IH]; [ done | ].
    rewrite filter_cons_False by tauto. done. }
  rewrite Hall', Hnone. by destruct (length rest).
Qed.

Lemma X9_independent_steps_witness :
  ExecutionPlan.steps Sample.plan <> []
  /\ Forall (fun s => ExecutionStep.dependencies s = [])
            (ExecutionPlan.steps Sample.plan)
  /\ get_execution_order Sample.plan = Some [ExecutionPlan.steps Sample.plan].
Proof.
  assert (Hne : ExecutionPlan.steps Sample.plan <> []) by done.
  assert (Hall : Forall (fun s => ExecutionStep.dependencies s = [])
                        (ExecutionPlan.steps Sample.plan))
    by (repeat constructor).
  split; [ exact Hne | split; [ exact Hall | ] ].
  exact (X9_independent_steps_one_wave Sample.plan Hne Hall).
Defined.

End AnyPlan.

Section OrderedPlans.
Import ExecutionPlan.

Lemma not_ready_spec (completed : gset string) (s : ExecutionStep.t) :
  ready completed s <> true ->
  exists d : string, d ∈ ExecutionStep.dependencies s /\ d ∉ completed.
Proof.
  unfold ready. induction (ExecutionStep.dependencies s) as [|d l IH];
    simpl; [ done | ].
  destruct (decide (d ∈ completed)) as [Hd | Hd].
  - rewrite bool_decide_eq_true_2 by done. simpl. intros Hl.
    destruct (IH Hl) as (d' & Hd' & Hnot). exists d'. split; [ by right | done ].
  - intros _. exists d. split; [ left | done ].
Qed.

(** Retiring the ready steps keeps what the loop relies on. *)
Lemma pending_below_next (rank : string -> nat) (completed : gset string)
    (remaining : list ExecutionStep.t) :
  pending_below rank completed remaining ->
  pending_below rank
    (list_to_set
       (map ExecutionStep.step_id
            (filter (fun s => ready completed s = true) remaining))
     ∪ completed)
    (filter (fun s => ~ ready completed s = true) remaining).
Proof.
  intros Hinv s0 d0 Hs0 Hd0.
  apply list_elem_of_filter in Hs0 as [_ Hs0].
  destruct (Hinv s0 d0 Hs0 Hd0) as [Hc | [(s' & Hs' & Hid) Hlt]].
  - left. apply elem_of_union_r, Hc.
  - destruct (decide (ready completed s' = true)) as [Hr | Hr].
    + left. apply elem_of_union_l, elem_of_list_to_set.
      apply list_elem_of_fmap. exists s'. split; [ done | ].
      by apply list_elem_of_filter.
    + right. split; [ | done ]. exists s'. split; [ | done ].
      by apply list_elem_of_filter.
Qed.

(** With acyclic dependencies the first wave is the ready steps. *)
Lemma waves_loop_first (rank : string -> nat) (fuel : nat)
    (completed : gset string) (remaining : list ExecutionStep.t)
    (wave : list ExecutionStep.t) (waves : list (list ExecutionStep.t)) :
  waves_loop fuel completed remaining = Some (wave :: waves) ->
  pending_below rank completed remaining ->
  wave = filter (fun s => ready completed s = true) remaining
  /\ waves_loop (pred fuel)
       (list_to_set (map ExecutionStep.step_id wave) ∪ completed)
       (filter (fun s => ~ ready completed s = true) remaining)
     = Some waves.
Proof.
  intros Hrun Hinv. destruct remaining as [|first rest].
  { by destruct fuel. }
  destruct fuel as [|fuel]; [ done | ].
  rewrite waves_loop_step in Hrun.
  pose proof (some_step_ready rank completed (first :: rest)
                ltac:(done) Hinv) as Hne.
  destruct (filter (fun s => ready completed s = true) (first :: rest))
    as [|e es] eqn:Hel; [ done | clear Hne ].
  simpl pred.
  destruct (waves_loop fuel _ _) as [waves'|] eqn:Hrest; [ | done ].
  by injection Hrun as <- <-.
Qed.

(** With acyclic dependencies no step waits longer than it has to: a
    step of a later wave has a dependency in the wave just before. *)
Lemma waves_loop_earliest (rank : string -> nat) (fuel : nat) :
  forall (completed : gset string) (remaining : list ExecutionStep.t)
         (waves : list (list ExecutionStep.t)),
    waves_loop fuel completed remaining = Some waves ->
    pending_below rank completed remaining ->
    forall (i : nat) (s : ExecutionStep.t),
      wave_of waves s (S i) ->
      exists (d : string) (s' : ExecutionStep.t),
        d ∈ ExecutionStep.dependencies s
        /\ wave_of waves s' i /\ ExecutionStep.step_id s' = d.
Proof.
  induction fuel as [|fuel IH]; intros completed remaining waves Hrun Hinv
                                       i s Hw.
  - destruct remaining; [ | done ]. injection Hrun as <-.
    by apply wave_of_nil in Hw.
  - destruct waves as [|wave waves].
    { by apply wave_of_nil in Hw. }
    destruct (waves_loop_first rank _ _ _ _ _ Hrun Hinv) as [Hwave Hrest].
    simpl pred in Hrest. rewrite Hwave in Hrest.
    pose proof (pending_below_next rank _ _ Hinv) as Hinv'.
    assert (Hw' : wave_of waves s i).
    { destruct Hw as (wave0 & Hl & Hs). by exists wave0. }
    destruct i as [|i].
    + destruct Hw' as (wave1 & Hl & Hs).
      destruct waves as [|wave1' waves']; [ done | ].
      injection Hl as ->.
      destruct (waves_loop_first rank _ _ _ _ _ Hrest Hinv') as [Hwave1 _].
      rewrite Hwave1 in Hs.
      apply list_elem_of_filter in Hs as [Hnow Hs].
      apply list_elem_of_filter in Hs as [Hbefore Hs].
      apply not_ready_spec in Hbefore as (d & Hd & Hnot).
      pose proof (proj1 (ready_spec _ s) Hnow d Hd) as Hc.
      apply elem_of_union in Hc as [Hc | Hc]; [ | done ].
      apply elem_of_list_to_set, list_elem_of_fmap in Hc as (s' & -> & Hs').
      exists (ExecutionStep.step_id s'), s'. split; [ done | ].
      split; [ | done ]. exists wave. split; [ done | by rewrite Hwave ].
    + destruct (IH _ _ _ Hrest Hinv' i s Hw')
        as (d & s' & Hd & (wave0 & Hl & Hs') & Hid).
      exists d, s'. split; [ done | ]. split; [ | done ]. by exists wave0.
Qed.

(** X10.  For every plan whose dependencies name steps of the plan and
    are acyclic, [get_execution_order] returns waves in which every
    dependency of a step sits in a strictly earlier wave, the first wave
    is the steps without dependencies, and every step of a later wave
    has a dependency in the wave just before it: no step waits longer
    than its dependencies make it. *)
Theorem X10_waves_are_dependency_levels (p : ExecutionPlan.t) :
  deps_closed (steps p) ->
  acyclic (steps p) ->
  exists waves : list (list ExecutionStep.t),
    get_execution_order p = Some waves
    /\ (forall (i : nat) (s : ExecutionStep.t) (d : string),
          wave_of waves s i -> d ∈ ExecutionStep.dependencies s ->
          settled_before waves i d)
    /\ (forall s : ExecutionStep.t,
          wave_of waves s 0
          <-> s ∈ steps p /\ ExecutionStep.dependencies s = [])
    /\ (forall (i : nat) (s : ExecutionStep.t),
          wave_of waves s (S i) ->
          exists (d : string) (s' : ExecutionStep.t),
            d ∈ ExecutionStep.dependencies s
            /\ wave_of waves s' i /\ ExecutionStep.step_id s' = d).
Proof.
  intros Hclosed (rank & Hrank).
  assert (Hinv : pending_below rank ∅ (steps p)).
  { intros s0 d0 Hs0 Hd0. right. split; [ | by apply (Hrank s0) ].
    apply (Hclosed s0 d0 Hs0), list_elem_of_fmap in Hd0 as (s' & -> & Hs').
    by exists s'. }
  destruct (get_execution_order_total p) as (waves & Hrun & Hperm).
  exists waves. split; [ done | ]. unfold get_execution_order in Hrun.
  split; [ | split ].
  - intros i s d Hw Hd.
    destruct (waves_loop_ordered rank _ ∅ _ waves Hrun Hinv i s d Hw Hd)
      as [Hc | Hsettled]; [ | done ].
    by apply elem_of_empty in Hc.
  - assert (Hempty : forall s : ExecutionStep.t,
              ready ∅ s = true <-> ExecutionStep.dependencies s = []).
    { intros s. rewrite ready_spec. split.
      - intros Hall. destruct (ExecutionStep.dependencies s) as [|d l];
          [ done | ].
        exfalso. apply (not_elem_of_empty (C := gset string) d).
        apply Hall. left.
      - intros ->. intros d Hd. by apply elem_of_nil in Hd. }
    intros s. split.
    + intros (wave & Hl & Hs). destruct waves as [|wave0 waves]; [ done | ].
      injection Hl as ->.
      destruct (waves_loop_first rank _ _ _ _ _ Hrun Hinv) as [-> _].
      apply list_elem_of_filter in Hs as [Hr Hs]. split; [ done | ].
      by apply Hempty.
    + intros [Hs Hnil]. destruct waves as [|wave0 waves].
      { simpl in Hperm. rewrite <- Hperm in Hs. by apply elem_of_nil in Hs. }
      destruct (waves_loop_first rank _ _ _ _ _ Hrun Hinv) as [-> _].
      eexists. split; [ done | ]. apply list_elem_of_filter.
      split; [ by apply Hempty | done ].
  - apply (waves_loop_earliest rank _ _ _ _ Hrun Hinv).
Qed.

Lemma chain_plan_closed : deps_closed (steps Fixture.chain_plan).
Proof.
  intros s d Hs Hd. apply list_elem_of_In in Hs. apply list_elem_of_In in Hd.
  apply list_elem_of_In. simpl in *.
  destruct Hs as [<- | [<- | [<- | []]]]; simpl in Hd; tauto.
Qed.

Lemma chain_plan_acyclic : acyclic (steps Fixture.chain_plan).
Proof.
  exists (fun d => if decide (d = "a") then 0%nat
                   else if decide (d = "b") then 1%nat else 2%nat).
  intros s d Hs Hd. apply list_elem_of_In in Hs. apply list_elem_of_In in Hd.
  simpl in Hs.
  destruct Hs as [<- | [<- | [<- | []]]]; simpl in Hd;
    repeat (destruct Hd as [<- | Hd]); try done; simpl; lia.
Qed.

Lemma X10_waves_witness :
  deps_closed (steps Fixture.chain_plan)
  /\ acyclic (steps Fixture.chain_plan)
  /\ exists waves : list (list ExecutionStep.t),
       get_execution_order Fixture.chain_plan = Some waves
       /\ (forall (i : nat) (s : ExecutionStep.t) (d : string),
             wave_of waves s i -> d ∈ ExecutionStep.dependencies s ->
             settled_before waves i d)
       /\ (forall s : ExecutionStep.t,
             wave_of waves s 0
             <-> s ∈ steps Fixture.chain_plan
                 /\ ExecutionStep.dependencies s = [])
       /\ (forall (i : nat) (s : ExecutionStep.t),
             wave_of waves s (S i) ->
             exists (d : string) (s' : ExecutionStep.t),
               d ∈ ExecutionStep.dependencies s
               /\ wave_of waves s' i /\ ExecutionStep.step_id s' = d).
Proof.
  split; [ exact chain_plan_closed | split; [ exact chain_plan_acyclic | ] ].
  exact (X10_waves_are_dependency_levels Fixture.chain_plan
           chain_plan_closed chain_plan_acyclic).
Defined.

(** A dependency that no remaining step and no retired step carries is
    never completed: a step that names it is handed out by the fallback
    only, alone in its wave. *)
Lemma waves_loop_dangling (d : string) (fuel : nat) :
  forall (completed : gset string) (remaining : list ExecutionStep.t)
         (waves : list (list ExecutionStep.t)),
    waves_loop fuel completed remaining = Some waves ->
    d ∉ completed ->
    d ∉ map ExecutionStep.step_id remaining ->
    forall (s : ExecutionStep.t) (wave : list ExecutionStep.t),
      d ∈ ExecutionStep.dependencies s ->
      wave ∈ waves -> s ∈ wave -> wave = [s].
Proof.
  induction fuel as [|fuel IH];
    intros completed remaining waves Hrun Hc Hr s wave Hd Hwave Hs.
  - destruct remaining; [ | done ]. injection Hrun as <-.
    by apply elem_of_nil in Hwave.
  - destruct remaining as [|first rest].
    { injection Hrun as <-. by apply elem_of_nil in Hwave. }
    rewrite waves_loop_step in Hrun.
    assert (Hnever : s ∉ filter (fun s => ready completed s = true)
                                (first :: rest)).
    { intros Hin. apply list_elem_of_filter in Hin as [Hready _].
      by apply Hc, (proj1 (ready_spec completed s) Hready). }
    destruct (filter (fun s => ready completed s = true) (first :: rest))
      as [|e es] eqn:Hel.
    + destruct (waves_loop fuel _ rest) as [waves'|] eqn:Hrest; [ | done ].
      injection Hrun as <-.
      apply elem_of_cons in Hwave as [-> | Hwave].
      * by apply list_elem_of_singleton in Hs as ->.
      * apply (IH _ _ _ Hrest) with (s := s); try done.
        -- intros Hin. apply elem_of_union in Hin as [Hin | Hin]; [ | done ].
           apply Hr. apply elem_of_singleton in Hin as ->. left.
        -- intros Hin. apply Hr. by right.
    + rewrite <- Hel in Hrun.
      destruct (waves_loop fuel _ _) as [waves'|] eqn:Hrest; [ | done ].
      injection Hrun as <-.
      apply elem_of_cons in Hwave as [-> | Hwave].
      * rewrite <- Hel in Hnever. done.
      * apply (IH _ _ _ Hrest) with (s := s); try done.
        -- intros Hin. apply elem_of_union in Hin as [Hin | Hin]; [ | done ].
           apply Hr. apply elem_of_list_to_set in Hin.
           apply list_elem_of_fmap in Hin as (s' & -> & Hs').
           apply list_elem_of_filter in Hs' as [_ Hs'].
           apply list_elem_of_fmap. by exists s'.
        -- intros Hin. apply Hr.
           apply list_elem_of_fmap in Hin as (s' & -> & Hs').
           apply list_elem_of_filter in Hs' as [_ Hs'].
           apply list_elem_of_fmap. by exists s'.
Qed.

(** X11.  A step with a dependency that is the id of no step of the plan
    is never ready; [get_execution_order] still hands it out, through
    the fallback on the first remaining step, so it is alone in its
    wave. *)
Theorem X11_dangling_dependency_runs_alone (p : ExecutionPlan.t)
    (s : ExecutionStep.t) (d : string) :
  s ∈ steps p ->
  d ∈ ExecutionStep.dependencies s ->
  d ∉ map ExecutionStep.step_id (steps p) ->
  exists waves : list (list ExecutionStep.t),
    get_execution_order p = Some waves
    /\ [s] ∈ waves
    /\ forall wave : list ExecutionStep.t,
         wave ∈ waves -> s ∈ wave -> wave = [s].
Proof.
  intros Hs Hd Hnot.
  destruct (get_execution_order_total p) as (waves & Hrun & Hperm).
  exists waves. split; [ done | ].
  assert (Halone : forall wave : list ExecutionStep.t,
            wave ∈ waves -> s ∈ wave -> wave = [s]).
  { intros wave Hwave Hin.
    apply (waves_loop_dangling d _ ∅ (steps p) waves Hrun) with (s := s);
      done. }
  split; [ | done ].
  rewrite <- Hperm in Hs. apply list_elem_of_In, in_concat in Hs
    as (wave & Hwave & Hin).
  apply list_elem_of_In in Hwave. apply list_elem_of_In in Hin.
  by rewrite <- (Halone wave Hwave Hin).
Qed.

Lemma X11_dangling_dependency_witness :
  exists waves : list (list ExecutionStep.t),
    get_execution_order Fixture.dangling_plan = Some waves
    /\ [Fixture.step_with "b" "second" ["missing"]] ∈ waves
    /\ forall wave : list ExecutionStep.t,
         wave ∈ waves -> Fixture.step_with "b" "second" ["missing"] ∈ wave ->
         wave = [Fixture.step_with "b" "second" ["missing"]].
Proof.
  apply (X11_dangling_dependency_runs_alone Fixture.dangling_plan
           (Fixture.step_with "b" "second" ["missing"]) "missing").
  - right. left.
  - left.
  - intros Hin. apply list_elem_of_In in Hin. simpl in Hin.
    destruct Hin as [Hin | [Hin | [Hin | []]]]; discriminate Hin.
Defined.

End OrderedPlans.

(** ** Tasks *)

Section TaskOperations.

Lemma task_status_cases (s : TaskStatus.t) (l : list TaskStatus.t) :
  s ∈ l <-> In s l.
Proof. apply list_elem_of_In. Qed.

(** The outcome of an operation of a task, accepted or refused. *)
Lemma task_call_outcome (w : World) (x : Task.t) (c : Task.call) :
  let r := Task.run c (w, x) in
  let allowed :=
    first_transition c ∈ TASK_VALID_TRANSITIONS (Task.status x)
    /\ (c = Task.Retry -> Task.attempt_number x < Task.max_attempts x) in
  (fst r = Ok tt <-> allowed)
  /\ (~ allowed ->
      snd r = (w, assigned_first c x)
      /\ fst r
         = Raise (match c with
                  | Task.Retry =>
                      if bool_decide
                           (Task.attempt_number x >= Task.max_attempts x)
                      then MaxRetriesExceededError
                      else InvalidTaskTransitionError
                  | _ => InvalidTaskTransitionError
                  end)).
Proof.
  intros r allowed; subst r allowed.
  destruct c; simpl; unfold_task_call.
  1-3, 5, 7-8:
    task_transition; simpl;
    (split; [ split; [ try done; intros _; split; done
                     | try done; intros [? _]; done ] | ]);
    (intros Hnot; try (exfalso; apply Hnot; split; done));
    done.
  - destruct output as [[|kv o]|]; simpl; task_transition; simpl in *;
      (split; [ split; [ try done; intros _; split; done
                       | try done; intros [? _]; done ] | ]);
      (intros Hnot; try (exfalso; apply Hnot; split; done));
      done.
  - destruct (bool_decide (Task.attempt_number x >= Task.max_attempts x))
      eqn:Hge; simpl.
    + apply bool_decide_eq_true in Hge. split.
      * split; [ done | ]. intros [_ Hlt]. specialize (Hlt eq_refl). lia.
      * intros _. done.
    + apply bool_decide_eq_false in Hge.
      task_transition; simpl.
      * repeat (unfold bind at 1; simpl).
        rewrite task_transition_accepts by (simpl; repeat constructor).
        simpl. split; [ split; [ intros _; split; [ done | lia ] | done ] | ].
        intros Hnot. exfalso. apply Hnot. split; [ done | lia ].
      * split; [ split; [ done | by intros [? _] ] | ].
        intros _. done.
Qed.

(** X12.  An operation of a task returns exactly when the status it asks
    for first is an allowed successor of the current status (and, for
    [retry], attempts are left).  Otherwise it raises
    [InvalidTaskTransitionError] ([retry] without attempts left:
    [MaxRetriesExceededError]), reads neither clock nor identifier
    source, and leaves the task as it was -- except that [fail] has
    already stored its message and [succeed] its non-empty output. *)
Theorem X12_refused_task_operation (w : World) (x : Task.t) (c : Task.call) :
  let r := Task.run c (w, x) in
  let allowed :=
    first_transition c ∈ TASK_VALID_TRANSITIONS (Task.status x)
    /\ (c = Task.Retry -> Task.attempt_number x < Task.max_attempts x) in
  (fst r = Ok tt <-> allowed)
  /\ (~ allowed ->
      snd r = (w, assigned_first c x)
      /\ fst r
         = Raise (match c with
                  | Task.Retry =>
                      if bool_decide
                           (Task.attempt_number x >= Task.max_attempts x)
                      then MaxRetriesExceededError
                      else InvalidTaskTransitionError
                  | _ => InvalidTaskTransitionError
                  end)).
Proof. exact (task_call_outcome w x c). Qed.

(** X13.  [is_terminal] holds exactly for the tasks on which no
    operation returns: SUCCEEDED and CANCELLED have no successor, every
    other status has an operation that is accepted. *)
Theorem X13_terminal_task_refuses_all (x : Task.t) :
  Task.is_terminal x = true
  <-> forall (c : Task.call) (w : World), fst (Task.run c (w, x)) <> Ok tt.
Proof.
  unfold Task.is_terminal. rewrite bool_decide_eq_true. split.
  - intros Hterm c w Hok.
    apply (proj1 (task_call_outcome w x c)) in Hok as [Hin _].
    apply task_status_cases in Hterm. simpl in Hterm.
    destruct Hterm as [Heq | [Heq | []]]; rewrite <- Heq in Hin;
      simpl in Hin; by apply elem_of_nil in Hin.
  - intros Hnone.
    destruct (Task.status x) eqn:Hst; try (repeat constructor; fail); exfalso.
    + apply (Hnone Task.Enqueue Sample.world).
      apply task_call_outcome. rewrite Hst. simpl.
      split; [ repeat constructor | done ].
    + apply (Hnone (Task.Acquire "") Sample.world).
      apply task_call_outcome. rewrite Hst. simpl.
      split; [ repeat constructor | done ].
    + apply (Hnone Task.Start Sample.world).
      apply task_call_outcome. rewrite Hst. simpl.
      split; [ repeat constructor | done ].
    + apply (Hnone (Task.Succeed None) Sample.world).
      apply task_call_outcome. rewrite Hst. simpl.
      split; [ repeat constructor | done ].
    + apply (Hnone Task.Cancel Sample.world).
      apply task_call_outcome. rewrite Hst. simpl.
      split; [ repeat constructor | done ].
    + apply (Hnone Task.Enqueue Sample.world).
      apply task_call_outcome. rewrite Hst. simpl.
      split; [ repeat constructor | done ].
    + apply (Hnone Task.Cancel Sample.world).
      apply task_call_outcome. rewrite Hst. simpl.
      split; [ repeat constructor | done ].
Qed.

End TaskOperations.

Section TaskRetry.

(** X14.  [can_retry] tells whether [retry] returns.  When it does, the
    task is queued again for its next attempt with two more mutations
    counted; its idempotency key, its data and the timestamps of the
    attempt that ended -- [started_at], [completed_at] -- are the old
    ones. *)
Theorem X14_can_retry_decides_retry (w : World) (x : Task.t) :
  let r := Task.retry (w, x) in
  let x' := snd (snd r) in
  (Task.can_retry x = true <-> fst r = Ok tt)
  /\ (Task.can_retry x = true ->
      Task.status x' = TaskStatus.QUEUED
      /\ Task.attempt_number x' = Task.attempt_number x + 1
      /\ Task.version x' = Task.version x + 2
      /\ Task.id x' = Task.id x
      /\ Task.idempotency_key x' = Task.idempotency_key x
      /\ Task.input_data x' = Task.input_data x
      /\ Task.output_data x' = Task.output_data x
      /\ Task.started_at x' = Task.started_at x
      /\ Task.completed_at x' = Task.completed_at x
      /\ Task.can_retry x' = false).
Proof.
  intros r x'; subst r x'.
  assert (Hcan : Task.can_retry x = true
                 <-> TaskStatus.RETRYING
                       ∈ TASK_VALID_TRANSITIONS (Task.status x)
                     /\ Task.attempt_number x < Task.max_attempts x).
  { unfold Task.can_retry. rewrite andb_true_iff, !bool_decide_eq_true.
    split; intros [Hst Hlt]; (split; [ | done ]).
    - apply task_status_cases in Hst. simpl in Hst.
      destruct Hst as [<- | [<- | []]]; simpl; repeat constructor.
    - destruct (Task.status x); apply task_status_cases in Hst; simpl in Hst;
        repeat (destruct Hst as [Hst | Hst]; try discriminate Hst);
        try done; repeat constructor. }
  pose proof (task_call_outcome w x Task.Retry) as [Hok _]. simpl in Hok.
  split.
  - rewrite Hcan, Hok. split; intros [Hin Hlt]; (split; [ done | ]); auto.
  - intros Hyes. apply Hcan in Hyes as [Hin Hlt].
    unfold_task_call. rewrite bool_decide_eq_false_2 by lia. simpl.
    rewrite task_transition_accepts by exact Hin.
    simpl. repeat (unfold bind at 1; simpl).
    rewrite task_transition_accepts by (simpl; repeat constructor).
    simpl. repeat (split; [ done || lia | ]). done.
Qed.

End TaskRetry.

Section TaskInvariant.

Lemma new_task_consistent (deployment_id step_id name description : string)
    (provider : CloudProviderType.t) (terraform_action idempotency_key : string)
    (timeout_seconds : Z) (input_data : dict TaskValue) (w : World) :
  task_consistent
    (fst (Task.new deployment_id step_id name description provider
            terraform_action idempotency_key timeout_seconds input_data w)).
Proof.
  split; simpl; try done; try lia;
    intros Hin%task_status_cases; simpl in Hin;
    repeat (destruct Hin as [Hin | Hin]; try discriminate Hin); done.
Qed.

Ltac status_cases :=
  repeat match goal with
         | H : _ ∈ TASK_VALID_TRANSITIONS _ |- _ =>
             apply task_status_cases in H; simpl in H
         | H : _ ∈ _ :: _ |- _ => apply task_status_cases in H; simpl in H
         | H : _ \/ _ |- _ => destruct H as [H | H]
         | H : False |- _ => destruct H
         | H : @eq TaskStatus.t _ _ |- _ => discriminate H
         end.

(** Every operation keeps the fields in step with the status, also when
    it raises. *)
Lemma task_call_consistent (w : World) (x : Task.t) (c : Task.call) :
  task_consistent x -> task_consistent (snd (snd (Task.run c (w, x)))).
Proof.
  intros [Hnr Hwait Hwork Hstart Hend Hatt Hver].
  destruct c; simpl; unfold_task_call.
  4: { destruct output as [[|kv o]|]; simpl; task_transition; simpl in *.
       all: split; simpl; try done; try lia.
       all: try (intros Hst; destruct (Task.status x) eqn:Hx; status_cases;
                 first [ done | by apply Hwork; repeat constructor
                       | by apply Hstart; repeat constructor
                       | by apply Hwait; repeat constructor
                       | by apply Hend; repeat constructor ]). }
  5: { destruct (bool_decide (Task.attempt_number x >= Task.max_attempts x))
         eqn:Hge; simpl; [ by split | ].
       apply bool_decide_eq_false in Hge.
       task_transition; simpl; [ | by split ].
       repeat (unfold bind at 1; simpl).
       rewrite task_transition_accepts by (simpl; repeat constructor).
       simpl. split; simpl; try done; try lia.
       all: intros Hst; status_cases. }
  all: task_transition; simpl in *.
  all: split; simpl; try done; try lia.
  all: try (intros Hst; destruct (Task.status x) eqn:Hx; status_cases;
            first [ done | by apply Hwork; repeat constructor
                  | by apply Hstart; repeat constructor
                  | by apply Hwait; repeat constructor
                  | by apply Hend; repeat constructor ]).
Qed.

(** X15.  In every task the system can hold the fields go with the
    status: it is never left in RETRYING; a PENDING or QUEUED task has
    no worker; an ACQUIRED, RUNNING or SUCCEEDED task has one; a RUNNING
    or SUCCEEDED task has [started_at]; a SUCCEEDED, FAILED, CANCELLED
    or TIMED_OUT task has [completed_at]; attempts and version count
    from one. *)
Theorem X15_reachable_task_consistent (x : Task.t) :
  task_reachable x -> task_consistent x.
Proof.
  induction 1 as [| x0 c w0 _ IH].
  - apply new_task_consistent.
  - by apply task_call_consistent.
Qed.

Lemma X15_reachable_task_witness :
  task_consistent
    (snd (snd (Task.run Task.Enqueue
                 (Sample.world,
                  fst (Task.new "dep-1" "step-1" "web" "" CloudProviderType.AWS
                         "create" "key-1" 120 [] Sample.world))))).
Proof.
  apply X15_reachable_task_consistent.
  apply reach_call, reach_new.
Defined.

End TaskInvariant.

(** ** The task repository *)

Section SortedLists.
Context {A : Type} (key : A -> Z).

Lemma insert_sorted_front (x : A) (l : list A) :
  Forall (fun z => key x <= key z) l -> insert_sorted key x l = x :: l.
Proof.
  destruct 1 as [|z l Hz _]; simpl; [ done | ].
  by rewrite bool_decide_eq_true_2.
Qed.

Lemma insert_sorted_ascending (x : A) (l : list A) :
  ascending key l -> ascending key (insert_sorted key x l).
Proof.
  induction l as [|y l IH]; simpl; [ done | ]. intros [Hy Hl].
  case_bool_decide as Hle; simpl.
  - split; [ | done ]. constructor; [ done | ].
    eapply Forall_impl; [ exact Hy | ]. simpl. intros z Hz. lia.
  - split; [ | by apply IH ].
    rewrite insert_sorted_perm. constructor; [ lia | done ].
Qed.

Lemma sorted_ascending (l : list A) : ascending key (sorted key l).
Proof.
  induction l as [|x l IH]; simpl; [ done | ].
  by apply insert_sorted_ascending.
Qed.

Lemma find_ascending (P : A -> bool) (l : list A) (x : A) :
  ascending key l ->
  List.find P l = Some x ->
  forall y : A, y ∈ l -> P y = true -> key x <= key y.
Proof.
  induction l as [|a l IH]; simpl; [ done | ]. intros [Ha Hl] Hfind y Hy Hp.
  destruct (P a) eqn:Hpa.
  - injection Hfind as <-. apply elem_of_cons in Hy as [-> | Hy]; [ lia | ].
    rewrite Forall_forall in Ha. by apply Ha.
  - apply elem_of_cons in Hy as [-> | Hy]; [ congruence | ].
    by apply IH.
Qed.

Lemma filter_insert_sorted (P : A -> Prop) `{forall a, Decision (P a)}
    (x : A) (l : list A) :
  ascending key l ->
  filter P (insert_sorted key x l)
  = if decide (P x) then insert_sorted key x (filter P l) else filter P l.
Proof.
  induction l as [|y l IH]; simpl.
  - intros _. rewrite filter_cons. by destruct (decide (P x)).
  - intros [Hy Hl]. case_bool_decide as Hle.
    + rewrite filter_cons. destruct (decide (P x)); [ | done ].
      rewrite insert_sorted_front; [ done | ].
      apply Forall_forall. intros z Hz.
      apply list_elem_of_filter in Hz as [_ Hz].
      apply elem_of_cons in Hz as [-> | Hz]; [ done | ].
      rewrite Forall_forall in Hy. specialize (Hy z Hz). simpl in Hy. lia.
    + rewrite !(filter_cons _ y). rewrite IH by done.
      destruct (decide (P y)), (decide (P x)); simpl; try done.
      by rewrite bool_decide_eq_false_2.
Qed.

(** Filtering commutes with the stable sort. *)
Lemma filter_sorted (P : A -> Prop) `{forall a, Decision (P a)}
    (l : list A) :
  filter P (sorted key l) = sorted key (filter P l).
Proof.
  induction l as [|x l IH]; [ done | ].
  change (sorted key (x :: l)) with (insert_sorted key x (sorted key l)).
  rewrite filter_insert_sorted by apply sorted_ascending.
  rewrite filter_cons, IH. by destruct (decide (P x)).
Qed.

End SortedLists.

Section TaskStore.
Import InMemoryTaskRepository.

Lemma dict_set_twice {V : Type} (k : string) (v : V) (d : dict V) :
  dict_set k v (dict_set k v d) = dict_set k v d.
Proof.
  induction d as [|[k' v'] d IH]; simpl.
  - by rewrite decide_True.
  - destruct (decide (k' = k)) as [-> | Hne]; simpl.
    + by rewrite decide_True.
    + rewrite decide_False by done. by rewrite IH.
Qed.

Lemma dict_get_set_other {V : Type} (k k' : string) (v : V) (d : dict V) :
  k' <> k -> dict_get k' (dict_set k v d) = dict_get k' d.
Proof.
  intros Hne. induction d as [|[k0 v0] d IH]; simpl.
  - by rewrite decide_False.
  - destruct (decide (k0 = k)) as [-> | Hk]; simpl.
    + by rewrite !decide_False.
    + destruct (decide (k0 = k')); [ done | exact IH ].
Qed.

Lemma dict_set_keys {V : Type} (k : string) (v : V) (d : dict V) :
  map fst (dict_set k v d)
  = if decide (k ∈ map fst d) then map fst d else map fst d ++ [k].
Proof.
  induction d as [|[k' v'] d IH]; simpl; [ done | ].
  destruct (decide (k' = k)) as [-> | Hne]; simpl.
  - rewrite decide_True by left. done.
  - rewrite IH. destruct (decide (k ∈ map fst d)) as [Hin | Hout].
    + rewrite decide_True by (by right). done.
    + rewrite decide_False; [ done | ].
      intros Hin. apply elem_of_cons in Hin as [-> | Hin]; done.
Qed.

(** Filing a task under its own id keeps the store in order. *)
Lemma store_ok_set (store : dict Task.t) (x : Task.t) :
  store_ok store -> store_ok (dict_set (Task.id x) x store).
Proof.
  intros [Hnd Hkeys]. split.
  - rewrite dict_set_keys. destruct (decide (Task.id x ∈ map fst store));
      [ done | ].
    apply NoDup_app. split; [ done | ]. split; [ | apply NoDup_singleton ].
    intros k Hk Hk'. by apply list_elem_of_singleton in Hk' as ->.
  - clear Hnd. induction store as [|[k v] store IH]; simpl.
    + by repeat constructor.
    + apply Forall_cons in Hkeys as [Hkv Hkeys].
      destruct (decide (k = Task.id x)); constructor; auto.
Qed.

(** What is left of the queue once a task of the store is filed again
    with another status. *)
Lemma queued_after_set (store : dict Task.t) (x x' : Task.t) :
  store_ok store ->
  Task.status x' <> TaskStatus.QUEUED ->
  filter (fun y => Task.status y = TaskStatus.QUEUED)
         (dict_values (dict_set (Task.id x) x' store))
  = filter (fun y => Task.id y <> Task.id x)
           (filter (fun y => Task.status y = TaskStatus.QUEUED)
                   (dict_values store)).
Proof.
  intros [Hnd Hkeys] Hx'. unfold dict_values.
  induction store as [|[k v] store IH]; simpl.
  - rewrite filter_cons. by rewrite decide_False.
  - simpl in Hnd. apply NoDup_cons in Hnd as [Hk Hnd].
    apply Forall_cons in Hkeys as [Hkv Hkeys]. simpl in Hkv.
    destruct (decide (k = Task.id x)) as [Heq | Hne]; simpl.
    + rewrite filter_cons, decide_False by done.
      assert (Hrest : filter (fun y => Task.id y <> Task.id x)
                        (filter (fun y => Task.status y = TaskStatus.QUEUED)
                                (map snd store))
                      = filter (fun y => Task.status y = TaskStatus.QUEUED)
                               (map snd store)).
      { clear IH. rewrite <- Heq. clear Heq Hnd Hkv.
        induction store as [|[k0 v0] store IH]; simpl; [ done | ].
        apply Forall_cons in Hkeys as [Hkv0 Hkeys]. simpl in Hkv0.
        apply not_elem_of_cons in Hk as [Hk0 Hk]. simpl in Hk0.
        rewrite (filter_cons _ v0).
        destruct (decide (Task.status v0 = TaskStatus.QUEUED)).
        - rewrite filter_cons, decide_True by congruence.
          by rewrite IH.
        - by apply IH. }
      rewrite (filter_cons _ v).
      destruct (decide (Task.status v = TaskStatus.QUEUED)); [ | done ].
      rewrite filter_cons, decide_False by (intros Hid; apply Hid; congruence).
      done.
    + rewrite !(filter_cons _ v).
      destruct (decide (Task.status v = TaskStatus.QUEUED)).
      * rewrite filter_cons, decide_True by congruence.
        by rewrite IH.
      * by apply IH.
Qed.

(** What [acquire_next] does with the task its scan stops at. *)
Lemma acquire_next_run (st : State) (worker_id : string) (x : Task.t) :
  List.find (fun y => bool_decide (Task.status y = TaskStatus.QUEUED))
            (sorted Task.created_at (dict_values (_task_store st)))
  = Some x ->
  let x' := acquired_by worker_id (fst (utc_now_w (world st))) x in
  acquire_next worker_id st
  = (Ok (Some x'),
     with_task_store (dict_set (Task.id x) x' (_task_store st))
                     (with_world (snd (utc_now_w (world st))) st)).
Proof.
  intros Hfind x'.
  assert (Hst : Task.status x = TaskStatus.QUEUED).
  { apply find_some in Hfind as [_ Hst]. by apply bool_decide_eq_true in Hst. }
  unfold acquire_next. unfold bind at 1. simpl. rewrite Hfind.
  unfold call, Task.acquire, save. repeat (unfold bind at 1; simpl).
  rewrite task_transition_accepts
    by (rewrite Hst; simpl; repeat constructor).
  simpl. unfold with_task_store; simpl.
  by rewrite (dict_set_twice (Task.id x) x').
Qed.

(** X16.  [acquire_next] never raises.  It returns [None], and changes
    nothing, exactly when no task is queued.  Otherwise it takes a
    queued task that no queued task is older than -- the first of
    [list_by_status(QUEUED)] -- and returns it acquired by the caller,
    after filing it under its id; the clock is read once. *)
Theorem X16_acquire_next_takes_oldest (st : State) (worker_id : string) :
  let r := acquire_next worker_id st in
  (fst r = Ok None <-> queued_tasks st = [])
  /\ (queued_tasks st = [] -> snd r = st)
  /\ (forall e : Exn, fst r <> Raise e)
  /\ (forall x' : Task.t,
        fst r = Ok (Some x') ->
        exists x : Task.t,
          x ∈ queued_tasks st
          /\ (forall y : Task.t,
                y ∈ queued_tasks st -> Task.created_at x <= Task.created_at y)
          /\ (forall limit : Z,
                1 <= limit ->
                exists rest : list Task.t,
                  fst (TaskQueries.list_by_status TaskStatus.QUEUED limit st)
                  = Ok (x :: rest))
          /\ x' = acquired_by worker_id (fst (utc_now_w (world st))) x
          /\ snd r
             = with_task_store (dict_set (Task.id x) x' (_task_store st))
                 (with_world (snd (utc_now_w (world st))) st)).
Proof.
  intros r; subst r.
  destruct (List.find
              (fun y => bool_decide (Task.status y = TaskStatus.QUEUED))
              (sorted Task.created_at (dict_values (_task_store st))))
    as [x|] eqn:Hfind.
  - pose proof (acquire_next_run st worker_id x Hfind) as Hrun.
    simpl in Hrun. rewrite Hrun. simpl.
    assert (Hq : x ∈ queued_tasks st).
    { pose proof Hfind as Hf. apply find_some in Hf as [Hin Hst].
      apply list_elem_of_filter. split; [ by apply bool_decide_eq_true in Hst | ].
      apply list_elem_of_In in Hin. by rewrite sorted_perm in Hin. }
    split; [ split; [ done | ] | ].
    { intros Hnil. rewrite Hnil in Hq. by apply elem_of_nil in Hq. }
    split.
    { intros Hnil. rewrite Hnil in Hq. by apply elem_of_nil in Hq. }
    split; [ done | ].
    intros x' [= <-]. exists x. split; [ done | ]. split; [ | split ].
    + intros y Hy. apply list_elem_of_filter in Hy as [Hst Hy].
      apply (find_ascending Task.created_at _ _ x
               (sorted_ascending Task.created_at _) Hfind).
      * by rewrite sorted_perm.
      * by apply bool_decide_eq_true.
    + intros limit Hlimit. unfold TaskQueries.list_by_status, bind; simpl.
      rewrite <- filter_sorted.
      rewrite find_filter in Hfind.
      destruct (filter _ (sorted Task.created_at _)) as [|a l]; [ done | ].
      injection Hfind as ->.
      unfold slice_to. rewrite bool_decide_eq_true_2 by lia.
      destruct (Z.to_nat limit) eqn:Hn; [ lia | ]. simpl. by eexists.
    + done.
  - assert (Hnil : queued_tasks st = []).
    { unfold queued_tasks. rewrite find_filter in Hfind.
      apply Permutation_nil_r. rewrite <- (sorted_perm Task.created_at).
      rewrite <- filter_sorted.
      by destruct (filter _ (sorted Task.created_at _)). }
    rewrite (acquire_next_none_queued st worker_id Hnil). simpl.
    repeat split; done.
Qed.

(** X17.  A store in which every task is filed once, under its own id,
    stays so under [save] and [acquire_next]; there [acquire_next] takes
    the returned task off the queue and no other, and a task filed with
    [save] is what [get_by_id] returns for its id, the other ids
    answering as before. *)
Theorem X17_task_store_kept_in_order (st : State) :
  store_ok (_task_store st) ->
  (forall x : Task.t,
     let st' := snd (save x st) in
     store_ok (_task_store st')
     /\ fst (get_by_id (Task.id x) st') = Ok (Some x)
     /\ (forall k : string,
           k <> Task.id x -> fst (get_by_id k st') = fst (get_by_id k st))
     /\ snd (save x st') = st')
  /\ (forall worker_id : string,
        let r := acquire_next worker_id st in
        store_ok (_task_store (snd r))
        /\ map fst (_task_store (snd r)) = map fst (_task_store st)
        /\ forall x' : Task.t,
             fst r = Ok (Some x') ->
             queued_tasks (snd r)
             = filter (fun y => Task.id y <> Task.id x') (queued_tasks st)).
Proof.
  intros Hok. split.
  - intros x st'; subst st'. unfold save, get_by_id, bind, modify, get, ret.
    simpl. split; [ by apply store_ok_set | ].
    split; [ by rewrite dict_get_set | ].
    split; [ intros k Hk; by rewrite dict_get_set_other | ].
    unfold with_task_store; simpl. by rewrite dict_set_twice.
  - intros worker_id r; subst r.
    destruct (List.find
                (fun y => bool_decide (Task.status y = TaskStatus.QUEUED))
                (sorted Task.created_at (dict_values (_task_store st))))
      as [x|] eqn:Hfind.
    + pose proof (acquire_next_run st worker_id x Hfind) as Hrun.
      simpl in Hrun. rewrite Hrun. simpl.
      set (x' := acquired_by worker_id (clock (world st) (ticks (world st))) x).
      assert (Hin : Task.id x ∈ map fst (_task_store st)).
      { apply find_some in Hfind as [Hin _]. apply list_elem_of_In in Hin.
        rewrite sorted_perm in Hin.
        apply list_elem_of_fmap in Hin as ([k v] & -> & Hkv).
        destruct Hok as [_ Hkeys]. rewrite Forall_forall in Hkeys.
        rewrite <- (Hkeys _ Hkv). apply list_elem_of_fmap. by exists (k, v). }
      split; [ | split ].
      * change (Task.id x) with (Task.id x'). by apply store_ok_set.
      * rewrite dict_set_keys. by rewrite decide_True.
      * intros ? [= <-]. unfold queued_tasks. simpl.
        by apply queued_after_set.
    + assert (Hnil : queued_tasks st = []).
      { unfold queued_tasks. rewrite find_filter in Hfind.
        apply Permutation_nil_r. rewrite <- (sorted_perm Task.created_at).
        rewrite <- filter_sorted.
        by destruct (filter _ (sorted Task.created_at _)). }
      rewrite (acquire_next_none_queued st worker_id Hnil). simpl.
      split; [ done | ]. split; [ done | ]. intros x' Hx'. done.
Qed.

Lemma X17_task_store_witness :
  store_ok
    (_task_store
       (Sample.state []
          [Sample.task "task-1" "dep-1" 5 TaskStatus.QUEUED]))
  /\ queued_tasks
       (snd (acquire_next "worker-1"
               (Sample.state []
                  [Sample.task "task-1" "dep-1" 5 TaskStatus.QUEUED])))
     = [].
Proof.
  assert (Hok : store_ok
                  (_task_store
                     (Sample.state []
                        [Sample.task "task-1" "dep-1" 5 TaskStatus.QUEUED]))).
  { split; simpl; [ apply NoDup_singleton | by repeat constructor ]. }
  split; [ exact Hok | ].
  destruct (X17_task_store_kept_in_order _ Hok) as [_ Hacq].
  destruct (Hacq "worker-1") as (_ & _ & Hqueue).
  by rewrite (Hqueue _ eq_refl).
Defined.

End TaskStore.

(** ** The deployment service *)

Section ServiceOperations.
Import DeploymentDomainService.

Lemma state_same_store (st : State) (k : string) (d : Deployment.t) :
  _deployment_store st !! k = Some d ->
  with_deployment_store (<[k := d]> (_deployment_store st))
                        (with_world (world st) st) = st.
Proof.
  intros Hd. destruct st as [w ds ts rs es]; simpl in *.
  unfold with_deployment_store, with_world; simpl. f_equal.
  by apply insert_id.
Qed.

(** X18.  [approve_deployment] and [rollback_deployment] on a stored
    deployment go through exactly when APPROVED, respectively
    ROLLING_BACK, is an allowed successor of its status: the returned
    deployment is the stored one, in the new status, one mutation on,
    and what is published is the events still buffered and then
    [deployment.approved] with the approver, respectively
    [deployment.rollback_started].  Otherwise the operation raises
    [InvalidStateTransitionError]; nothing is stored or published. *)
Theorem X18_approve_and_rollback (st : State) (deployment_id by_ : string)
    (d : Deployment.t) :
  _deployment_store st !! deployment_id = Some d ->
  Deployment.id d = deployment_id ->
  let approved := approve_deployment deployment_id by_ st in
  let rolling := rollback_deployment deployment_id st in
  (DeploymentStatus.APPROVED ∈ VALID_TRANSITIONS (Deployment.status d) ->
   served st d DeploymentStatus.APPROVED
          (DomainEvent.DeploymentApproved deployment_id by_) approved)
  /\ (DeploymentStatus.APPROVED ∉ VALID_TRANSITIONS (Deployment.status d) ->
      approved = (Raise InvalidStateTransitionError, st))
  /\ (DeploymentStatus.ROLLING_BACK ∈ VALID_TRANSITIONS (Deployment.status d) ->
      served st d DeploymentStatus.ROLLING_BACK
             (DomainEvent.DeploymentRollbackStarted deployment_id) rolling)
  /\ (DeploymentStatus.ROLLING_BACK ∉ VALID_TRANSITIONS (Deployment.status d) ->
      rolling = (Raise InvalidStateTransitionError, st)).
Proof.
  intros Hd Hid approved rolling; subst approved rolling deployment_id.
  unfold approve_deployment, rollback_deployment,
    InMemoryDeploymentRepository.get_by_id.
  repeat (unfold bind at 1; simpl). rewrite Hd.
  unfold InMemoryDeploymentRepository.call, Deployment.approve,
    Deployment.start_rollback.
  repeat (unfold bind at 1; simpl).
  split; [ | split; [ | split ] ]; intros Hin.
  1, 3: rewrite transition_accepts by exact Hin; simpl;
    unfold _publish_events, InMemoryDeploymentRepository.call;
    repeat (unfold bind at 1; simpl);
    match goal with
    | |- context [for_each ?f ?l ?s] =>
        destruct (publish_all l s) as (units & ->)
    end;
    simpl; eexists _, _;
    (split; [ reflexivity | ]); simpl;
    (split; [ by rewrite !insert_insert_eq | ]);
    (split; [ done | ]); (split; [ done | ]); (split; [ done | ]);
    refine (conj _ (conj _ (conj eq_refl _))); by repeat split.
  all: rewrite transition_rejects by exact Hin; simpl;
    f_equal; by apply state_same_store.
Qed.

Lemma X18_approve_and_rollback_witness :
  let d := Sample.deployment false DeploymentStatus.AWAITING_APPROVAL
                             (Some Sample.plan) in
  let st := Sample.state [d] [] in
  served st d DeploymentStatus.APPROVED
         (DomainEvent.DeploymentApproved "dep-1" "bob")
         (DeploymentDomainService.approve_deployment "dep-1" "bob" st)
  /\ DeploymentDomainService.rollback_deployment "dep-1" st
     = (Raise InvalidStateTransitionError, st).
Proof.
  intros d st.
  assert (Hd : _deployment_store st !! "dep-1" = Some d) by done.
  destruct (X18_approve_and_rollback st "dep-1" "bob" d Hd eq_refl)
    as (Hyes & _ & _ & Hno).
  split.
  - apply Hyes. simpl. repeat constructor.
  - apply Hno. simpl. intros Hin. apply list_elem_of_In in Hin. simpl in Hin.
    destruct Hin as [Hin | [Hin | []]]; discriminate Hin.
Defined.

End ServiceOperations.
